(** * Loan amortisation and death-cover pricing: a shallow embedding

    The development embeds the computational core of the repository:

    - [LoanCore]      : [src/ProjetActuariat/loan_core.py], the schedule
                        generator used by the insurance application;
    - [LoanCoreMonth0]: [src/loan_core.py], the older generator with a
                        leading month-0 row and explicit input checks;
    - [App]           : the pure functions of [src/ProjetActuariat/app.py]
                        (mortality conversion and present values).

    Number model.  Python floats are embedded as exact numbers: the
    rounding of each binary operation is left out, the exceptions are
    kept (division by zero, zero to a negative power, the logarithm of a
    non-positive number and a power beyond the range of a double raise
    as they do in CPython).  The schedule generator only uses field
    operations, integer powers and decimal rounding, so it is embedded
    over [Q], where it runs; every finite float is a rational.  The
    mortality functions use [exp] and [log] and are embedded over [R].
    Exceptions are values of an error monad.

    What the idealisation leaves out.  Which cent a payment lands on is
    decided in binary: [round(x, 2)] acts on the double nearest to [x],
    and [1 - (1 + i) ** (-n)] loses digits for small rates.  For a
    monthly rate below [2^-53] the sum [1 + i] is 1; the generator of
    [src/loan_core.py], which compares the rate with 0 and not with a
    threshold, then divides by zero.  The statements below are about
    what is raised, which rows exist, what adds up and what is bounded.
    Those about the generator of [src/loan_core.py] are made at the rate
    0 and from [12e-12] on, the threshold of the other generator; those
    about the present values at the technical rates from 0 on, the ones
    the application passes, where every discount factor lies in (0, 1]. *)

From Stdlib Require Import String ZArith QArith Qround Qabs Qpower List Lia.
From Stdlib Require Import Reals Psatz.
From Stdlib Require Import Qreals DecimalString.
Import ListNotations.

(** ** Exceptions and the error monad *)

Inductive exn : Type :=
| ValueError (msg : string)
| ZeroDivisionError
| OverflowError
| ComplexPower.

Inductive result (A : Type) : Type :=
| Ok (a : A)
| Err (e : exn).

Arguments Ok {A} a.
Arguments Err {A} e.

Definition bind {A B : Type} (r : result A) (k : A -> result B) : result B :=
  match r with
  | Ok a => k a
  | Err e => Err e
  end.

Notation "x <- r ;; k" := (bind r (fun x => k))
  (at level 61, r at next level, right associativity).

Definition is_ok {A : Type} (r : result A) : bool :=
  match r with Ok _ => true | Err _ => false end.

(** [range lo hi] is Python's [range(lo, hi)]. *)
Definition range (lo hi : Z) : list Z :=
  map (fun k => (lo + Z.of_nat k)%Z) (seq 0 (Z.to_nat (hi - lo))).

(** ** Exact rational arithmetic for the schedule generator *)

Module QFloat.
Open Scope Q_scope.

(** [x / y] on floats: raises on a zero divisor. *)
Definition float_div (x y : Q) : result Q :=
  if Qeq_bool y 0 then Err ZeroDivisionError else Ok (x / y).

(** The magnitudes from here on round to an infinity: the largest double
    is [2^1024 - 2^971], and half a unit in its last place is [2^970]. *)
Definition overflow_bound : Q := inject_Z (2 ^ 1024 - 2 ^ 970).

(** [x ** z] for a float base and an int exponent: zero to a negative
    power raises [ZeroDivisionError], a result out of the range of a
    double raises [OverflowError]. *)
Definition float_pow_int (x : Q) (z : Z) : result Q :=
  if Qeq_bool x 0 && (z <? 0)%Z then Err ZeroDivisionError
  else if Qle_bool overflow_bound (Qabs (Qpower x z)) then Err OverflowError
  else Ok (Qpower x z).

(** Nearest integer, ties to the even one. *)
Definition rint (x : Q) : Z :=
  let f := Qfloor x in
  match Qcompare (x - inject_Z f) (1 # 2) with
  | Lt => f
  | Gt => (f + 1)%Z
  | Eq => if Z.even f then f else (f + 1)%Z
  end.

(** [round(x, 2)], and the column-wise [df.round(2)]. *)
Definition round2 (x : Q) : Q := inject_Z (rint (x * 100)) / 100.

Fixpoint Qsum (l : list Q) : Q :=
  match l with
  | [] => 0
  | x :: t => x + Qsum t
  end.

End QFloat.

(** ** [src/ProjetActuariat/loan_core.py] *)

Module LoanCore.
Import QFloat.
Open Scope Q_scope.

(** One dictionary appended to [rows]; the columns of the data frame. *)
Record row : Type := mkRow {
  Mois : Z;
  Valeur_mensualite : Q;
  Interets : Q;
  Capital_rembourse : Q;
  CRD : Q
}.

(** What the function returns: [mensualite, df, total_interets, cout_total]. *)
Record schedule : Type := mkSchedule {
  mensualite : Q;
  df : list row;
  total_interets : Q;
  cout_total : Q
}.

(** The body of [for m in range(1, n_mois + 1)], with [crd] as loop state;
    [months] is what is left of the range. *)
Fixpoint amort_rows (mens i_m : Q) (n_mois : Z) (months : list Z) (crd : Q)
  : list row :=
  match months with
  | [] => []
  | m :: rest =>
      let interets := crd * i_m in
      let capital_remb := mens - interets in
      let crd_next := crd - capital_remb in
      let '(capital_remb, valeur_mensualite, crd_next) :=
        if (m =? n_mois)%Z
        then (crd, interets + crd, 0)
        else (capital_remb, mens, crd_next) in
      mkRow m valeur_mensualite interets capital_remb crd_next
        :: amort_rows mens i_m n_mois rest crd_next
  end.

(** [df[cols] = df[cols].round(2)] on one row. *)
Definition round_row (r : row) : row :=
  mkRow (Mois r) (round2 (Valeur_mensualite r)) (round2 (Interets r))
        (round2 (Capital_rembourse r)) (round2 (CRD r)).

(** The payment before it is rounded. *)
Definition raw_mensualite (capital : Q) (n_mois : Z) (i_m : Q) : result Q :=
  if Qlt_le_dec (Qabs i_m) 1e-12
  then float_div capital (inject_Z n_mois)
  else
    p <- float_pow_int (1 + i_m) (- n_mois) ;;
    d <- float_div i_m (1 - p) ;;
    Ok (capital * d).

(** The rows as the loop leaves them, before the data frame is rounded. *)
Definition rows_of (capital : Q) (n_mois : Z) (i_m mens : Q) : list row :=
  amort_rows mens i_m n_mois (range 1 (n_mois + 1)) capital.

Definition tableau_amortissement
  (capital : Q) (duree_annees : Z) (taux_annuel : Q) : result schedule :=
  let n_mois := (duree_annees * 12)%Z in
  if (n_mois <=? 0)%Z
  then Err (ValueError "La durée doit être positive.")
  else
    let i_m := taux_annuel / 12 in
    raw <- raw_mensualite capital n_mois i_m ;;
    let mens := round2 raw in
    let rows := rows_of capital n_mois i_m mens in
    let df := map round_row rows in
    let total_interets := round2 (Qsum (map Interets df)) in
    let cout_total :=
      round2 (Qsum (map Valeur_mensualite df) - capital) in
    Ok (mkSchedule mens df total_interets cout_total).

End LoanCore.

(** ** [src/loan_core.py]: the variant with a month-0 row *)

Module LoanCoreMonth0.
Import QFloat.
Open Scope Q_scope.

Record row : Type := mkRow {
  Mensualite : Z;
  Interets : Q;
  Capital_rembourse : Q;
  Valeur_mensualite : Q;
  Capital_restant_du : Q;
  Part_interets : Q
}.

Record schedule : Type := mkSchedule {
  valeur_mensualite : Q;
  df : list row;
  total_interets : Q;
  cout_total_credit : Q
}.

(** The [else] branch of the loop, for the months [1..N]; [prev] is
    [capital_restant_du[m - 1]]. *)
Fixpoint month_rows (mens taux_mensuel : Q) (months : list Z) (prev : Q)
  : result (list row) :=
  match months with
  | [] => Ok []
  | m :: rest =>
      let i := prev * taux_mensuel in
      let c := mens - i in
      let crd := prev - c in
      part <- (if Qeq_bool mens 0 then Ok 0
               else q <- float_div i mens ;; Ok (round2 (q * 100))) ;;
      tl <- month_rows mens taux_mensuel rest crd ;;
      Ok (mkRow m i c mens crd part :: tl)
  end.

Definition round_row (r : row) : row :=
  mkRow (Mensualite r) (round2 (Interets r)) (round2 (Capital_rembourse r))
        (round2 (Valeur_mensualite r)) (round2 (Capital_restant_du r))
        (Part_interets r).

Definition tableau_amortissement
  (capital : Q) (duree_annees : Z) (taux_annuel : Q) : result schedule :=
  if Qle_bool capital 0
  then Err (ValueError "Le capital doit être > 0.")
  else if (duree_annees <=? 0)%Z
  then Err (ValueError "La durée doit être > 0.")
  else if negb (Qle_bool 0 taux_annuel)
  then Err (ValueError "Le taux annuel doit être >= 0.")
  else
    let nbr_mensualites := (12 * duree_annees)%Z in
    let taux_mensuel := taux_annuel / 12 in
    mens <- (if Qeq_bool taux_mensuel 0
             then q <- float_div capital (inject_Z nbr_mensualites) ;;
                  Ok (round2 q)
             else
               p <- float_pow_int (1 + taux_mensuel) (- nbr_mensualites) ;;
               d <- float_div taux_mensuel (1 - p) ;;
               Ok (round2 (capital * d))) ;;
    tl <- month_rows mens taux_mensuel (range 1 (nbr_mensualites + 1)) capital ;;
    let df := map round_row (mkRow 0 0 0 0 capital 0 :: tl) in
    let paid := filter (fun r => (0 <? Mensualite r)%Z) df in
    let total_interets := Qsum (map Interets paid) in
    let total_rembourse := Qsum (map Valeur_mensualite paid) in
    let cout_total_credit := total_rembourse - capital in
    Ok (mkSchedule mens df (round2 total_interets) (round2 cout_total_credit)).

End LoanCoreMonth0.

(** A second evaluator for the loop of [LoanCore]: the same body, with the
    balance carried to the next month put in lowest terms.  Exact
    fractions otherwise square their denominators at every month; this
    one runs, and [amort_rows_red_eq] relates it to [LoanCore.amort_rows]. *)
Module LoanCoreRun.
Import QFloat LoanCore.
Open Scope Q_scope.

Fixpoint amort_rows_red (mens i_m : Q) (n_mois : Z) (months : list Z) (crd : Q)
  : list row :=
  match months with
  | [] => []
  | m :: rest =>
      let interets := crd * i_m in
      let capital_remb := mens - interets in
      let crd_next := crd - capital_remb in
      let '(capital_remb, valeur_mensualite, crd_next) :=
        if (m =? n_mois)%Z
        then (crd, interets + crd, 0)
        else (capital_remb, mens, crd_next) in
      mkRow m valeur_mensualite interets capital_remb crd_next
        :: amort_rows_red mens i_m n_mois rest (Qred crd_next)
  end.

(** Rows equal column by column, up to the fraction's representation. *)
Definition row_eq (r r' : row) : Prop :=
  Mois r = Mois r' /\
  Valeur_mensualite r == Valeur_mensualite r' /\
  Interets r == Interets r' /\
  Capital_rembourse r == Capital_rembourse r' /\
  CRD r == CRD r'.

(** The rounded payment, in cents. *)
Definition payment_cents (capital : Q) (duree_annees : Z) (taux_annuel : Q)
  : option Z :=
  match raw_mensualite capital (duree_annees * 12) (taux_annuel / 12) with
  | Ok raw => Some (rint (raw * 100))
  | Err _ => None
  end.

(** The remaining-balance column of a data frame, as decimals in lowest
    terms. *)
Definition crd_column (capital : Q) (duree_annees : Z) (taux_annuel : Q)
  : result (list Q) :=
  let n_mois := (duree_annees * 12)%Z in
  let i_m := taux_annuel / 12 in
  raw <- raw_mensualite capital n_mois i_m ;;
  Ok (map (fun r => Qred (round2 (CRD r)))
        (amort_rows_red (Qred (round2 raw)) i_m n_mois
           (range 1 (n_mois + 1)) capital)).

End LoanCoreRun.

(** ** [src/ProjetActuariat/app.py]: mortality conversion and present values *)

Module App.
Open Scope R_scope.

(** [math.log]: a [ValueError] outside the positive numbers. *)
Definition math_log (x : R) : result R :=
  if Rlt_dec 0 x then Ok (ln x) else Err (ValueError "math domain error").

(** The magnitudes from here on round to an infinity, as in [QFloat]. *)
Definition overflow_bound : R := IZR (2 ^ 1024 - 2 ^ 970).

(** A power that left the range of a double raises [OverflowError]. *)
Definition in_range (r : R) : result R :=
  if Rle_dec overflow_bound (Rabs r) then Err OverflowError else Ok r.

(** [x ** y] on floats.  Zero to a negative power raises, and so does a
    result out of range.  A negative base with a fractional exponent
    leaves the floats: CPython answers with a complex number and the
    sum goes on in the complex numbers, which the embedding does not
    follow; it stops there with [ComplexPower], which is no exception of
    the program.  No statement below reaches that case. *)
Definition float_pow (x y : R) : result R :=
  if Rlt_dec 0 x then in_range (Rpower x y)
  else if Req_dec_T x 0 then
    if Rlt_dec y 0 then Err ZeroDivisionError
    else if Req_dec_T y 0 then Ok 1 else Ok 0
  else if Req_dec_T (frac_part y) 0 then in_range (powerRZ x (Int_part y))
  else Err ComplexPower.

Fixpoint Rsum (l : list R) : R :=
  match l with
  | [] => 0
  | x :: t => x + Rsum t
  end.

(** The twelve values appended by [for m in range(1, 13)] in
    [monthly_death_probs_from_annual_q]. *)
Definition year_death_probs (surv_to_year_start mu : R) : list R :=
  map (fun m =>
         let p_month_cond :=
           exp (- mu * (IZR m - 1) / 12) - exp (- mu * IZR m / 12) in
         surv_to_year_start * p_month_cond)
      (range 1 13).

(** [for q in q_by_year], with [surv_to_year_start] as loop state. *)
Fixpoint death_loop (q_by_year : list R) (surv_to_year_start : R)
  : result (list R) :=
  match q_by_year with
  | [] => Ok []
  | q :: rest =>
      l <- math_log (Rmax 1e-15 (1 - q)) ;;
      let mu := - l in
      probs <- death_loop rest (surv_to_year_start * (1 - q)) ;;
      Ok (year_death_probs surv_to_year_start mu ++ probs)
  end.

Definition monthly_death_probs_from_annual_q (q_by_year : list R)
  : result (list R) :=
  death_loop q_by_year 1.

(** The twelve values appended by [for j in range(1, 13)] in
    [monthly_survival_to_month_start_from_annual_q]. *)
Definition year_survivals (surv_to_year_start mu : R) : list R :=
  map (fun j => surv_to_year_start * exp (- mu * ((IZR j - 1) / 12)))
      (range 1 13).

Fixpoint survival_loop (q_by_year : list R) (surv_to_year_start : R)
  : result (list R) :=
  match q_by_year with
  | [] => Ok []
  | q :: rest =>
      l <- math_log (Rmax 1e-15 (1 - q)) ;;
      let mu := - l in
      surv_list <- survival_loop rest (surv_to_year_start * (1 - q)) ;;
      Ok (year_survivals surv_to_year_start mu ++ surv_list)
  end.

Definition monthly_survival_to_month_start_from_annual_q (q_by_year : list R)
  : result (list R) :=
  survival_loop q_by_year 1.

(** [for m, (crd_m, p_death_m) in enumerate(zip(...), start=1)], with the
    running total [U] as loop state. *)
Fixpoint premium_loop (i_annual : R) (pairs : list (R * R)) (m : Z) (U : R)
  : result R :=
  match pairs with
  | [] => Ok U
  | (crd_m, p_death_m) :: rest =>
      disc <- float_pow (1 + i_annual) (- IZR m / 12) ;;
      premium_loop i_annual rest (m + 1) (U + disc * p_death_m * crd_m)
  end.

Definition single_premium_monthly
  (crd_end_of_month death_probs_monthly : list R) (i_annual : R) : result R :=
  if Nat.eqb (length crd_end_of_month) (length death_probs_monthly)
  then premium_loop i_annual
         (combine crd_end_of_month death_probs_monthly) 1 0
  else Err (ValueError
    "Dimensions incohérentes: CRD mensuel vs probas décès mensuelles.").

(** [for idx, s_start in enumerate(survival_to_month_start)]. *)
Fixpoint annuity_loop (i_annual : R) (survs : list R) (idx : Z) (pv : R)
  : result R :=
  match survs with
  | [] => Ok pv
  | s_start :: rest =>
      let m := idx in
      disc <- float_pow (1 + i_annual) (- IZR m / 12) ;;
      annuity_loop i_annual rest (idx + 1) (pv + disc * s_start)
  end.

Definition pv_monthly_premiums_due
  (survival_to_month_start : list R) (i_annual : R) : result R :=
  annuity_loop i_annual survival_to_month_start 0 0.

(** *** The formulas of the specification, for comparison *)

(** The sum of [f m] for [m = lo, lo + 1, ..., lo + n - 1]. *)
Definition sigma (lo n : nat) (f : nat -> R) : R :=
  Rsum (map f (seq lo n)).

(** The single premium as specified:
    the sum over m = 1..N of (1+i)^(-m/12) * deathProb[m] * balance[m]. *)
Definition spec_single_premium (balance deathProb : list R) (i : R) : R :=
  sigma 1 (length balance)
    (fun m => Rpower (1 + i) (- INR m / 12)
              * nth (m - 1) deathProb 0 * nth (m - 1) balance 0).

(** The annuity-due value as specified:
    the sum over idx = 0..N-1 of (1+i)^(-idx/12) * survivalToStart[idx]. *)
Definition spec_annuity_due (survivalToStart : list R) (i : R) : R :=
  sigma 0 (length survivalToStart)
    (fun idx => Rpower (1 + i) (- INR idx / 12) * nth idx survivalToStart 0).

(** Survival to the start of policy year [k] when the first year starts
    with [S0]: [S0] times the product of [1 - q] over the years before
    [k]. *)
Definition spec_year_start_from (S0 : R) (qs : list R) (k : nat) : R :=
  fold_left (fun s q => s * (1 - q)) (firstn k qs) S0.

Definition spec_year_start (qs : list R) (k : nat) : R :=
  spec_year_start_from 1 qs k.

(** The force of mortality of a year, with the clamp. *)
Definition spec_mu (q : R) : R := - ln (Rmax 1e-15 (1 - q)).

(** The death probability of month [m] (1..12) of a year that starts with
    survival [S]. *)
Definition spec_death_prob (S q : R) (m : nat) : R :=
  S * (exp (- spec_mu q * (INR m - 1) / 12) - exp (- spec_mu q * INR m / 12)).

(** The survival to the start of month [j] (1..12) of such a year. *)
Definition spec_survival (S q : R) (j : nat) : R :=
  S * exp (- spec_mu q * (INR j - 1) / 12).

(** The yearly blocks of twelve months, concatenated in the order of the
    years. *)
Definition spec_monthly_from (f : R -> R -> nat -> R) (S0 : R) (qs : list R)
  : list R :=
  flat_map
    (fun k => map (f (spec_year_start_from S0 qs k) (nth k qs 0)) (seq 1 12))
    (seq 0 (length qs)).

Definition spec_monthly (f : R -> R -> nat -> R) (qs : list R) : list R :=
  spec_monthly_from f 1 qs.

(** Each element is at most the one before it. *)
Fixpoint non_increasing (l : list R) : Prop :=
  match l with
  | [] => True
  | a :: t =>
      match t with
      | [] => True
      | b :: _ => b <= a /\ non_increasing t
      end
  end.

End App.

(** ** Vocabulary of the statements about schedules *)

Module LoanSpec.
Import QFloat LoanCore.
Open Scope Q_scope.

(** Each element is at most the one before it. *)
Fixpoint non_increasing (l : list Q) : Prop :=
  match l with
  | [] => True
  | a :: t =>
      match t with
      | [] => True
      | b :: _ => b <= a /\ non_increasing t
      end
  end.

(** The row of the last month when [balance] is still due before it: the
    whole balance is repaid, the payment is the interest plus that
    balance, and nothing remains. *)
Definition settled (i_m : Q) (n_mois : Z) (balance : Q) (r : row) : Prop :=
  Mois r = n_mois /\
  Interets r = balance * i_m /\
  Capital_rembourse r = balance /\
  Valeur_mensualite r = Interets r + balance /\
  CRD r = 0.

(** The balance due before the last month: the balance left by the row
    before the last one, the capital itself if there is none. *)
Definition balance_before_last (capital : Q) (rows : list row) : Q :=
  last (map CRD (removelast rows)) capital.

(** [x] to the power [k], and the geometric sum [1 + x + ... + x^(k-1)]. *)
Fixpoint pw (x : Q) (k : nat) : Q :=
  match k with
  | O => 1
  | S k' => x * pw x k'
  end.

Fixpoint geo (x : Q) (k : nat) : Q :=
  match k with
  | O => 0
  | S k' => pw x k' + geo x k'
  end.

(** What is still due after [n_mois - 1] payments of [mens]: the capital
    with [n_mois - 1] months of interest, less the payments with the
    interest they saved.  At rate 0 this is
    [capital - (n_mois - 1) * mens].  It is negative when the rounded
    payment has repaid more than the capital one month early. *)
Definition due_before_last (capital : Q) (n_mois : Z) (i_m mens : Q) : Q :=
  let k := Z.to_nat (n_mois - 1) in
  capital * pw (1 + i_m) k - mens * geo (1 + i_m) k.

(** The capital covers the rounding of the payment, a condition on the
    inputs alone.  With [x = 1 + i_m] and [N = n_mois], the payment
    before rounding is [capital * x^N / geo x N]; its principal part in
    the first month, [capital / geo x N], is at least a cent, and what
    it leaves due before the last month, [capital * x^(N-1) / geo x N],
    is at least a cent for each of the [geo x (N-1)] payments made.  At
    rate 0 this reads [0.01 * N <= capital] and
    [0.01 * N * (N - 1) <= capital]. *)
Definition covers_rounding (capital : Q) (n_mois : Z) (i_m : Q) : Prop :=
  let x := 1 + i_m in
  let k := Z.to_nat (n_mois - 1) in
  (1 # 100) * geo x (S k) <= capital /\
  (1 # 100) * (geo x k * geo x (S k)) <= capital * pw x k.

End LoanSpec.

(** ** [src/ProjetActuariat/app.py]: the mortality table and the
       computation behind the button *)

Module AppTable.
Open Scope Q_scope.

(** A Python [dict] from ages to rates: the keys in insertion order, each
    key once. *)
Definition dict : Type := list (Z * Q).

(** [d[k] = v]. *)
Fixpoint dict_set (d : dict) (k : Z) (v : Q) : dict :=
  match d with
  | [] => [(k, v)]
  | (k', v') :: t =>
      if (k' =? k)%Z then (k, v) :: t else (k', v') :: dict_set t k v
  end.

(** [d.get(k)]. *)
Fixpoint dict_get (d : dict) (k : Z) : option Q :=
  match d with
  | [] => None
  | (k', v) :: t => if (k' =? k)%Z then Some v else dict_get t k
  end.

(** [k in d]. *)
Definition dict_mem (d : dict) (k : Z) : bool :=
  match dict_get d k with Some _ => true | None => false end.

(** [dict(zip(keys, vals))]. *)
Definition dict_of_zip (keys : list Z) (vals : list Q) : dict :=
  fold_left (fun d kv => dict_set d (fst kv) (snd kv)) (combine keys vals) [].

(** The largest element, if there is one. *)
Definition list_max (l : list Z) : option Z :=
  match l with
  | [] => None
  | x :: t => Some (fold_left Z.max t x)
  end.

(** [str(n)] for an int. *)
Definition str_int (n : Z) : string := NilZero.string_of_int (Z.to_int n).

Definition newline : string := String (Ascii.ascii_of_nat 10) EmptyString.

Definition Qltb (x y : Q) : bool := negb (Qle_bool y x).

(** [load_qx_from_tabledeces] from the statement [omega = int(df["Age"].max())]
    on (lines 48-63).  [df] is the frame at that point, one pair (Age, qx)
    per row: the rows that [dropna] has left, with the ages cast to int.
    [frame_repr] is how pandas prints the offending rows inside the
    messages. *)
Definition load_qx_from_tabledeces
  (frame_repr : list (Z * Q) -> string) (df : list (Z * Q))
  : result (dict * Z) :=
  match list_max (map fst df) with
  | None => Err (ValueError "cannot convert float NaN to integer")
  | Some omega =>
      if existsb (fun r => Qltb (snd r) 0) df then
        let bad := firstn 10 (filter (fun r => Qltb (snd r) 0) df) in
        Err (ValueError
               ("Table décès: qx < 0. Exemples:" ++ newline ++ frame_repr bad))
      else if existsb (fun r => Qltb 1 (snd r)) df then
        let bad := firstn 10 (filter (fun r => Qltb 1 (snd r)) df) in
        Err (ValueError
               ("Table décès: qx > 1. Exemples:" ++ newline ++ frame_repr bad))
      else
        let bad_eq1 :=
          filter (fun r => Qeq_bool (snd r) 1 && negb (fst r =? omega)%Z) df in
        match bad_eq1 with
        | _ :: _ =>
            let bad := firstn 10 bad_eq1 in
            Err (ValueError
                   ("Table décès: qx=1 autorisé uniquement à l'âge terminal ("
                    ++ str_int omega ++ "). Exemples:" ++ newline
                    ++ frame_repr bad))
        | [] => Ok (dict_of_zip (map fst df) (map snd df), omega)
        end
  end.

(** The rate of the last row of the frame whose age is [a]. *)
Definition last_rate (df : list (Z * Q)) (a : Z) : option Q :=
  fold_left (fun acc r => if (fst r =? a)%Z then Some (snd r) else acc)
            df None.

End AppTable.

Module AppCalcul.
Import AppTable.

(** The exceptions of the computation: those of the functions it calls,
    and the [KeyError] of a failed [qx_map[a]]. *)
Inductive app_exn : Type :=
| Raised (e : exn)
| KeyError (key : Z).

Inductive app_result (A : Type) : Type :=
| AOk (a : A)
| AErr (e : app_exn).

Arguments AOk {A} a.
Arguments AErr {A} e.

Definition abind {A B : Type} (r : app_result A) (k : A -> app_result B)
  : app_result B :=
  match r with
  | AOk a => k a
  | AErr e => AErr e
  end.

Definition lift {A : Type} (r : result A) : app_result A :=
  match r with
  | Ok a => AOk a
  | Err e => AErr (Raised e)
  end.

(** [max(l)] on a list of ints. *)
Definition py_max (l : list Z) : result Z :=
  match list_max l with
  | None => Err (ValueError "max() arg is an empty sequence")
  | Some m => Ok m
  end.

(** [str(l)] for a list of ints. *)
Definition str_list (l : list Z) : string :=
  ("[" ++ String.concat ", " (map str_int l) ++ "]")%string.

(** [[float(qx_map[a]) for a in ages]]. *)
Fixpoint lookup_all (qx_map : dict) (ages : list Z) : app_result (list Q) :=
  match ages with
  | [] => AOk []
  | a :: rest =>
      match dict_get qx_map a with
      | None => AErr (KeyError a)
      | Some q => abind (lookup_all qx_map rest) (fun tl => AOk (q :: tl))
      end
  end.

(** The annual rates used (lines 168-176): the ages x .. x + n - 1, the
    two checks, the lookups. *)
Definition q_by_year_of (qx_map : dict) (omega age_x n_years : Z)
  : app_result (list Q) :=
  let ages := range age_x (age_x + n_years) in
  abind (lift (py_max ages)) (fun max_ages =>
  if (omega <? max_ages)%Z then
    AErr (Raised (ValueError
      ("Durée trop longue: table dispo jusqu'à " ++ str_int omega
       ++ ", mais tu demandes " ++ str_int max_ages ++ ".")))
  else
    let missing := filter (fun a => negb (dict_mem qx_map a)) ages in
    match missing with
    | _ :: _ =>
        AErr (Raised (ValueError
          ("Âges manquants dans la table décès: "
           ++ str_list (firstn 10 missing) ++ " (et peut-être plus).")))
    | [] => lookup_all qx_map ages
    end).

(** What the computation leaves for display. *)
Record outcome : Type := mkOutcome {
  mensualite : Q;
  df : list LoanCore.row;
  total_int : Q;
  cout_total : Q;
  U : R;
  pv_prem_1e : R;
  P : option R
}.

(** [P = U / pv_prem_1e if pv_prem_1e > 0 else float("nan")]; [None] is
    the not-a-number. *)
Definition level_premium (U pv_prem_1e : R) : option R :=
  if Rlt_dec 0 pv_prem_1e then Some (U / pv_prem_1e)%R else None.

(** The body of [if calculer: try: ...] up to the level premium (lines
    144-192), without the display calls.  [table] is the frame of the
    mortality table as [AppTable.load_qx_from_tabledeces] receives it;
    the other arguments are the values of the five input widgets. *)
Definition calculer
  (frame_repr : list (Z * Q) -> string) (table : list (Z * Q))
  (capital : Q) (duree : Z) (taux : Q) (age_x : Z) (taux_ass : Q)
  : app_result outcome :=
  abind (lift (load_qx_from_tabledeces frame_repr table)) (fun loaded =>
  let qx_map := fst loaded in
  let omega := snd loaded in
  abind (lift (LoanCore.tableau_amortissement capital duree (taux / 100)))
    (fun s =>
  let n_years := duree in
  let n_months := (12 * n_years)%Z in
  abind (q_by_year_of qx_map omega age_x n_years) (fun q_by_year =>
  let qs := map Q2R q_by_year in
  abind (lift (App.monthly_death_probs_from_annual_q qs))
    (fun death_probs_monthly =>
  abind (lift (App.monthly_survival_to_month_start_from_annual_q qs))
    (fun survival_to_month_start =>
  let crd_end_of_month :=
    map Q2R (firstn (Z.to_nat n_months) (map LoanCore.CRD (LoanCore.df s))) in
  let i_ass := Q2R (taux_ass / 100) in
  abind (lift (App.single_premium_monthly crd_end_of_month
                 death_probs_monthly i_ass)) (fun U =>
  abind (lift (App.pv_monthly_premiums_due survival_to_month_start i_ass))
    (fun pv_prem_1e =>
  AOk (mkOutcome (LoanCore.mensualite s) (LoanCore.df s)
         (LoanCore.total_interets s) (LoanCore.cout_total s)
         U pv_prem_1e (level_premium U pv_prem_1e))))))))).

End AppCalcul.

(** ** Vocabulary of the statements about the ledger of a schedule *)

Module Ledger.
Import QFloat LoanCore.
Open Scope Q_scope.

(** The balance due when month [k + 1] begins: the capital for the first
    month, the balance left by row [k - 1] afterwards. *)
Definition balance_before (capital : Q) (rows : list row) (k : nat) : Q :=
  nth k (capital :: map CRD rows) 0.

(** The accounting identities of one row, given the balance due before
    it. *)
Definition booked (i_m : Q) (before : Q) (r : row) : Prop :=
  Interets r = before * i_m /\
  Valeur_mensualite r == Interets r + Capital_rembourse r /\
  CRD r == before - Capital_rembourse r.

End Ledger.

(** * Properties *)

(** ** Decimal rounding *)

Section Rounding.
Import QFloat.
Open Scope Q_scope.

Lemma rint_comp (x y : Q) : x == y -> rint x = rint y.
Proof.
  intros E. unfold rint.
  rewrite (Qfloor_comp _ _ E).
  assert (C : Qcompare (x - inject_Z (Qfloor y)) (1 # 2)
              = Qcompare (y - inject_Z (Qfloor y)) (1 # 2)).
  { apply Qcompare_comp; [rewrite E|]; reflexivity. }
  now rewrite C.
Qed.

Lemma floor_frac (x : Q) :
  0 <= x - inject_Z (Qfloor x) /\ x - inject_Z (Qfloor x) < 1.
Proof.
  pose proof (Qfloor_le x) as L. pose proof (Qlt_floor x) as U.
  rewrite inject_Z_plus in U. change (inject_Z 1) with 1 in U.
  split; lra.
Qed.

Lemma rint_near (x : Q) :
  inject_Z (rint x) - x <= 1 # 2 /\ x - inject_Z (rint x) <= 1 # 2.
Proof.
  destruct (floor_frac x) as [L U]. unfold rint.
  destruct (Qcompare_spec (x - inject_Z (Qfloor x)) (1 # 2)) as [E|E|E].
  - destruct (Z.even (Qfloor x)).
    + split; lra.
    + rewrite inject_Z_plus. change (inject_Z 1) with 1. split; lra.
  - split; lra.
  - rewrite inject_Z_plus. change (inject_Z 1) with 1. split; lra.
Qed.

Lemma inject_Z_lt_gap (a b : Z) : inject_Z a < inject_Z b + 1 -> (a <= b)%Z.
Proof.
  intros H. change 1 with (inject_Z 1) in H. rewrite <- inject_Z_plus in H.
  rewrite <- Zlt_Qlt in H. lia.
Qed.

Lemma rint_inject_Z (z : Z) : rint (inject_Z z) = z.
Proof.
  unfold rint. rewrite Qfloor_Z.
  destruct (Qcompare_spec (inject_Z z - inject_Z z) (1 # 2)) as [E|E|E].
  - exfalso. lra.
  - reflexivity.
  - exfalso. lra.
Qed.

Lemma rint_mono (x y : Q) : x <= y -> (rint x <= rint y)%Z.
Proof.
  intros H.
  destruct (Qlt_le_dec (inject_Z (Qfloor x) + 1) y) as [Far|Close].
  - (* y is beyond the next integer: the floors already differ *)
    assert (F : (Qfloor x + 1 <= Qfloor y)%Z).
    { rewrite <- (Qfloor_Z (Qfloor x + 1)). apply Qfloor_resp_le.
      rewrite inject_Z_plus. change (inject_Z 1) with 1. lra. }
    assert (Lx : (rint x <= Qfloor x + 1)%Z).
    { unfold rint. destruct (Qcompare _ _); [destruct (Z.even _)| |]; lia. }
    assert (Ly : (Qfloor y <= rint y)%Z).
    { unfold rint. destruct (Qcompare _ _); [destruct (Z.even _)| |]; lia. }
    lia.
  - assert (F : (Qfloor x <= Qfloor y)%Z) by now apply Qfloor_resp_le.
    destruct (floor_frac x) as [Lx Ux]. destruct (floor_frac y) as [Ly Uy].
    assert (G : (Qfloor y <= Qfloor x + 1)%Z).
    { apply inject_Z_lt_gap. rewrite inject_Z_plus.
      change (inject_Z 1) with 1. lra. }
    assert (D : Qfloor y = Qfloor x \/ Qfloor y = (Qfloor x + 1)%Z) by lia.
    destruct D as [D|D].
    + unfold rint. rewrite D in *.
      destruct (Qcompare_spec (x - inject_Z (Qfloor x)) (1 # 2)) as [E|E|E];
      destruct (Qcompare_spec (y - inject_Z (Qfloor x)) (1 # 2)) as [E'|E'|E'];
      try (destruct (Z.even (Qfloor x))); try lia; exfalso; lra.
    + assert (Y : y == inject_Z (Qfloor x) + 1).
      { rewrite D, inject_Z_plus in Ly. change (inject_Z 1) with 1 in Ly. lra. }
      assert (R : rint y = (Qfloor x + 1)%Z).
      { rewrite (rint_comp y (inject_Z (Qfloor x + 1))).
        - apply rint_inject_Z.
        - rewrite inject_Z_plus. exact Y. }
      rewrite R. unfold rint.
      destruct (Qcompare _ _); [destruct (Z.even _)| |]; lia.
Qed.

Lemma round2_comp (x y : Q) : x == y -> round2 x == round2 y.
Proof.
  intros E. unfold round2.
  rewrite (rint_comp (x * 100) (y * 100)); [reflexivity|].
  now rewrite E.
Qed.

Lemma round2_cents (x : Q) : round2 x * 100 == inject_Z (rint (x * 100)).
Proof. unfold round2. field. Qed.

Lemma round2_near (x : Q) :
  round2 x - x <= 1 # 200 /\ x - round2 x <= 1 # 200.
Proof.
  destruct (rint_near (x * 100)) as [A B].
  pose proof (round2_cents x) as C.
  split; lra.
Qed.

Lemma round2_mono (x y : Q) : x <= y -> round2 x <= round2 y.
Proof.
  intros H.
  assert (M : (rint (x * 100) <= rint (y * 100))%Z) by (apply rint_mono; lra).
  rewrite Zle_Qle in M.
  pose proof (round2_cents x) as Cx. pose proof (round2_cents y) as Cy.
  lra.
Qed.

Lemma round2_idem (x : Q) : round2 (round2 x) == round2 x.
Proof.
  unfold round2 at 1.
  rewrite (rint_comp (round2 x * 100) (inject_Z (rint (x * 100)))).
  - rewrite rint_inject_Z. reflexivity.
  - apply round2_cents.
Qed.

Lemma round2_0 : round2 0 == 0.
Proof. reflexivity. Qed.

Lemma round2_nonneg (x : Q) : 0 <= x -> 0 <= round2 x.
Proof.
  intros H. apply round2_mono in H. rewrite round2_0 in H. exact H.
Qed.

End Rounding.

(** ** Python ranges *)

Section Range.

Lemma range_nil (lo hi : Z) : (hi <= lo)%Z -> range lo hi = [].
Proof.
  intros H. unfold range.
  replace (Z.to_nat (hi - lo)) with 0%nat by lia. reflexivity.
Qed.

Lemma range_cons (lo hi : Z) :
  (lo < hi)%Z -> range lo hi = lo :: range (lo + 1) hi.
Proof.
  intros H. unfold range.
  replace (Z.to_nat (hi - lo)) with (S (Z.to_nat (hi - (lo + 1)))) by lia.
  cbn [seq map]. f_equal; [lia|].
  rewrite <- seq_shift, map_map. apply map_ext. intros k. lia.
Qed.

Lemma range_length (lo hi : Z) : length (range lo hi) = Z.to_nat (hi - lo).
Proof. unfold range. now rewrite length_map, length_seq. Qed.

Lemma range_snoc (lo hi : Z) :
  (lo <= hi)%Z -> range lo (hi + 1) = range lo hi ++ [hi].
Proof.
  intros H. remember (Z.to_nat (hi - lo)) as k eqn:K.
  revert lo H K. induction k as [|k IH]; intros lo H K.
  - assert (lo = hi) by lia. subst lo.
    rewrite (range_cons hi (hi + 1)) by lia.
    rewrite !range_nil by lia. reflexivity.
  - rewrite (range_cons lo (hi + 1)) by lia.
    rewrite (range_cons lo hi) by lia.
    rewrite IH by lia. reflexivity.
Qed.

Lemma range_In (lo hi m : Z) : In m (range lo hi) -> (lo <= m < hi)%Z.
Proof.
  unfold range. rewrite in_map_iff. intros (k & <- & I).
  apply in_seq in I. lia.
Qed.

End Range.

(** ** The loop of [LoanCore.tableau_amortissement] *)

Section Amortisation.
Import QFloat LoanCore LoanSpec.
Open Scope Q_scope.

Variables (mens i_m : Q) (N : Z).

Local Abbreviation loop := (amort_rows mens i_m N).

Lemma last_cons_default {A : Type} (a d : A) (l : list A) :
  last (a :: l) d = last l a.
Proof.
  revert a d. induction l as [|b l IH]; intros a d; [reflexivity|].
  change (last (a :: b :: l) d) with (last (b :: l) d).
  now rewrite !IH.
Qed.

Lemma amort_rows_length (months : list Z) (crd : Q) :
  length (loop months crd) = length months.
Proof.
  revert crd. induction months as [|m rest IH]; intros crd; [reflexivity|].
  cbn [amort_rows]. destruct (m =? N)%Z; cbn [length]; now rewrite IH.
Qed.

Lemma amort_rows_app (months1 months2 : list Z) (crd : Q) :
  loop (months1 ++ months2) crd
  = loop months1 crd
    ++ loop months2 (last (map CRD (loop months1 crd)) crd).
Proof.
  revert crd. induction months1 as [|m rest IH]; intros crd; [reflexivity|].
  cbn [amort_rows app].
  destruct (m =? N)%Z; cbn [map CRD app]; rewrite last_cons_default;
    now rewrite IH.
Qed.

Lemma amort_rows_final (crd : Q) : exists r, loop [N] crd = [r] /\ settled i_m N crd r.
Proof.
  cbn [amort_rows]. rewrite Z.eqb_refl.
  eexists. split; [reflexivity|]. repeat split.
Qed.

Lemma body_payment (months : list Z) (crd : Q) :
  ~ In N months ->
  Forall (fun r => Valeur_mensualite r = mens) (loop months crd).
Proof.
  revert crd. induction months as [|m rest IH]; intros crd NI; [constructor|].
  cbn [amort_rows].
  destruct (Z.eqb_spec m N) as [E|E]; [exfalso; apply NI; now left|].
  constructor; [reflexivity|]. apply IH. intros I. apply NI. now right.
Qed.

Lemma body_sum (months : list Z) (crd : Q) :
  ~ In N months ->
  Qsum (map Capital_rembourse (loop months crd))
  == crd - last (map CRD (loop months crd)) crd.
Proof.
  revert crd. induction months as [|m rest IH]; intros crd NI.
  - cbn. ring.
  - cbn [amort_rows].
    destruct (Z.eqb_spec m N) as [E|E]; [exfalso; apply NI; now left|].
    cbn [map Qsum Capital_rembourse CRD]. rewrite last_cons_default.
    rewrite IH by (intros I; apply NI; now right). ring.
Qed.

Lemma body_monotone (capital : Q) (months : list Z) (crd : Q) :
  ~ In N months -> 0 <= i_m -> capital * i_m <= mens -> crd <= capital ->
  non_increasing (crd :: map CRD (loop months crd)).
Proof.
  intros NI Hi Hm. revert crd NI.
  induction months as [|m rest IH]; intros crd NI Hc; [exact I|].
  cbn [amort_rows].
  destruct (Z.eqb_spec m N) as [E|E]; [exfalso; apply NI; now left|].
  cbn [map CRD].
  assert (D : crd - (mens - crd * i_m) <= crd).
  { assert (crd * i_m <= capital * i_m) by (apply Qmult_le_compat_r; assumption).
    lra. }
  split; [exact D|].
  apply IH; [intros In'; apply NI; now right | lra].
Qed.

(** The balance after the months before the last, in closed form. *)
Lemma body_closed_form (months : list Z) (crd : Q) :
  ~ In N months ->
  last (map CRD (loop months crd)) crd
  == crd * pw (1 + i_m) (length months) - mens * geo (1 + i_m) (length months).
Proof.
  revert crd. induction months as [|m rest IH]; intros crd NI.
  - cbn. ring.
  - cbn [amort_rows].
    destruct (Z.eqb_spec m N) as [E|E]; [exfalso; apply NI; now left|].
    cbn [map CRD]. rewrite last_cons_default.
    rewrite IH by (intros I; apply NI; now right).
    cbn [length pw geo]. ring.
Qed.

Lemma pw_one (x : Q) (k : nat) : x == 1 -> pw x k == 1.
Proof.
  intros H. induction k as [|k IH]; cbn [pw]; [reflexivity|].
  rewrite IH, H. ring.
Qed.

Lemma geo_one (x : Q) (k : nat) : x == 1 -> geo x k == inject_Z (Z.of_nat k).
Proof.
  intros H. induction k as [|k IH]; [reflexivity|].
  cbn [geo]. rewrite IH, (pw_one x k H).
  rewrite Nat2Z.inj_succ, <- Z.add_1_r, inject_Z_plus.
  change (inject_Z 1) with 1. ring.
Qed.

Lemma pw_Qpower (x : Q) (k : nat) : ~ x == 0 -> pw x k == x ^ Z.of_nat k.
Proof.
  intros Hx. induction k as [|k IH]; [reflexivity|].
  cbn [pw]. rewrite Nat2Z.inj_succ, <- Z.add_1_l, Qpower_plus by exact Hx.
  rewrite IH. reflexivity.
Qed.

(** The geometric sum in closed form: [i * (1 + x + ... + x^(k-1))] is
    [x^k - 1] for [x = 1 + i]. *)
Lemma geo_closed (i : Q) (k : nat) : i * geo (1 + i) k == pw (1 + i) k - 1.
Proof.
  induction k as [|k IH]; cbn [geo pw]; [ring|].
  rewrite Qmult_plus_distr_r, IH. ring.
Qed.

Lemma pw_ge_1 (x : Q) (k : nat) : 1 <= x -> 1 <= pw x k.
Proof.
  intros H. induction k as [|k IH]; cbn [pw]; [lra|]. nra.
Qed.

Lemma geo_nonneg (x : Q) (k : nat) : 1 <= x -> 0 <= geo x k.
Proof.
  intros H. induction k as [|k IH]; cbn [geo]; [lra|].
  pose proof (pw_ge_1 x k H). lra.
Qed.

Lemma loop_interest_zero (months : list Z) (crd : Q) :
  i_m == 0 -> Forall (fun r => Interets r == 0) (loop months crd).
Proof.
  intros Z0. revert crd.
  induction months as [|m rest IH]; intros crd; [constructor|].
  cbn [amort_rows].
  destruct (m =? N)%Z; (constructor; [cbn; rewrite Z0; ring | apply IH]).
Qed.

End Amortisation.

(** ** The whole of [LoanCore.tableau_amortissement] *)

Section Schedule.
Import QFloat LoanCore LoanSpec.
Open Scope Q_scope.

Lemma Qsum_round2 (l : list Q) :
  Qsum (map round2 l) - Qsum l <= (1 # 200) * inject_Z (Z.of_nat (length l)) /\
  Qsum l - Qsum (map round2 l) <= (1 # 200) * inject_Z (Z.of_nat (length l)).
Proof.
  induction l as [|x l [IH1 IH2]].
  - cbn [map Qsum length]. change (inject_Z (Z.of_nat 0)) with 0. split; lra.
  - cbn [map Qsum length]. rewrite Nat2Z.inj_succ, <- Z.add_1_r, inject_Z_plus.
    change (inject_Z 1) with 1. destruct (round2_near x) as [A B].
    split; lra.
Qed.

Lemma Qsum_zero (l : list Q) : Forall (fun x => x == 0) l -> Qsum l == 0.
Proof.
  induction 1 as [|x l Hx _ IH]; cbn [Qsum]; [reflexivity|].
  rewrite Hx, IH. ring.
Qed.

Lemma map_round_row_col (rows : list row) (col : row -> Q) :
  (forall r, col (round_row r) = round2 (col r)) ->
  map col (map round_row rows) = map round2 (map col rows).
Proof.
  intros H. rewrite !map_map. apply map_ext. exact H.
Qed.

(** The rows are the months before the last, then the settling row. *)
Lemma rows_of_split (capital : Q) (N : Z) (i_m mens : Q) :
  (1 <= N)%Z ->
  exists fin,
    rows_of capital N i_m mens
    = amort_rows mens i_m N (range 1 N) capital ++ [fin] /\
    settled i_m N
      (last (map CRD (amort_rows mens i_m N (range 1 N) capital)) capital) fin.
Proof.
  intros H. unfold rows_of.
  rewrite range_snoc by lia. rewrite amort_rows_app.
  destruct (amort_rows_final mens i_m N
              (last (map CRD (amort_rows mens i_m N (range 1 N) capital))
                 capital)) as (fin & E & S).
  exists fin. now rewrite E.
Qed.

Lemma range_not_In (lo N : Z) : ~ In N (range lo N).
Proof. intros I. apply range_In in I. lia. Qed.

Lemma rows_of_length (capital : Q) (N : Z) (i_m mens : Q) :
  length (rows_of capital N i_m mens) = Z.to_nat N.
Proof.
  unfold rows_of. rewrite amort_rows_length, range_length. f_equal. lia.
Qed.

Lemma rows_of_sum (capital : Q) (N : Z) (i_m mens : Q) :
  (1 <= N)%Z ->
  Qsum (map Capital_rembourse (rows_of capital N i_m mens)) == capital.
Proof.
  intros H. destruct (rows_of_split capital N i_m mens H) as (fin & E & S).
  rewrite E, map_app. destruct S as (_ & _ & C & _).
  assert (A : forall l1 l2, Qsum (l1 ++ l2) == Qsum l1 + Qsum l2).
  { induction l1 as [|x l1 IH]; intros l2; cbn [app Qsum]; [ring|].
    rewrite IH. ring. }
  rewrite A, body_sum by apply range_not_In.
  cbn [map Qsum]. rewrite C. ring.
Qed.

Lemma overflow_bound_gt_1 : 1 < overflow_bound.
Proof. vm_compute. reflexivity. Qed.

(** A power within the range of a double is returned. *)
Lemma float_pow_int_in_range (x : Q) (z : Z) :
  ~ x == 0 -> Qabs (x ^ z) < overflow_bound ->
  float_pow_int x z = Ok (x ^ z).
Proof.
  intros Hx Hr. unfold float_pow_int.
  destruct (Qeq_bool x 0) eqn:B; [apply Qeq_bool_eq in B; contradiction|].
  cbn [andb].
  destruct (Qle_bool overflow_bound (Qabs (x ^ z))) eqn:O; [|reflexivity].
  apply Qle_bool_iff in O. exfalso. lra.
Qed.

(** A discount factor [(1 + i) ** (-N)] at a rate [i >= 0] lies in (0, 1]:
    nothing is raised. *)
Lemma discount_factor_range (i : Q) (N : Z) :
  0 <= i -> (0 <= N)%Z -> 0 < (1 + i) ^ (- N) /\ (1 + i) ^ (- N) <= 1.
Proof.
  intros Hi HN.
  assert (G : 1 <= (1 + i) ^ N) by (apply Qpower_1_le; [lra|exact HN]).
  rewrite Qpower_opp.
  assert (P : 0 < / (1 + i) ^ N) by (apply Qinv_lt_0_compat; lra).
  assert (M : (1 + i) ^ N * / (1 + i) ^ N == 1) by (apply Qmult_inv_r; lra).
  split; [exact P|]. nra.
Qed.

Lemma float_pow_int_discount (i : Q) (N : Z) :
  0 <= i -> (0 <= N)%Z ->
  float_pow_int (1 + i) (- N) = Ok ((1 + i) ^ (- N)).
Proof.
  intros Hi HN. apply float_pow_int_in_range; [lra|].
  destruct (discount_factor_range i N Hi HN) as [P L].
  rewrite Qabs_pos by lra.
  pose proof overflow_bound_gt_1. lra.
Qed.

(** With a positive term and a non-negative rate the payment formula
    raises nothing. *)
Lemma raw_mensualite_ok (capital : Q) (N : Z) (i_m : Q) :
  (0 < N)%Z -> 0 <= i_m ->
  exists raw, raw_mensualite capital N i_m = Ok raw.
Proof.
  intros HN Hi. unfold raw_mensualite.
  destruct (Qlt_le_dec (Qabs i_m) 1e-12) as [S|L].
  - unfold float_div.
    destruct (Qeq_bool (inject_Z N) 0) eqn:E; [|eauto].
    apply Qeq_bool_eq in E. exfalso.
    assert (0 < inject_Z N) by (change 0 with (inject_Z 0); now rewrite <- Zlt_Qlt).
    lra.
  - assert (P : 0 < i_m).
    { rewrite Qabs_pos in L by exact Hi.
      assert (0 < 1e-12) by reflexivity. lra. }
    rewrite float_pow_int_discount by (lra || lia).
    cbn [bind]. unfold float_div.
    destruct (Qeq_bool (1 - (1 + i_m) ^ (- N)) 0) eqn:E; [|cbn; eauto].
    apply Qeq_bool_eq in E. exfalso.
    assert (G : 1 < (1 + i_m) ^ N) by (apply Qpower_1_lt; [lra|exact HN]).
    rewrite Qpower_opp in E.
    assert (I : / (1 + i_m) ^ N == 1) by lra.
    assert (M : (1 + i_m) ^ N * / (1 + i_m) ^ N == 1)
      by (apply Qmult_inv_r; lra).
    rewrite I in M. lra.
Qed.

Lemma tableau_amortissement_run
  (capital : Q) (duree_annees : Z) (taux_annuel raw : Q) :
  (0 < duree_annees)%Z ->
  raw_mensualite capital (duree_annees * 12) (taux_annuel / 12) = Ok raw ->
  let rows :=
    rows_of capital (duree_annees * 12) (taux_annuel / 12) (round2 raw) in
  let table := map round_row rows in
  tableau_amortissement capital duree_annees taux_annuel
  = Ok (mkSchedule (round2 raw) table
          (round2 (Qsum (map Interets table)))
          (round2 (Qsum (map Valeur_mensualite table) - capital))).
Proof.
  intros H R. unfold tableau_amortissement.
  destruct (Z.leb_spec (duree_annees * 12) 0) as [L|L]; [lia|].
  rewrite R. reflexivity.
Qed.

Lemma tableau_amortissement_inv
  (capital : Q) (duree_annees : Z) (taux_annuel : Q) (s : schedule) :
  tableau_amortissement capital duree_annees taux_annuel = Ok s ->
  (0 < duree_annees)%Z /\
  exists raw,
    raw_mensualite capital (duree_annees * 12) (taux_annuel / 12) = Ok raw /\
    mensualite s = round2 raw /\
    df s = map round_row
             (rows_of capital (duree_annees * 12) (taux_annuel / 12)
                (round2 raw)) /\
    total_interets s = round2 (Qsum (map Interets (df s))).
Proof.
  unfold tableau_amortissement.
  destruct (Z.leb_spec (duree_annees * 12) 0) as [L|L]; [discriminate|].
  destruct (raw_mensualite _ _ _) as [raw|e]; [|discriminate].
  cbn [bind]. intros E. injection E as <-.
  split; [lia|]. exists raw. repeat split.
Qed.

(** Below the threshold the payment is the capital spread over the months. *)
Lemma raw_mensualite_small (capital : Q) (N : Z) (i_m : Q) :
  (0 < N)%Z -> Qabs i_m < 1e-12 ->
  raw_mensualite capital N i_m = Ok (capital / inject_Z N).
Proof.
  intros HN S. unfold raw_mensualite.
  destruct (Qlt_le_dec (Qabs i_m) 1e-12) as [_|L]; [|exfalso; lra].
  unfold float_div.
  destruct (Qeq_bool (inject_Z N) 0) eqn:E; [|reflexivity].
  apply Qeq_bool_eq in E. exfalso.
  assert (0 < inject_Z N) by (change 0 with (inject_Z 0); now rewrite <- Zlt_Qlt).
  lra.
Qed.

(** The remaining-balance column of a returned schedule: the rounded
    balances of the months before the last, then the rounded 0 of the
    settling row; the last balance before rounding is [due_before_last]. *)
Lemma column_shape
  (capital : Q) (duree_annees : Z) (taux_annuel : Q) (s : schedule) :
  tableau_amortissement capital duree_annees taux_annuel = Ok s ->
  let N := (duree_annees * 12)%Z in
  let i_m := taux_annuel / 12 in
  let body := amort_rows (mensualite s) i_m N (range 1 N) capital in
  map CRD (df s) = map round2 (map CRD body) ++ [round2 0] /\
  length body = Z.to_nat (N - 1) /\
  last (map CRD body) capital
  == due_before_last capital N i_m (mensualite s).
Proof.
  intros T N i_m body.
  destruct (tableau_amortissement_inv _ _ _ _ T) as (Hd & raw & R & M & D & _).
  destruct (rows_of_split capital N i_m (round2 raw)) as (fin & E & S);
    [unfold N; lia|].
  split; [|split].
  - rewrite D. fold N i_m. rewrite E, map_app, map_app. cbn [map round_row CRD].
    rewrite (map_round_row_col _ CRD) by reflexivity.
    unfold body. rewrite M.
    destruct S as (_ & _ & _ & _ & ->). reflexivity.
  - unfold body. now rewrite amort_rows_length, range_length.
  - unfold body, due_before_last. cbv zeta.
    rewrite (body_closed_form (mensualite s) i_m N (range 1 N) capital)
      by apply range_not_In.
    rewrite range_length. reflexivity.
Qed.

End Schedule.

(** ** Running the loop: the evaluator in lowest terms agrees *)

Section Evaluator.
Import QFloat LoanCore LoanSpec LoanCoreRun.
Open Scope Q_scope.

Lemma Ok_inj {A : Type} (a b : A) : Ok a = Ok b -> a = b.
Proof. congruence. Qed.

Lemma amort_rows_red_eq (i_m : Q) (N : Z) (months : list Z) :
  forall mens mens' crd crd' : Q,
    mens == mens' -> crd == crd' ->
    Forall2 row_eq (amort_rows mens i_m N months crd)
                   (amort_rows_red mens' i_m N months crd').
Proof.
  induction months as [|m rest IH]; intros mens mens' crd crd' Em Ec;
    [constructor|].
  cbn [amort_rows amort_rows_red].
  destruct (m =? N)%Z.
  - constructor.
    + unfold row_eq. cbn. rewrite Ec. repeat split; reflexivity.
    + apply IH; [exact Em | now rewrite Qred_correct].
  - constructor.
    + unfold row_eq. cbn. rewrite Ec, Em. repeat split; reflexivity.
    + apply IH; [exact Em | rewrite Qred_correct, Ec, Em; reflexivity].
Qed.

Lemma crd_column_eq
  (capital : Q) (duree_annees : Z) (taux_annuel : Q)
  (s : schedule) (col : list Q) :
  tableau_amortissement capital duree_annees taux_annuel = Ok s ->
  crd_column capital duree_annees taux_annuel = Ok col ->
  Forall2 Qeq (map CRD (df s)) col.
Proof.
  intros T C.
  destruct (tableau_amortissement_inv _ _ _ _ T) as (_ & raw & R & _ & D & _).
  unfold crd_column in C. rewrite R in C. cbn [bind] in C.
  apply Ok_inj in C. subst col.
  rewrite D. unfold rows_of.
  pose proof (amort_rows_red_eq (taux_annuel / 12) (duree_annees * 12)
                (range 1 (duree_annees * 12 + 1))
                (round2 raw) (Qred (round2 raw)) capital capital) as F.
  specialize (F ltac:(now rewrite Qred_correct) ltac:(reflexivity)).
  assert (G : forall l l', Forall2 row_eq l l' ->
                Forall2 Qeq (map CRD (map round_row l))
                            (map (fun r => Qred (round2 (CRD r))) l')).
  { induction 1 as [|r r' l l' Hr _ IH]; cbn [map]; constructor; [|exact IH].
    cbn [round_row CRD]. rewrite Qred_correct. apply round2_comp.
    now destruct Hr as (_ & _ & _ & _ & E). }
  apply G, F.
Qed.

Lemma non_increasing_compat (l l' : list Q) :
  Forall2 Qeq l l' -> non_increasing l -> non_increasing l'.
Proof.
  induction 1 as [|a a' l l' Ea F IH]; intros H; [exact I|].
  destruct F as [|b b' l l' Eb F]; [exact I|].
  cbn [non_increasing] in *. destruct H as [Hab H].
  split; [now rewrite <- Ea, <- Eb | now apply IH].
Qed.

Lemma Forall2_removelast {A B : Type} (R : A -> B -> Prop) (l : list A) (l' : list B) :
  Forall2 R l l' -> Forall2 R (removelast l) (removelast l').
Proof.
  induction 1 as [|a a' l l' Ea F IH]; [constructor|].
  destruct F as [|b b' l l' Eb F]; [constructor|].
  change (Forall2 R (a :: removelast (b :: l)) (a' :: removelast (b' :: l'))).
  constructor; [exact Ea | exact IH].
Qed.

Lemma Forall2_last (l l' : list Q) (d d' : Q) :
  Forall2 Qeq l l' -> d == d' -> last l d == last l' d'.
Proof.
  intros F. revert d d'.
  induction F as [|a a' l l' Ea F IH]; intros d d' Ed; [exact Ed|].
  rewrite !last_cons_default. now apply IH.
Qed.

Lemma map_removelast_CRD (rows : list row) :
  map CRD (removelast rows) = removelast (map CRD rows).
Proof.
  induction rows as [|r rows IH]; [reflexivity|].
  destruct rows as [|r' rows]; [reflexivity|].
  change (CRD r :: map CRD (removelast (r' :: rows))
          = CRD r :: removelast (map CRD (r' :: rows))).
  now rewrite IH.
Qed.

Lemma balance_before_last_eq (capital : Q) (rows : list row) (col : list Q) :
  Forall2 Qeq (map CRD rows) col ->
  balance_before_last capital rows == last (removelast col) capital.
Proof.
  intros F. unfold balance_before_last. rewrite map_removelast_CRD.
  apply Forall2_last; [now apply Forall2_removelast | reflexivity].
Qed.

End Evaluator.

Section ScheduleClaims.
Import QFloat LoanCore LoanSpec.
Open Scope Q_scope.

(** C1. For a positive capital, a positive whole number of years and a
    non-negative annual rate, [tableau_amortissement] returns a schedule
    of exactly [12 * duree_annees] rows.  Its last row settles the loan:
    before the display rounding its interest is the balance due before
    the last month times the monthly rate, its principal portion is that
    whole balance, its payment is interest plus balance and its remaining
    balance is the constant 0; the data frame holds that row rounded, so
    the displayed final balance is 0.  The principal portions of the rows
    add up to the capital exactly, and the displayed (rounded) ones to
    the capital within 0.01 per row. *)
Theorem C1_schedule_settles
  (capital : Q) (duree_annees : Z) (taux_annuel : Q) :
  0 < capital -> (0 < duree_annees)%Z -> 0 <= taux_annuel ->
  let n_mois := (duree_annees * 12)%Z in
  let i_m := taux_annuel / 12 in
  exists (s : schedule) (rows : list row) (fin : row),
    tableau_amortissement capital duree_annees taux_annuel = Ok s /\
    rows = rows_of capital n_mois i_m (mensualite s) /\
    df s = map round_row rows /\
    length (df s) = Z.to_nat (12 * duree_annees) /\
    rows = removelast rows ++ [fin] /\
    settled i_m n_mois (balance_before_last capital rows) fin /\
    df s = removelast (df s) ++ [round_row fin] /\
    CRD (round_row fin) == 0 /\
    Valeur_mensualite (round_row fin)
    = round2 (balance_before_last capital rows * i_m
              + balance_before_last capital rows) /\
    Qsum (map Capital_rembourse rows) == capital /\
    Qabs (Qsum (map Capital_rembourse (df s)) - capital)
    <= (1 # 100) * inject_Z (12 * duree_annees).
Proof.
  intros Hc Hd Ht n_mois i_m.
  assert (Hi : 0 <= i_m) by (unfold i_m; apply Qle_shift_div_l; [reflexivity|lra]).
  destruct (raw_mensualite_ok capital n_mois i_m) as [raw R];
    [unfold n_mois; lia | exact Hi |].
  pose proof (tableau_amortissement_run capital duree_annees taux_annuel raw
                Hd R) as T.
  cbv zeta in T. fold n_mois i_m in T.
  destruct (rows_of_split capital n_mois i_m (round2 raw)) as (fin & E & S);
    [unfold n_mois; lia|].
  set (rows := rows_of capital n_mois i_m (round2 raw)) in *.
  set (body := amort_rows (round2 raw) i_m n_mois (range 1 n_mois) capital) in *.
  assert (RL : removelast rows = body) by (rewrite E; apply removelast_last).
  assert (BB : balance_before_last capital rows = last (map CRD body) capital)
    by (unfold balance_before_last; now rewrite RL).
  assert (Len : length rows = Z.to_nat (12 * duree_annees)).
  { unfold rows. rewrite rows_of_length. unfold n_mois. f_equal. lia. }
  assert (Sum : Qsum (map Capital_rembourse rows) == capital)
    by (apply rows_of_sum; unfold n_mois; lia).
  eexists; exists rows, fin. split; [exact T|].
  cbn [mensualite df].
  split; [reflexivity|]. split; [reflexivity|].
  split; [now rewrite length_map|].
  split; [rewrite RL; exact E|].
  split; [rewrite BB; exact S|].
  split.
  { rewrite E at 1. rewrite map_app. cbn [map].
    rewrite E, map_app. cbn [map]. now rewrite removelast_last. }
  split.
  { cbn [round_row CRD]. destruct S as (_ & _ & _ & _ & ->). apply round2_0. }
  split.
  { cbn [round_row Valeur_mensualite]. rewrite BB.
    destruct S as (_ & I & _ & V & _). now rewrite V, I. }
  split; [exact Sum|].
  rewrite (map_round_row_col rows Capital_rembourse) by reflexivity.
  destruct (Qsum_round2 (map Capital_rembourse rows)) as [A B].
  rewrite length_map, Len in A, B.
  rewrite Z2Nat.id in A, B by lia.
  apply Qabs_Qle_condition. split; lra.
Qed.

(** A run of C1: 1200 borrowed over one year at 3.5 % a year. *)
Lemma C1_schedule_settles_witness :
  exists (s : schedule) (rows : list row) (fin : row),
    tableau_amortissement 1200 1 (35 # 1000) = Ok s /\
    rows = rows_of 1200 (1 * 12) ((35 # 1000) / 12) (mensualite s) /\
    df s = map round_row rows /\
    length (df s) = Z.to_nat (12 * 1) /\
    rows = removelast rows ++ [fin] /\
    settled ((35 # 1000) / 12) (1 * 12) (balance_before_last 1200 rows) fin /\
    df s = removelast (df s) ++ [round_row fin] /\
    CRD (round_row fin) == 0 /\
    Valeur_mensualite (round_row fin)
    = round2 (balance_before_last 1200 rows * ((35 # 1000) / 12)
              + balance_before_last 1200 rows) /\
    Qsum (map Capital_rembourse rows) == 1200 /\
    Qabs (Qsum (map Capital_rembourse (df s)) - 1200)
    <= (1 # 100) * inject_Z (12 * 1).
Proof.
  apply (C1_schedule_settles 1200 1 (35 # 1000)).
  - reflexivity.
  - reflexivity.
  - discriminate.
Defined.

(** The payment in exact arithmetic.  With a positive term, the payment
    of the embedding is the capital divided by the number of months,
    rounded to 2 decimals, whenever the monthly rate is below 1e-12 in
    magnitude; at an annual rate of 0 the total interest is 0 as well.
    Otherwise it is capital * i_m / (1 - (1 + i_m)^(-n_mois)) rounded to
    2 decimals.  This locates the branch and the place of the rounding;
    it does not tell which cent the binary computation of the program
    lands on when the exact value is at, or within rounding error of,
    half a cent, nor for rates just above the threshold, where
    [1 - (1 + i_m) ** (-n_mois)] has lost its digits. *)
Lemma payment_in_exact_arithmetic
  (capital : Q) (duree_annees : Z) (taux_annuel : Q) :
  (0 < duree_annees)%Z ->
  let n_mois := (duree_annees * 12)%Z in
  let i_m := taux_annuel / 12 in
  (Qabs i_m < 1e-12 ->
   exists s, tableau_amortissement capital duree_annees taux_annuel = Ok s /\
             mensualite s == round2 (capital / inject_Z (12 * duree_annees))) /\
  (taux_annuel == 0 ->
   exists s, tableau_amortissement capital duree_annees taux_annuel = Ok s /\
             mensualite s == round2 (capital / inject_Z (12 * duree_annees)) /\
             total_interets s == 0) /\
  (1e-12 <= Qabs i_m ->
   (0 <= taux_annuel ->
    exists s, tableau_amortissement capital duree_annees taux_annuel = Ok s) /\
   (forall s, tableau_amortissement capital duree_annees taux_annuel = Ok s ->
              mensualite s
              == round2 (capital * i_m / (1 - (1 + i_m) ^ (- n_mois))))).
Proof.
  intros Hd n_mois i_m.
  assert (Small : Qabs i_m < 1e-12 ->
    raw_mensualite capital n_mois i_m = Ok (capital / inject_Z n_mois)).
  { intros S. apply raw_mensualite_small; [unfold n_mois; lia | exact S]. }
  assert (Pay : Qabs i_m < 1e-12 ->
    exists s, tableau_amortissement capital duree_annees taux_annuel = Ok s /\
              mensualite s == round2 (capital / inject_Z (12 * duree_annees)) /\
              df s = map round_row
                       (rows_of capital n_mois i_m (mensualite s)) /\
              total_interets s = round2 (Qsum (map Interets (df s)))).
  { intros S. specialize (Small S).
    pose proof (tableau_amortissement_run capital duree_annees taux_annuel _
                  Hd Small) as T. cbv zeta in T.
    eexists. split; [exact T|]. cbn [mensualite df total_interets].
    split; [|split; reflexivity].
    apply round2_comp. unfold n_mois. now rewrite Z.mul_comm. }
  split; [|split].
  - intros S. destruct (Pay S) as (s & T & M & _). eauto.
  - intros Z0.
    assert (I0 : i_m == 0) by (unfold i_m; rewrite Z0; reflexivity).
    assert (S : Qabs i_m < 1e-12) by (rewrite I0; reflexivity).
    destruct (Pay S) as (s & T & M & D & TI).
    exists s. split; [exact T|]. split; [exact M|].
    rewrite TI, D, (map_round_row_col _ Interets) by reflexivity.
    rewrite <- round2_0. apply round2_comp. apply Qsum_zero.
    pose proof (loop_interest_zero (mensualite s) i_m n_mois
                  (range 1 (n_mois + 1)) capital I0) as F.
    fold (rows_of capital n_mois i_m (mensualite s)) in F.
    assert (G : forall l, Forall (fun r => Interets r == 0) l ->
                Forall (fun x => x == 0) (map round2 (map Interets l))).
    { induction 1 as [|r l Hr _ IH]; cbn [map]; constructor; [|exact IH].
      rewrite <- round2_0. now apply round2_comp. }
    apply G, F.
  - intros L. split.
    + intros Ht.
      assert (Hi : 0 <= i_m)
        by (unfold i_m; apply Qle_shift_div_l; [reflexivity|lra]).
      destruct (raw_mensualite_ok capital n_mois i_m) as [raw R];
        [unfold n_mois; lia | exact Hi |].
      eexists. exact (tableau_amortissement_run _ _ _ _ Hd R).
    + intros s T.
      destruct (tableau_amortissement_inv _ _ _ _ T) as (_ & raw & R & M & _).
      fold n_mois i_m in R. rewrite M. apply round2_comp.
      unfold raw_mensualite in R.
      destruct (Qlt_le_dec (Qabs i_m) 1e-12) as [S|_]; [exfalso; lra|].
      unfold float_pow_int in R.
      destruct (Qeq_bool (1 + i_m) 0 && (- n_mois <? 0)%Z); [discriminate|].
      destruct (Qle_bool overflow_bound (Qabs ((1 + i_m) ^ (- n_mois))));
        [discriminate|].
      cbn [bind] in R. unfold float_div in R.
      destruct (Qeq_bool (1 - (1 + i_m) ^ (- n_mois)) 0) eqn:E; [discriminate|].
      cbn [bind] in R. injection R as <-.
      apply Qeq_bool_neq in E. field. exact E.
Qed.

(** The two scenarios of the specification: 200000 over 20 years at 3.5 %
    is paid by 1159.92 a month, 100000 over 10 years at 0 % by 833.33. *)
Lemma payment_cents_eq
  (capital : Q) (duree_annees : Z) (taux_annuel : Q) (s : schedule) :
  tableau_amortissement capital duree_annees taux_annuel = Ok s ->
  LoanCoreRun.payment_cents capital duree_annees taux_annuel
  = Some (rint (mensualite s * 100)).
Proof.
  intros T.
  destruct (tableau_amortissement_inv _ _ _ _ T) as (_ & raw & R & M & _).
  unfold LoanCoreRun.payment_cents. rewrite R, M.
  now rewrite (rint_comp _ _ (round2_cents raw)), rint_inject_Z.
Qed.

Example payment_200000_20y :
  LoanCoreRun.payment_cents 200000 20 (35 # 1000) = Some 115992%Z.
Proof. vm_compute. reflexivity. Qed.

Example payment_100000_10y :
  LoanCoreRun.payment_cents 100000 10 0 = Some 83333%Z.
Proof. vm_compute. reflexivity. Qed.

(** A non-positive term is refused, whatever the capital and the rate. *)
Lemma term_checked (capital : Q) (duree_annees : Z) (taux_annuel : Q) :
  (duree_annees <= 0)%Z ->
  tableau_amortissement capital duree_annees taux_annuel
  = Err (ValueError "La durée doit être positive.").
Proof.
  intros H. unfold tableau_amortissement.
  destruct (Z.leb_spec (duree_annees * 12) 0) as [L|L]; [reflexivity|lia].
Qed.

(** C5, at the failing inputs.  [LoanCore.tableau_amortissement] returns a
    12-row schedule for a capital of -1000, and a schedule for an annual
    rate of -5 %, where the month-0 variant of [src/loan_core.py] raises
    the [ValueError] that names the capital, respectively the rate. *)
Theorem C5_capital_and_rate_unchecked :
  (exists s, tableau_amortissement (-1000) 1 (5 # 100) = Ok s /\
             length (df s) = 12%nat) /\
  LoanCoreMonth0.tableau_amortissement (-1000) 1 (5 # 100)
  = Err (ValueError "Le capital doit être > 0.") /\
  (exists s, tableau_amortissement 1000 1 (- (5 # 100)) = Ok s /\
             length (df s) = 12%nat) /\
  LoanCoreMonth0.tableau_amortissement 1000 1 (- (5 # 100))
  = Err (ValueError "Le taux annuel doit être >= 0.").
Proof.
  split; [|split; [reflexivity|split; [|reflexivity]]].
  - destruct (raw_mensualite_ok (-1000) (1 * 12) ((5 # 100) / 12))
      as [raw R]; [reflexivity | discriminate |].
    eexists. split.
    + exact (tableau_amortissement_run (-1000) 1 (5 # 100) raw eq_refl R).
    + cbn [df]. now rewrite length_map, rows_of_length.
  - destruct (raw_mensualite 1000 (1 * 12) (- (5 # 100) / 12)) as [raw|e] eqn:R;
      [|vm_compute in R; discriminate].
    eexists. split.
    + exact (tableau_amortissement_run 1000 1 (- (5 # 100)) raw eq_refl R).
    + cbn [df]. now rewrite length_map, rows_of_length.
Qed.

Lemma non_increasing_tail (a : Q) (l : list Q) :
  non_increasing (a :: l) -> non_increasing l.
Proof. destruct l as [|b l]; [trivial|]. now intros [_ H]. Qed.

Lemma non_increasing_round2 (l : list Q) :
  non_increasing l -> non_increasing (map round2 l).
Proof.
  induction l as [|a l IH]; [trivial|].
  destruct l as [|b l]; [trivial|].
  intros [Hab H]. cbn [map non_increasing].
  split; [now apply round2_mono | exact (IH H)].
Qed.

Lemma non_increasing_snoc (l : list Q) (z : Q) :
  non_increasing l -> z <= last l z -> non_increasing (l ++ [z]).
Proof.
  induction l as [|a l IH]; [trivial|].
  destruct l as [|b l]; intros H L.
  - cbn in L |- *. split; [exact L | exact I].
  - destruct H as [Hab H]. cbn [app non_increasing].
    split; [exact Hab|]. apply IH; [exact H|].
    rewrite last_cons_default in L. rewrite last_cons_default.
    now rewrite last_cons_default in L.
Qed.

Lemma last_map_nonempty {A B : Type} (f : A -> B) (l : list A) (d : A) (d' : B) :
  l <> [] -> last (map f l) d' = f (last l d).
Proof.
  destruct l as [|a l]; [congruence|]. intros _.
  cbn [map]. rewrite !last_cons_default. clear d d'.
  revert a. induction l as [|b l IH]; intros a; [reflexivity|].
  cbn [map]. rewrite !last_cons_default. apply IH.
Qed.

Lemma non_increasing_last (l : list Q) (z d : Q) :
  l <> [] -> non_increasing (l ++ [z]) -> z <= last l d.
Proof.
  destruct l as [|a l]; [congruence|]. intros _.
  rewrite last_cons_default. clear d.
  revert a. induction l as [|b l IH]; intros a H.
  - cbn in H |- *. tauto.
  - rewrite last_cons_default. apply IH.
    exact (non_increasing_tail a _ H).
Qed.

(** The payment before rounding is [capital * x^N / geo x N], at the rate
    0 and from the threshold on. *)
Lemma payment_identity (capital : Q) (N : Z) (i_m raw : Q) :
  (0 < N)%Z -> i_m == 0 \/ 1e-12 <= i_m ->
  raw_mensualite capital N i_m = Ok raw ->
  raw * geo (1 + i_m) (Z.to_nat N) == capital * pw (1 + i_m) (Z.to_nat N).
Proof.
  intros HN Hr R.
  assert (PN : 0 < inject_Z N)
    by (change 0 with (inject_Z 0); now rewrite <- Zlt_Qlt).
  destruct Hr as [I0|L].
  - rewrite raw_mensualite_small in R; [|exact HN | rewrite I0; reflexivity].
    apply Ok_inj in R. subst raw.
    assert (X : 1 + i_m == 1) by (rewrite I0; ring).
    rewrite (pw_one _ _ X), (geo_one _ _ X), Z2Nat.id by lia.
    field. lra.
  - assert (P0 : 0 < 1e-12) by reflexivity.
    unfold raw_mensualite in R.
    destruct (Qlt_le_dec (Qabs i_m) 1e-12) as [S|_];
      [exfalso; rewrite Qabs_pos in S by lra; lra|].
    rewrite float_pow_int_discount in R by (lra || lia).
    cbn [bind] in R. unfold float_div in R.
    destruct (Qeq_bool (1 - (1 + i_m) ^ (- N)) 0) eqn:D; [discriminate|].
    cbn [bind] in R. apply Ok_inj in R. subst raw.
    apply Qeq_bool_neq in D.
    pose proof (geo_closed i_m (Z.to_nat N)) as G.
    pose proof (pw_Qpower (1 + i_m) (Z.to_nat N) ltac:(lra)) as P.
    rewrite Z2Nat.id in P by lia.
    assert (P1 : 1 < (1 + i_m) ^ N) by (apply Qpower_1_lt; [lra|exact HN]).
    rewrite Qpower_opp in D |- *. rewrite <- P in D, P1 |- *.
    set (p := pw (1 + i_m) (Z.to_nat N)) in *.
    set (g := geo (1 + i_m) (Z.to_nat N)) in *.
    assert (Gq : g == (p - 1) / i_m) by (rewrite <- G; field; lra).
    rewrite Gq. field. repeat split; lra.
Qed.

(** When the capital covers the rounding, the rounded payment covers the
    first interest and does not overshoot. *)
Lemma enough_capital_payment (capital : Q) (N : Z) (i_m raw : Q) :
  (0 < N)%Z -> 0 <= i_m -> i_m == 0 \/ 1e-12 <= i_m ->
  raw_mensualite capital N i_m = Ok raw ->
  covers_rounding capital N i_m ->
  capital * i_m <= round2 raw /\
  0 <= due_before_last capital N i_m (round2 raw).
Proof.
  intros HN Hi Hr R [A B].
  pose proof (payment_identity capital N i_m raw HN Hr R) as F1.
  replace (Z.to_nat N) with (S (Z.to_nat (N - 1))) in F1 by lia.
  unfold due_before_last. cbv zeta in *.
  set (k := Z.to_nat (N - 1)) in *.
  pose proof (geo_closed i_m k) as F2.
  pose proof (pw_ge_1 (1 + i_m) k ltac:(lra)) as Hp.
  pose proof (geo_nonneg (1 + i_m) k ltac:(lra)) as Hg.
  cbn [geo pw] in F1, A, B.
  set (p := pw (1 + i_m) k) in *. set (g := geo (1 + i_m) k) in *.
  destruct (round2_near raw) as [N1 N2].
  set (mens := round2 raw) in *.
  assert (E1 : (raw - capital * i_m) * (p + g) == capital) by nra.
  assert (E2 : (capital * p - raw * g) * (p + g) == capital * p) by nra.
  split.
  - assert (1 # 100 <= raw - capital * i_m) by nra. lra.
  - assert ((1 # 100) * g <= capital * p - raw * g) by nra.
    nra.
Qed.

(** C6, as the code has it.  Take a positive capital, a positive term, a
    non-negative rate and the returned schedule.

    In terms of the inputs alone: at the rate 0 or a rate of at least
    [12e-12], when the capital covers the rounding of the payment
    ([covers_rounding]; at rate 0, [0.01 * N * (N - 1) <= capital]), the
    remaining-balance column is non-increasing.

    In general, let [due] be what the first [n_mois - 1] rounded
    payments leave of the debt: [capital * (1 + i_m)^(n_mois - 1)] less
    the payments accumulated at the monthly rate, which is
    [capital - (n_mois - 1) * mensualite] at rate 0.  When the rounded
    payment is at least the interest of the first month, as it always is
    at rate 0, the column is non-increasing over the months before the
    last, and over all the months when [due] is not negative.  When
    [due] is below minus half a cent the column shows a negative balance
    and rises to 0 in the last month. *)
Theorem C6_balance_non_increasing
  (capital : Q) (duree_annees : Z) (taux_annuel : Q) (s : schedule) :
  0 < capital -> (0 < duree_annees)%Z -> 0 <= taux_annuel ->
  tableau_amortissement capital duree_annees taux_annuel = Ok s ->
  let i_m := taux_annuel / 12 in
  let due := due_before_last capital (duree_annees * 12) i_m (mensualite s) in
  (taux_annuel == 0 \/ 12e-12 <= taux_annuel ->
   covers_rounding capital (duree_annees * 12) i_m ->
   non_increasing (map CRD (df s))) /\
  (capital * i_m <= mensualite s ->
   non_increasing (removelast (map CRD (df s))) /\
   (0 <= due -> non_increasing (map CRD (df s)))) /\
  (due < - (1 # 200) -> ~ non_increasing (map CRD (df s))) /\
  (taux_annuel == 0 ->
   capital * i_m <= mensualite s /\
   due == capital - inject_Z (duree_annees * 12 - 1) * mensualite s).
Proof.
  intros Hc Hd Ht T i_m due.
  destruct (column_shape _ _ _ _ T) as (Col & Len & Due).
  fold i_m in Col, Len, Due. fold due in Due.
  destruct (tableau_amortissement_inv _ _ _ _ T) as (_ & raw & R & M & _).
  fold i_m in R.
  set (N := (duree_annees * 12)%Z) in *.
  set (body := amort_rows (mensualite s) i_m N (range 1 N) capital) in *.
  assert (HN : (0 < N)%Z) by (unfold N; lia).
  assert (Hi : 0 <= i_m)
    by (unfold i_m; apply Qle_shift_div_l; [reflexivity|lra]).
  assert (NE : map CRD body <> []).
  { intros E. apply (f_equal (@length Q)) in E.
    rewrite length_map, Len in E. cbn [length] in E. unfold N in E. lia. }
  assert (NE' : map round2 (map CRD body) <> []).
  { intros E. apply map_eq_nil in E. contradiction. }
  assert (Mono : capital * i_m <= mensualite s ->
                 non_increasing (map round2 (map CRD body))).
  { intros Hpay. apply non_increasing_round2, (non_increasing_tail capital).
    apply (body_monotone (mensualite s) i_m N capital);
      [apply range_not_In | exact Hi | exact Hpay | lra]. }
  assert (Suff : capital * i_m <= mensualite s -> 0 <= due ->
                 non_increasing (map CRD (df s))).
  { intros Hpay Hdue. rewrite Col.
    apply non_increasing_snoc; [exact (Mono Hpay)|].
    rewrite (last_map_nonempty round2 _ capital) by exact NE.
    apply round2_mono. rewrite Due. exact Hdue. }
  split; [|split; [|split]].
  - intros Hr Hcov.
    assert (Hr' : i_m == 0 \/ 1e-12 <= i_m).
    { destruct Hr as [E|L]; [left; unfold i_m; rewrite E; reflexivity|].
      right. unfold i_m. apply Qle_shift_div_l; [reflexivity|].
      assert (E12 : 1e-12 * 12 == 12e-12) by reflexivity.
      rewrite E12. exact L. }
    destruct (enough_capital_payment capital N i_m raw HN Hi Hr' R Hcov)
      as [Hpay Hdue].
    rewrite <- M in Hpay, Hdue. exact (Suff Hpay Hdue).
  - intros Hpay. split; [|exact (Suff Hpay)].
    rewrite Col, removelast_last. exact (Mono Hpay).
  - intros Hneg H. rewrite Col in H.
    apply (non_increasing_last _ _ (round2 0) NE') in H.
    rewrite (last_map_nonempty round2 _ capital) in H by exact NE.
    destruct (round2_near (last (map CRD body) capital)) as [A _].
    pose proof round2_0. lra.
  - intros Z0.
    assert (I0 : i_m == 0) by (unfold i_m; rewrite Z0; reflexivity).
    split.
    + rewrite raw_mensualite_small in R;
        [|exact HN | rewrite I0; reflexivity].
      apply Ok_inj in R. rewrite M, <- R, I0.
      apply Qle_trans with 0; [lra|]. apply round2_nonneg.
      apply Qle_shift_div_l.
      * change 0 with (inject_Z 0). now rewrite <- Zlt_Qlt.
      * lra.
    + unfold due, due_before_last. cbv zeta.
      assert (X : 1 + i_m == 1) by (rewrite I0; ring).
      rewrite (pw_one _ _ X), (geo_one _ _ X).
      rewrite Z2Nat.id by lia. ring.
Qed.

(** The claim C6 as stated fails, in two ways.  A capital of 0.10 over one
    year at rate 0 is repaid by 0.01 a month, which overshoots after ten
    months: the column reads 0.09, ..., 0.00, -0.01, 0.00 and rises in the
    last month.  A capital of 0.401 over two years at 120 % a year has a
    payment of 0.0446..., rounded to 0.04, below the first interest of
    0.0401: the balance grows and the column goes from 0.40 to 0.41. *)
Lemma C6_counterexample :
  (0 < 1 # 10 /\ (0 < 1)%Z /\ 0 <= 0 /\
   exists s, tableau_amortissement (1 # 10) 1 0 = Ok s /\
             ~ non_increasing (map CRD (df s))) /\
  (0 < 401 # 1000 /\ (0 < 2)%Z /\ 0 <= 12 # 10 /\
   exists s, tableau_amortissement (401 # 1000) 2 (12 # 10) = Ok s /\
             ~ non_increasing (map CRD (df s))).
Proof.
  split.
  - split; [reflexivity|]. split; [reflexivity|]. split; [discriminate|].
    destruct (raw_mensualite_ok (1 # 10) (1 * 12) (0 / 12)) as [raw R];
      [reflexivity | discriminate |].
    pose proof (tableau_amortissement_run (1 # 10) 1 0 raw eq_refl R) as T.
    cbv zeta in T. eexists. split; [exact T|].
    intros H.
    destruct (LoanCoreRun.crd_column (1 # 10) 1 0) as [col|e] eqn:C;
      [|vm_compute in C; discriminate].
    pose proof (non_increasing_compat _ _
                  (crd_column_eq _ _ _ _ _ T C) H) as H'.
    vm_compute in C. apply Ok_inj in C. subst col.
    cbn [non_increasing] in H'.
    decompose [and] H'. lra.
  - split; [reflexivity|]. split; [reflexivity|]. split; [discriminate|].
    destruct (raw_mensualite_ok (401 # 1000) (2 * 12) ((12 # 10) / 12))
      as [raw R]; [reflexivity | discriminate |].
    pose proof (tableau_amortissement_run (401 # 1000) 2 (12 # 10) raw
                  eq_refl R) as T.
    cbv zeta in T. eexists. split; [exact T|].
    intros H.
    destruct (LoanCoreRun.crd_column (401 # 1000) 2 (12 # 10)) as [col|e] eqn:C;
      [|vm_compute in C; discriminate].
    pose proof (non_increasing_compat _ _
                  (crd_column_eq _ _ _ _ _ T C) H) as H'.
    vm_compute in C. apply Ok_inj in C. subst col.
    cbn [non_increasing] in H'.
    decompose [and] H'. lra.
Qed.

(** Two runs of C6.  1200 over one year at rate 0 is repaid by 100 a
    month, 100 is still due before the last one, and the column is
    non-increasing.  100 over 30 years at rate 0 is repaid by 0.28 a
    month; after 359 months 100.52 have been paid, [due] is -0.52, and
    the column ends with -0.52, 0. *)
Lemma C6_balance_non_increasing_witness :
  (exists s, tableau_amortissement 1200 1 0 = Ok s /\
             non_increasing (map CRD (df s))) /\
  (exists s, tableau_amortissement 100 30 0 = Ok s /\
             ~ non_increasing (map CRD (df s))).
Proof.
  split.
  - destruct (raw_mensualite 1200 (1 * 12) (0 / 12)) as [raw|e] eqn:R;
      [|vm_compute in R; discriminate].
    pose proof (tableau_amortissement_run 1200 1 0 raw eq_refl R) as T.
    cbv zeta in T. eexists. split; [exact T|].
    destruct (C6_balance_non_increasing 1200 1 0 _
                ltac:(reflexivity) ltac:(reflexivity) ltac:(discriminate) T)
      as (A & _).
    apply A; [left; reflexivity|].
    split; vm_compute; discriminate.
  - destruct (raw_mensualite 100 (30 * 12) (0 / 12)) as [raw|e] eqn:R;
      [|vm_compute in R; discriminate].
    pose proof (tableau_amortissement_run 100 30 0 raw eq_refl R) as T.
    cbv zeta in T. eexists. split; [exact T|].
    destruct (C6_balance_non_increasing 100 30 0 _
                ltac:(reflexivity) ltac:(reflexivity) ltac:(discriminate) T)
      as (_ & _ & B & C).
    destruct (C ltac:(reflexivity)) as [_ Hdue].
    apply B. rewrite Hdue. cbn [mensualite].
    vm_compute in R. apply Ok_inj in R. subst raw.
    vm_compute. reflexivity.
Defined.

End ScheduleClaims.

(** ** Mortality conversion *)

Section Mortality.
Import App.
Open Scope R_scope.

Lemma clamp_pos (q : R) : 0 < Rmax 1e-15 (1 - q).
Proof.
  apply Rlt_le_trans with 1e-15; [lra | apply Rmax_l].
Qed.

(** The clamp keeps [math.log] inside its domain. *)
Lemma math_log_clamp (q : R) :
  math_log (Rmax 1e-15 (1 - q)) = Ok (ln (Rmax 1e-15 (1 - q))).
Proof.
  unfold math_log. destruct (Rlt_dec 0 (Rmax 1e-15 (1 - q))) as [_|N];
    [reflexivity|]. exfalso. apply N, clamp_pos.
Qed.

Lemma exp_spec_mu (q : R) : exp (- spec_mu q) = Rmax 1e-15 (1 - q).
Proof.
  unfold spec_mu. rewrite Ropp_involutive. apply exp_ln, clamp_pos.
Qed.

Lemma exp_le (x y : R) : x <= y -> exp x <= exp y.
Proof.
  intros [H | ->]; [left; now apply exp_increasing | right; reflexivity].
Qed.

Lemma spec_mu_nonneg (q : R) : 0 <= q -> 0 <= spec_mu q.
Proof.
  intros H. unfold spec_mu.
  assert (L : Rmax 1e-15 (1 - q) <= 1) by (apply Rmax_lub; lra).
  destruct L as [L|E].
  - pose proof (ln_increasing _ _ (clamp_pos q) L) as I.
    rewrite ln_1 in I. lra.
  - rewrite E, ln_1. lra.
Qed.

Lemma range_1_13 : range 1 13 = map Z.of_nat (seq 1 12).
Proof. reflexivity. Qed.

Lemma year_death_probs_spec (S q : R) :
  year_death_probs S (spec_mu q) = map (spec_death_prob S q) (seq 1 12).
Proof.
  unfold year_death_probs. rewrite range_1_13, map_map.
  apply map_ext. intros m. unfold spec_death_prob.
  now rewrite <- INR_IZR_INZ.
Qed.

Lemma year_survivals_spec (S q : R) :
  year_survivals S (spec_mu q) = map (spec_survival S q) (seq 1 12).
Proof.
  unfold year_survivals. rewrite range_1_13, map_map.
  apply map_ext. intros j. unfold spec_survival.
  rewrite <- INR_IZR_INZ. do 2 f_equal. field.
Qed.

Lemma flat_map_shift {A : Type} (g : nat -> list A) (a n : nat) :
  flat_map g (seq (S a) n) = flat_map (fun k => g (S k)) (seq a n).
Proof.
  revert a. induction n as [|n IH]; intros a; [reflexivity|].
  cbn [seq flat_map]. now rewrite IH.
Qed.

Lemma spec_monthly_from_cons (f : R -> R -> nat -> R) (S0 q : R) (rest : list R) :
  spec_monthly_from f S0 (q :: rest)
  = map (f S0 q) (seq 1 12) ++ spec_monthly_from f (S0 * (1 - q)) rest.
Proof.
  unfold spec_monthly_from. cbn [length].
  change (seq 0 (S (length rest))) with (0%nat :: seq 1 (length rest)).
  cbn [flat_map]. f_equal. now rewrite flat_map_shift.
Qed.

(** The two loops compute the specified blocks, and raise nothing. *)
Lemma death_loop_spec (qs : list R) :
  forall S0, death_loop qs S0 = Ok (spec_monthly_from spec_death_prob S0 qs).
Proof.
  induction qs as [|q rest IH]; intros S0; [reflexivity|].
  cbn [death_loop]. rewrite math_log_clamp. cbn [bind].
  rewrite IH. cbn [bind]. fold (spec_mu q).
  now rewrite year_death_probs_spec, spec_monthly_from_cons.
Qed.

Lemma survival_loop_spec (qs : list R) :
  forall S0, survival_loop qs S0 = Ok (spec_monthly_from spec_survival S0 qs).
Proof.
  induction qs as [|q rest IH]; intros S0; [reflexivity|].
  cbn [survival_loop]. rewrite math_log_clamp. cbn [bind].
  rewrite IH. cbn [bind]. fold (spec_mu q).
  now rewrite year_survivals_spec, spec_monthly_from_cons.
Qed.

Lemma spec_monthly_from_length (f : R -> R -> nat -> R) (qs : list R) :
  forall S0, length (spec_monthly_from f S0 qs) = (12 * length qs)%nat.
Proof.
  induction qs as [|q rest IH]; intros S0; [reflexivity|].
  rewrite spec_monthly_from_cons, length_app, length_map, length_seq, IH.
  cbn [length]. lia.
Qed.

(** C8, as the code has it.  The two converters have no error condition
    at all: for every list of annual values (the empty list and values
    outside [0,1] included) they return the specified twelve values per
    year, concatenated in the order of the years, hence [12 * n] values
    for [n] years. *)
Theorem C8_converters_total (q_by_year : list R) :
  monthly_death_probs_from_annual_q q_by_year
  = Ok (spec_monthly spec_death_prob q_by_year) /\
  monthly_survival_to_month_start_from_annual_q q_by_year
  = Ok (spec_monthly spec_survival q_by_year) /\
  length (spec_monthly spec_death_prob q_by_year)
  = (12 * length q_by_year)%nat /\
  length (spec_monthly spec_survival q_by_year)
  = (12 * length q_by_year)%nat.
Proof.
  unfold monthly_death_probs_from_annual_q,
    monthly_survival_to_month_start_from_annual_q, spec_monthly.
  rewrite death_loop_spec, survival_loop_spec, !spec_monthly_from_length.
  repeat split.
Qed.

(** The claim C8 as stated fails: the empty list is answered with the
    empty sequence, and an annual value of 2 or of -1 with twelve
    numbers; nothing is raised. *)
Lemma C8_counterexample :
  monthly_death_probs_from_annual_q [] = Ok [] /\
  monthly_survival_to_month_start_from_annual_q [] = Ok [] /\
  is_ok (monthly_death_probs_from_annual_q [2]) = true /\
  is_ok (monthly_survival_to_month_start_from_annual_q [-1]) = true.
Proof.
  split; [reflexivity|]. split; [reflexivity|].
  unfold monthly_death_probs_from_annual_q,
    monthly_survival_to_month_start_from_annual_q.
  rewrite death_loop_spec, survival_loop_spec. split; reflexivity.
Qed.

Lemma Rsum_app (l1 l2 : list R) : Rsum (l1 ++ l2) = Rsum l1 + Rsum l2.
Proof.
  induction l1 as [|x l1 IH]; cbn [app Rsum]; [ring|]. rewrite IH. ring.
Qed.

(** The monthly death probabilities of a year telescope. *)
Lemma death_probs_telescope (S q : R) (n : nat) :
  Rsum (map (spec_death_prob S q) (seq 1 n))
  = S * (1 - exp (- spec_mu q * INR n / 12)).
Proof.
  induction n as [|n IH].
  - cbn [seq map Rsum INR].
    replace (- spec_mu q * 0 / 12) with 0 by field. rewrite exp_0. ring.
  - rewrite seq_S, map_app, Rsum_app, IH. cbn [map Rsum Nat.add].
    unfold spec_death_prob. rewrite S_INR.
    replace (INR n + 1 - 1) with (INR n) by ring. ring.
Qed.

Lemma year_mass (S q : R) :
  Rsum (map (spec_death_prob S q) (seq 1 12))
  = S * (1 - Rmax 1e-15 (1 - q)).
Proof.
  rewrite death_probs_telescope. rewrite <- exp_spec_mu.
  rewrite INR_IZR_INZ. change (Z.of_nat 12) with 12%Z.
  replace (- spec_mu q * 12 / 12) with (- spec_mu q) by field. reflexivity.
Qed.

(** The block of year [k] inside the concatenation. *)
Lemma spec_monthly_from_block (f : R -> R -> nat -> R) (k : nat) :
  forall (qs : list R) (S0 : R),
    (k < length qs)%nat ->
    firstn 12 (skipn (12 * k) (spec_monthly_from f S0 qs))
    = map (f (spec_year_start_from S0 qs k) (nth k qs 0)) (seq 1 12).
Proof.
  induction k as [|k IH]; intros qs S0 Hk;
    (destruct qs as [|q rest]; [cbn in Hk; lia|]);
    rewrite spec_monthly_from_cons.
  - rewrite Nat.mul_0_r, skipn_O.
    rewrite firstn_app, length_map, length_seq, Nat.sub_diag, firstn_O.
    rewrite app_nil_r. apply firstn_all2. rewrite length_map, length_seq. lia.
  - rewrite skipn_app, length_map, length_seq.
    rewrite skipn_all2 by (rewrite length_map, length_seq; lia).
    replace (12 * S k - 12)%nat with (12 * k)%nat by lia.
    cbn [app length] in *. rewrite IH by lia. reflexivity.
Qed.

Lemma spec_year_start_from_succ (k : nat) :
  forall (qs : list R) (S0 : R),
    (k < length qs)%nat ->
    spec_year_start_from S0 qs (S k)
    = spec_year_start_from S0 qs k * (1 - nth k qs 0).
Proof.
  induction k as [|k IH]; intros qs S0 Hk;
    (destruct qs as [|q rest]; [cbn in Hk; lia|]).
  - destruct rest; reflexivity.
  - cbn [length] in Hk.
    change (spec_year_start_from S0 (q :: rest) (S (S k)))
      with (spec_year_start_from (S0 * (1 - q)) rest (S k)).
    rewrite IH by lia. reflexivity.
Qed.

(** C2, as the code has it.  In the loop of
    [monthly_death_probs_from_annual_q], started with survival [S0] (the
    function starts it with 1), take any year [k] whose annual value [q]
    lies in [0, 1 - 1e-15], and let [S] be the survival to the start of
    that year.  The twelve monthly death probabilities of the year and
    the next year's starting survival [S * (1 - q)] add up to [S]. *)
Theorem C2_year_mass_conserved (q_by_year : list R) (S0 : R) (k : nat) :
  (k < length q_by_year)%nat ->
  0 <= nth k q_by_year 0 <= 1 - 1e-15 ->
  let S := spec_year_start_from S0 q_by_year k in
  let q := nth k q_by_year 0 in
  monthly_death_probs_from_annual_q q_by_year = death_loop q_by_year 1 /\
  exists probs,
    death_loop q_by_year S0 = Ok probs /\
    spec_year_start_from S0 q_by_year (Datatypes.S k) = S * (1 - q) /\
    Rsum (firstn 12 (skipn (12 * k) probs)) + S * (1 - q) = S.
Proof.
  intros Hk Hq S q. split; [reflexivity|].
  exists (spec_monthly_from spec_death_prob S0 q_by_year).
  split; [apply death_loop_spec|].
  split; [now apply spec_year_start_from_succ|].
  rewrite spec_monthly_from_block by exact Hk. fold S q.
  rewrite year_mass, Rmax_right by (unfold q; lra). ring.
Qed.

(** A run of C2: the second of two years, with q = 0.01 then q = 0.5. *)
Lemma C2_year_mass_conserved_witness :
  exists probs,
    death_loop [1 / 100; 1 / 2] 1 = Ok probs /\
    spec_year_start_from 1 [1 / 100; 1 / 2] 2
    = spec_year_start_from 1 [1 / 100; 1 / 2] 1 * (1 - 1 / 2) /\
    Rsum (firstn 12 (skipn (12 * 1) probs))
    + spec_year_start_from 1 [1 / 100; 1 / 2] 1 * (1 - 1 / 2)
    = spec_year_start_from 1 [1 / 100; 1 / 2] 1.
Proof.
  apply (C2_year_mass_conserved [1 / 100; 1 / 2] 1 1).
  - cbn [length]. lia.
  - cbn [nth]. lra.
Defined.

(** The claim C2 as stated fails at q = 1, an annual value the mortality
    table allows at its terminal age: the clamp leaves a mass of 1e-15
    unaccounted for. *)
Lemma C2_counterexample :
  0 <= 1 <= 1 /\
  exists probs,
    monthly_death_probs_from_annual_q [1] = Ok probs /\
    Rsum (firstn 12 probs) + 1 * (1 - 1) <> 1.
Proof.
  split; [lra|].
  exists (spec_monthly_from spec_death_prob 1 [1]).
  split; [apply death_loop_spec|].
  pose proof (spec_monthly_from_block spec_death_prob 0 [1] 1) as B.
  cbn [length] in B. specialize (B ltac:(lia)).
  change (12 * 0)%nat with 0%nat in B. cbn [skipn nth] in B.
  change (spec_year_start_from 1 [1] 0) with 1 in B.
  rewrite B, year_mass, Rmax_left by lra. lra.
Qed.

Lemma month_INR (m : nat) : In m (seq 1 12) -> 1 <= INR m.
Proof.
  intros I. apply in_seq in I. destruct I as [L _].
  apply le_INR in L. now rewrite INR_1 in L.
Qed.

Lemma spec_death_prob_nonneg (S q : R) (m : nat) :
  0 <= S -> 0 <= q -> 0 <= spec_death_prob S q m.
Proof.
  intros HS Hq. unfold spec_death_prob.
  pose proof (spec_mu_nonneg q Hq) as Hmu.
  assert (E : exp (- spec_mu q * INR m / 12)
              <= exp (- spec_mu q * (INR m - 1) / 12)) by (apply exp_le; nra).
  apply Rmult_le_pos; lra.
Qed.

Lemma spec_survival_range (S q : R) (m : nat) :
  0 <= q -> In m (seq 1 12) ->
  0 < exp (- spec_mu q * (INR m - 1) / 12) <= 1.
Proof.
  intros Hq I. pose proof (spec_mu_nonneg q Hq) as Hmu.
  pose proof (month_INR m I) as L.
  split; [apply exp_pos|].
  apply Rle_trans with (exp 0); [apply exp_le | rewrite exp_0; lra].
  assert (0 <= spec_mu q * (INR m - 1)) by (apply Rmult_le_pos; lra). lra.
Qed.

Lemma spec_survival_step (S q : R) (m : nat) :
  0 <= S -> 0 <= q -> spec_survival S q (Datatypes.S m) <= spec_survival S q m.
Proof.
  intros HS Hq. unfold spec_survival. rewrite S_INR.
  pose proof (spec_mu_nonneg q Hq) as Hmu.
  apply Rmult_le_compat_l; [exact HS|]. apply exp_le. nra.
Qed.

Lemma spec_survival_first (S q : R) : spec_survival S q 1 = S.
Proof.
  unfold spec_survival. rewrite INR_1.
  replace (- spec_mu q * (1 - 1) / 12) with 0 by field. rewrite exp_0. ring.
Qed.

(** The last month of a year starts no lower than the next year. *)
Lemma spec_survival_year_end (S q : R) :
  0 <= S -> 0 <= q -> S * (1 - q) <= spec_survival S q 12.
Proof.
  intros HS Hq. unfold spec_survival.
  pose proof (spec_mu_nonneg q Hq) as Hmu.
  apply Rmult_le_compat_l; [exact HS|].
  apply Rle_trans with (exp (- spec_mu q)).
  - rewrite exp_spec_mu. apply Rmax_r.
  - apply exp_le. rewrite INR_IZR_INZ. change (Z.of_nat 12) with 12%Z. lra.
Qed.

Lemma non_increasing_raise (a b : R) (l : list R) :
  non_increasing (a :: l) -> a <= b -> non_increasing (b :: l).
Proof.
  destruct l as [|c l]; [trivial|]. intros [H1 H2] H. split; [lra|exact H2].
Qed.

Lemma deaths_nonneg (qs : list R) :
  forall S0, Forall (fun q => 0 <= q <= 1) qs -> 0 <= S0 ->
             Forall (fun p => 0 <= p) (spec_monthly_from spec_death_prob S0 qs).
Proof.
  induction qs as [|q rest IH]; intros S0 F HS; [constructor|].
  inversion F as [|? ? [Hq0 Hq1] F']; subst.
  rewrite spec_monthly_from_cons. apply Forall_app. split.
  - apply Forall_forall. intros p I. apply in_map_iff in I.
    destruct I as (m & <- & _). now apply spec_death_prob_nonneg.
  - apply IH; [exact F'|]. apply Rmult_le_pos; lra.
Qed.

Lemma survivals_range (qs : list R) :
  forall S0, Forall (fun q => 0 <= q <= 1) qs -> 0 <= S0 <= 1 ->
             Forall (fun s => 0 <= s <= 1)
                    (spec_monthly_from spec_survival S0 qs).
Proof.
  induction qs as [|q rest IH]; intros S0 F HS; [constructor|].
  inversion F as [|? ? [Hq0 Hq1] F']; subst.
  rewrite spec_monthly_from_cons. apply Forall_app. split.
  - apply Forall_forall. intros p I. apply in_map_iff in I.
    destruct I as (m & <- & I). unfold spec_survival.
    destruct (spec_survival_range S0 q m Hq0 I) as [E0 E1]. nra.
  - apply IH; [exact F'|]. nra.
Qed.

Lemma survivals_positive (qs : list R) :
  forall S0, Forall (fun q => 0 <= q <= 1) qs ->
             Forall (fun q => q < 1) (removelast qs) -> 0 < S0 ->
             Forall (fun s => 0 < s) (spec_monthly_from spec_survival S0 qs).
Proof.
  induction qs as [|q rest IH]; intros S0 F L HS; [constructor|].
  inversion F as [|? ? [Hq0 Hq1] F']; subst.
  rewrite spec_monthly_from_cons. apply Forall_app. split.
  - apply Forall_forall. intros p I. apply in_map_iff in I.
    destruct I as (m & <- & I). unfold spec_survival.
    destruct (spec_survival_range S0 q m Hq0 I) as [E0 E1].
    now apply Rmult_lt_0_compat.
  - destruct rest as [|q' rest]; [constructor|].
    change (removelast (q :: q' :: rest))
      with (q :: removelast (q' :: rest)) in L.
    inversion L as [|? ? Hq L']; subst.
    apply IH; [exact F' | exact L' |]. apply Rmult_lt_0_compat; lra.
Qed.

Lemma survivals_non_increasing (qs : list R) :
  forall S0, Forall (fun q => 0 <= q <= 1) qs -> 0 <= S0 ->
             non_increasing (S0 :: spec_monthly_from spec_survival S0 qs).
Proof.
  induction qs as [|q rest IH]; intros S0 F HS; [exact I|].
  inversion F as [|? ? [Hq0 Hq1] F']; subst.
  rewrite spec_monthly_from_cons.
  assert (HS' : 0 <= S0 * (1 - q)) by (apply Rmult_le_pos; lra).
  specialize (IH (S0 * (1 - q)) F' HS').
  apply (non_increasing_raise _ (spec_survival S0 q 12)) in IH;
    [|now apply spec_survival_year_end].
  cbn [seq map app non_increasing].
  split; [rewrite spec_survival_first; lra|].
  repeat (split; [now apply spec_survival_step|]).
  exact IH.
Qed.

(** C10, as the code has it.  When every annual value lies in [0,1], every
    monthly death probability is non-negative, every survival to the start
    of a month lies in [0,1], and the survivals are non-increasing over
    the whole [12 * n] months, year boundaries included.  The survivals
    are all positive when no year before the last one has q = 1. *)
Theorem C10_probabilities_bounded (q_by_year : list R) :
  Forall (fun q => 0 <= q <= 1) q_by_year ->
  exists deaths survs,
    monthly_death_probs_from_annual_q q_by_year = Ok deaths /\
    monthly_survival_to_month_start_from_annual_q q_by_year = Ok survs /\
    Forall (fun p => 0 <= p) deaths /\
    Forall (fun s => 0 <= s <= 1) survs /\
    non_increasing survs /\
    (Forall (fun q => q < 1) (removelast q_by_year) ->
     Forall (fun s => 0 < s <= 1) survs).
Proof.
  intros F.
  exists (spec_monthly_from spec_death_prob 1 q_by_year),
         (spec_monthly_from spec_survival 1 q_by_year).
  pose proof (survivals_range q_by_year 1 F ltac:(lra)) as Rg.
  split; [apply death_loop_spec|]. split; [apply survival_loop_spec|].
  split; [apply deaths_nonneg; [exact F|lra]|].
  split; [exact Rg|].
  split.
  - pose proof (survivals_non_increasing q_by_year 1 F ltac:(lra)) as M.
    destruct (spec_monthly_from spec_survival 1 q_by_year); [exact I|].
    now destruct M.
  - intros L.
    pose proof (survivals_positive q_by_year 1 F L ltac:(lra)) as P.
    rewrite Forall_forall in *. intros s I.
    specialize (Rg s I). specialize (P s I). lra.
Qed.

(** A run of C10: two years, q = 0.01 then q = 1. *)
Lemma C10_probabilities_bounded_witness :
  exists deaths survs,
    monthly_death_probs_from_annual_q [1 / 100; 1] = Ok deaths /\
    monthly_survival_to_month_start_from_annual_q [1 / 100; 1] = Ok survs /\
    Forall (fun p => 0 <= p) deaths /\
    Forall (fun s => 0 <= s <= 1) survs /\
    non_increasing survs /\
    Forall (fun s => 0 < s <= 1) survs.
Proof.
  destruct (C10_probabilities_bounded [1 / 100; 1]) as (d & s & A & B & C & D & E & G).
  - repeat constructor; lra.
  - exists d, s. repeat (split; [assumption|]).
    apply G. cbn [removelast]. repeat constructor. lra.
Defined.

(** The claim C10 as stated fails: after a year with q = 1 the survival to
    the start of every later month is 0, outside (0, 1]. *)
Lemma C10_counterexample :
  Forall (fun q => 0 <= q <= 1) [1; 0] /\
  exists survs,
    monthly_survival_to_month_start_from_annual_q [1; 0] = Ok survs /\
    nth_error survs 12 = Some 0.
Proof.
  split; [repeat constructor; lra|].
  exists (spec_monthly_from spec_survival 1 [1; 0]).
  split; [apply survival_loop_spec|].
  rewrite !spec_monthly_from_cons.
  rewrite nth_error_app2 by (rewrite length_map, length_seq; lia).
  rewrite length_map, length_seq, Nat.sub_diag.
  cbn [seq map app nth_error]. f_equal.
  rewrite spec_survival_first. ring.
Qed.

End Mortality.

(** ** Present values *)

Section Pricing.
Import App.
Open Scope R_scope.

Lemma overflow_bound_above_1 : 1 < overflow_bound.
Proof. unfold overflow_bound. apply (IZR_lt 1). vm_compute. reflexivity. Qed.

(** A power of a positive base within the range of a double is returned. *)
Lemma float_pow_pos (x y : R) :
  0 < x -> Rpower x y < overflow_bound -> float_pow x y = Ok (Rpower x y).
Proof.
  intros H B. unfold float_pow. destruct (Rlt_dec 0 x); [|easy].
  unfold in_range.
  assert (P : 0 < Rpower x y) by (unfold Rpower; apply exp_pos).
  rewrite Rabs_pos_eq by lra.
  destruct (Rle_dec overflow_bound (Rpower x y)); [lra|reflexivity].
Qed.

Lemma ln_le (x y : R) : 0 < x -> x <= y -> ln x <= ln y.
Proof.
  intros Hx [H | ->]; [left; now apply ln_increasing | right; reflexivity].
Qed.

Lemma discount_pos (x e : R) : 0 < Rpower x e.
Proof. unfold Rpower. apply exp_pos. Qed.

Lemma discount_le_1 (x e : R) : 1 <= x -> e <= 0 -> Rpower x e <= 1.
Proof.
  intros Hx He. unfold Rpower. rewrite <- exp_0. apply exp_le.
  assert (0 <= ln x) by (rewrite <- ln_1; apply ln_le; lra). nra.
Qed.

(** The discount factor of a month at a rate [i >= 0] lies in (0, 1]:
    the power raises nothing. *)
Lemma float_pow_discount (i e : R) :
  0 <= i -> e <= 0 -> float_pow (1 + i) e = Ok (Rpower (1 + i) e).
Proof.
  intros Hi He. apply float_pow_pos; [lra|].
  pose proof (discount_le_1 (1 + i) e ltac:(lra) He).
  pose proof overflow_bound_above_1. lra.
Qed.

Lemma month_exponent_Z (k : nat) : - IZR (Z.of_nat k) / 12 <= 0.
Proof.
  assert (0 <= IZR (Z.of_nat k)) by (apply IZR_le; lia). lra.
Qed.

Lemma float_pow_zero_neg (x y : R) :
  x = 0 -> y < 0 -> float_pow x y = Err ZeroDivisionError.
Proof.
  intros -> H. unfold float_pow.
  destruct (Rlt_dec 0 0) as [A|_]; [lra|].
  destruct (Req_dec_T 0 0) as [_|A]; [|easy].
  destruct (Rlt_dec y 0) as [_|A]; [reflexivity|easy].
Qed.

Lemma float_pow_zero_zero (x y : R) : x = 0 -> y = 0 -> float_pow x y = Ok 1.
Proof.
  intros -> ->. unfold float_pow.
  destruct (Rlt_dec 0 0) as [A|_]; [lra|].
  destruct (Req_dec_T 0 0) as [_|A]; [|easy]. reflexivity.
Qed.

Lemma sigma_cons (k n : nat) (f : nat -> R) :
  sigma k (S n) f = f k + sigma (S k) n f.
Proof. reflexivity. Qed.

Lemma sigma_ext (k n : nat) (f g : nat -> R) :
  (forall m, (k <= m < k + n)%nat -> f m = g m) -> sigma k n f = sigma k n g.
Proof.
  intros H. unfold sigma. f_equal. apply map_ext_in.
  intros m I. apply in_seq in I. now apply H.
Qed.


Lemma index_Z (k : nat) : (Z.of_nat k + 1)%Z = Z.of_nat (S k).
Proof. lia. Qed.

(** The loop of [single_premium_monthly], entered at month [k] with the
    running total [U]. *)
Lemma premium_loop_spec (i_annual : R) :
  0 <= i_annual ->
  forall (b p : list R) (k : nat) (U : R),
    length b = length p ->
    premium_loop i_annual (combine b p) (Z.of_nat k) U
    = Ok (U + sigma k (length b)
                (fun m => Rpower (1 + i_annual) (- INR m / 12)
                          * nth (m - k) p 0 * nth (m - k) b 0)).
Proof.
  intros Hi. induction b as [|x b IH]; intros p k U L.
  - cbn. f_equal. ring.
  - destruct p as [|y p]; [discriminate|]. injection L as L.
    cbn [combine premium_loop length].
    rewrite float_pow_discount by (exact Hi || apply month_exponent_Z).
    cbn [bind].
    rewrite index_Z, IH by exact L. f_equal.
    rewrite sigma_cons. cbv beta. rewrite Nat.sub_diag.
    change (nth 0 (y :: p) 0) with y. change (nth 0 (x :: b) 0) with x.
    rewrite <- INR_IZR_INZ.
    rewrite (sigma_ext (S k) (length b) _
               (fun m => Rpower (1 + i_annual) (- INR m / 12)
                         * nth (m - k) (y :: p) 0 * nth (m - k) (x :: b) 0)).
    + ring.
    + intros m Hm. replace (m - k)%nat with (S (m - S k)) by lia.
      reflexivity.
Qed.

Lemma annuity_loop_spec (i_annual : R) :
  0 <= i_annual ->
  forall (survs : list R) (k : nat) (pv : R),
    annuity_loop i_annual survs (Z.of_nat k) pv
    = Ok (pv + sigma k (length survs)
                 (fun idx => Rpower (1 + i_annual) (- INR idx / 12)
                             * nth (idx - k) survs 0)).
Proof.
  intros Hi. induction survs as [|s survs IH]; intros k pv.
  - cbn. f_equal. ring.
  - cbn [annuity_loop length].
    rewrite float_pow_discount by (exact Hi || apply month_exponent_Z).
    cbn [bind].
    rewrite index_Z, IH. f_equal.
    rewrite sigma_cons. cbv beta. rewrite Nat.sub_diag.
    change (nth 0 (s :: survs) 0) with s.
    rewrite <- INR_IZR_INZ.
    rewrite (sigma_ext (S k) (length survs) _
               (fun idx => Rpower (1 + i_annual) (- INR idx / 12)
                           * nth (idx - k) (s :: survs) 0)).
    + ring.
    + intros m Hm. replace (m - k)%nat with (S (m - S k)) by lia.
      reflexivity.
Qed.


(** C7. Whenever the balance sequence and the death-probability sequence
    differ in length, [single_premium_monthly] raises the [ValueError] on
    inconsistent dimensions, whatever the rate: no value is computed, in
    particular none over the shorter length. *)
Theorem C7_dimension_mismatch
  (crd_end_of_month death_probs_monthly : list R) (i_annual : R) :
  length crd_end_of_month <> length death_probs_monthly ->
  single_premium_monthly crd_end_of_month death_probs_monthly i_annual
  = Err (ValueError
      "Dimensions incohérentes: CRD mensuel vs probas décès mensuelles.").
Proof.
  intros H. unfold single_premium_monthly.
  destruct (Nat.eqb_spec (length crd_end_of_month)
              (length death_probs_monthly)) as [E|_]; [contradiction|].
  reflexivity.
Qed.

(** A run of C7: 240 balances against 180 death probabilities. *)
Lemma C7_dimension_mismatch_witness :
  length (repeat 1000 240) <> length (repeat (1 / 1000) 180) /\
  single_premium_monthly (repeat 1000 240) (repeat (1 / 1000) 180) (2 / 100)
  = Err (ValueError
      "Dimensions incohérentes: CRD mensuel vs probas décès mensuelles.").
Proof.
  assert (H : length (repeat 1000 240) <> length (repeat (1 / 1000) 180))
    by (rewrite !repeat_length; discriminate).
  split; [exact H|].
  exact (C7_dimension_mismatch (repeat 1000 240) (repeat (1 / 1000) 180)
           (2 / 100) H).
Defined.



(** Below the rates the application passes: at -1 the discount factor is
    a negative power of 0, and the call raises. *)
Lemma premium_raises_at_minus_1 :
  length [1000] = length [0] /\
  Forall (fun p => p = 0) [0] /\
  single_premium_monthly [1000] [0] (-1) = Err ZeroDivisionError.
Proof.
  split; [reflexivity|]. split; [repeat constructor|].
  unfold single_premium_monthly. cbn [length Nat.eqb combine premium_loop].
  rewrite float_pow_zero_neg by lra. reflexivity.
Qed.

Lemma survivals_head (q : R) (rest : list R) :
  exists tl, spec_monthly_from spec_survival 1 (q :: rest) = 1 :: tl.
Proof.
  rewrite spec_monthly_from_cons.
  change (seq 1 12) with (1%nat :: seq 2 11). cbn [map app].
  rewrite spec_survival_first. eauto.
Qed.

(** C9. For a non-empty list of years the survival sequence has [12 * n]
    elements and starts with exactly 1; with a technical rate, a fraction
    [taux_ass / 100.0 >= 0], [pv_monthly_premiums_due] returns the sum
    over idx = 0..N-1 of (1 + i)^(-idx/12) * survivalToStart[idx], whose
    first term carries the discount factor 1: the first premium is paid
    at time 0 with certainty and is not discounted. *)
Theorem C9_annuity_due (q_by_year : list R) (i_annual : R) :
  q_by_year <> [] ->
  0 <= i_annual ->
  exists survs,
    monthly_survival_to_month_start_from_annual_q q_by_year = Ok survs /\
    length survs = (12 * length q_by_year)%nat /\
    nth_error survs 0 = Some 1 /\
    pv_monthly_premiums_due survs i_annual
    = Ok (spec_annuity_due survs i_annual) /\
    Rpower (1 + i_annual) (- INR 0 / 12) = 1.
Proof.
  intros NE Hi.
  exists (spec_monthly_from spec_survival 1 q_by_year).
  split; [apply survival_loop_spec|].
  split; [apply spec_monthly_from_length|].
  split.
  { destruct q_by_year as [|q rest]; [contradiction|].
    destruct (survivals_head q rest) as [tl ->]. reflexivity. }
  split.
  - unfold pv_monthly_premiums_due. change 0%Z with (Z.of_nat 0).
    rewrite annuity_loop_spec by exact Hi. unfold spec_annuity_due. f_equal.
    rewrite Rplus_0_l. apply sigma_ext. intros m _.
    now rewrite Nat.sub_0_r.
  - cbn [INR]. replace (- 0 / 12) with 0 by field.
    apply Rpower_O. lra.
Qed.

(** A run of C9: two years at a technical rate of 2 %. *)
Lemma C9_annuity_due_witness :
  exists survs,
    monthly_survival_to_month_start_from_annual_q [1 / 100; 2 / 100]
    = Ok survs /\
    length survs = (12 * length [1 / 100; 2 / 100])%nat /\
    nth_error survs 0 = Some 1 /\
    pv_monthly_premiums_due survs (2 / 100)
    = Ok (spec_annuity_due survs (2 / 100)) /\
    Rpower (1 + 2 / 100) (- INR 0 / 12) = 1.
Proof.
  apply (C9_annuity_due [1 / 100; 2 / 100] (2 / 100)).
  - discriminate.
  - lra.
Defined.

(** Below the rates the application passes: at -1 the second discount
    factor is a negative power of 0. *)
Lemma annuity_raises_at_minus_1 (s0 s1 : R) (rest : list R) :
  pv_monthly_premiums_due (s0 :: s1 :: rest) (-1) = Err ZeroDivisionError.
Proof.
  unfold pv_monthly_premiums_due. cbn [annuity_loop].
  rewrite float_pow_zero_zero by lra. cbn [bind].
  change (0 + 1)%Z with 1%Z.
  rewrite float_pow_zero_neg by lra. reflexivity.
Qed.

(** So it is for the survival sequence of one year with q = 0. *)
Lemma annuity_of_a_year_raises_at_minus_1 :
  exists survs,
    monthly_survival_to_month_start_from_annual_q [0] = Ok survs /\
    pv_monthly_premiums_due survs (-1) = Err ZeroDivisionError.
Proof.
  exists (spec_monthly_from spec_survival 1 [0]).
  split; [apply survival_loop_spec|].
  rewrite spec_monthly_from_cons.
  change (seq 1 12) with (1%nat :: 2%nat :: seq 3 10). cbn [map app].
  apply annuity_raises_at_minus_1.
Qed.

End Pricing.

(** * Further properties of the code *)

(** ** The ledger of [LoanCore.tableau_amortissement] *)

Section LedgerFacts.
Import QFloat LoanCore LoanSpec Ledger.
Open Scope Q_scope.

Lemma amort_rows_booked (mens i_m : Q) (N : Z) (months : list Z) :
  forall (crd : Q) (k : nat) (r : row),
    nth_error (amort_rows mens i_m N months crd) k = Some r ->
    nth_error months k = Some (Mois r) /\
    booked i_m (balance_before crd (amort_rows mens i_m N months crd) k) r.
Proof.
  induction months as [|m rest IH]; intros crd k r H.
  - destruct k; discriminate.
  - cbn [amort_rows] in H |- *. destruct k as [|k].
    + destruct (m =? N)%Z; cbn in H; injection H as <-;
        (split; [reflexivity|]); unfold booked, balance_before; cbn;
        repeat split; ring.
    + destruct (m =? N)%Z; cbn [nth_error] in H;
        apply IH in H; destruct H as [H1 H2]; (split; [exact H1|]);
        exact H2.
Qed.

Lemma range_nth_error (lo hi : Z) (k : nat) (m : Z) :
  nth_error (range lo hi) k = Some m -> m = (lo + Z.of_nat k)%Z.
Proof.
  unfold range. rewrite nth_error_map.
  destruct (nth_error (seq 0 (Z.to_nat (hi - lo))) k) as [j|] eqn:E;
    [|discriminate].
  intros H. injection H as <-.
  assert (L : (k < length (seq 0 (Z.to_nat (hi - lo))))%nat)
    by (apply nth_error_Some; congruence).
  apply nth_error_nth with (d := 0%nat) in E.
  rewrite length_seq in L. rewrite seq_nth in E by exact L. subst j. lia.
Qed.

(** X1. In a returned schedule, before the display rounding, the rows are
    numbered 1, 2, ... in order and each one books the balance due before
    it: interest = balance * monthly rate, payment = interest + principal
    portion, new balance = balance - principal portion. *)
Theorem X1_rows_booked
  (capital : Q) (duree_annees : Z) (taux_annuel : Q) (s : schedule) :
  tableau_amortissement capital duree_annees taux_annuel = Ok s ->
  let i_m := taux_annuel / 12 in
  let rows := rows_of capital (duree_annees * 12) i_m (mensualite s) in
  df s = map round_row rows /\
  forall (k : nat) (r : row),
    nth_error rows k = Some r ->
    Mois r = (Z.of_nat k + 1)%Z /\
    booked i_m (balance_before capital rows k) r.
Proof.
  intros T i_m rows.
  destruct (tableau_amortissement_inv _ _ _ _ T) as (_ & raw & _ & M & D & _).
  split; [unfold rows, i_m; rewrite M; exact D|].
  intros k r H. unfold rows, rows_of in H.
  destruct (amort_rows_booked _ _ _ _ _ _ _ H) as [Hm Hb].
  apply range_nth_error in Hm. split; [lia | exact Hb].
Qed.

(** The schedule of a run, rebuilt from the payment formula. *)
Lemma schedule_of_run
  (capital : Q) (duree_annees : Z) (taux_annuel : Q) :
  (0 < duree_annees)%Z -> 0 <= taux_annuel ->
  exists s, tableau_amortissement capital duree_annees taux_annuel = Ok s.
Proof.
  intros Hd Ht.
  destruct (raw_mensualite_ok capital (duree_annees * 12) (taux_annuel / 12))
    as [raw R]; [lia | apply Qle_shift_div_l; [reflexivity|lra] |].
  eexists. exact (tableau_amortissement_run _ _ _ _ Hd R).
Qed.

(** A run of X1. *)
Lemma X1_rows_booked_witness :
  exists s,
    tableau_amortissement 1200 1 (35 # 1000) = Ok s /\
    forall (k : nat) (r : row),
      nth_error (rows_of 1200 (1 * 12) ((35 # 1000) / 12) (mensualite s)) k
      = Some r ->
      Mois r = (Z.of_nat k + 1)%Z /\
      booked ((35 # 1000) / 12)
        (balance_before 1200
           (rows_of 1200 (1 * 12) ((35 # 1000) / 12) (mensualite s)) k) r.
Proof.
  destruct (schedule_of_run 1200 1 (35 # 1000)) as [s T];
    [reflexivity | discriminate |].
  exists s. split; [exact T|].
  apply (X1_rows_booked 1200 1 (35 # 1000) s T).
Defined.

Lemma tableau_amortissement_cost
  (capital : Q) (duree_annees : Z) (taux_annuel : Q) (s : schedule) :
  tableau_amortissement capital duree_annees taux_annuel = Ok s ->
  cout_total s
  = round2 (Qsum (map Valeur_mensualite (df s)) - capital).
Proof.
  unfold tableau_amortissement.
  destruct (Z.leb_spec (duree_annees * 12) 0) as [L|L]; [discriminate|].
  destruct (raw_mensualite _ _ _) as [raw|e]; [|discriminate].
  cbn [bind]. intros E. injection E as <-. reflexivity.
Qed.

Lemma Qsum_split (rows : list row) :
  (forall r, In r rows ->
     Valeur_mensualite r == Interets r + Capital_rembourse r) ->
  Qsum (map Valeur_mensualite rows)
  == Qsum (map Interets rows) + Qsum (map Capital_rembourse rows).
Proof.
  induction rows as [|r rows IH]; intros H; cbn [map Qsum]; [ring|].
  rewrite (H r) by now left.
  rewrite IH by (intros r' I; apply H; now right). ring.
Qed.

(** X2. Before the display rounding the payments of a returned schedule
    add up to the capital plus the interests.  The two returned totals,
    computed from the rounded columns, therefore differ by at most one
    cent per row plus one cent: [cout_total] is [total_interets] up to
    0.01 * (N + 1). *)
Theorem X2_cost_is_interest
  (capital : Q) (duree_annees : Z) (taux_annuel : Q) (s : schedule) :
  tableau_amortissement capital duree_annees taux_annuel = Ok s ->
  let rows :=
    rows_of capital (duree_annees * 12) (taux_annuel / 12) (mensualite s) in
  Qsum (map Valeur_mensualite rows) - capital == Qsum (map Interets rows) /\
  Qabs (cout_total s - total_interets s)
  <= (1 # 100) * inject_Z (12 * duree_annees) + (1 # 100).
Proof.
  intros T rows.
  destruct (tableau_amortissement_inv _ _ _ _ T)
    as (Hd & raw & _ & M & D & TI).
  pose proof (tableau_amortissement_cost _ _ _ _ T) as CT.
  assert (Dr : df s = map round_row rows) by (unfold rows; rewrite M; exact D).
  assert (Raw : Qsum (map Valeur_mensualite rows) - capital
                == Qsum (map Interets rows)).
  { rewrite Qsum_split.
    - unfold rows. rewrite rows_of_sum by lia. ring.
    - intros r I. apply In_nth_error in I. destruct I as [k I].
      destruct (amort_rows_booked _ _ _ _ _ _ _ I) as (_ & _ & V & _).
      exact V. }
  split; [exact Raw|].
  rewrite CT, TI, Dr.
  rewrite (map_round_row_col rows Valeur_mensualite) by reflexivity.
  rewrite (map_round_row_col rows Interets) by reflexivity.
  destruct (Qsum_round2 (map Valeur_mensualite rows)) as [V1 V2].
  destruct (Qsum_round2 (map Interets rows)) as [I1 I2].
  rewrite !length_map in V1, V2, I1, I2.
  assert (Len : length rows = Z.to_nat (12 * duree_annees)).
  { unfold rows. rewrite rows_of_length. f_equal. lia. }
  rewrite Len, Z2Nat.id in V1, V2, I1, I2 by lia.
  destruct (round2_near (Qsum (map round2 (map Valeur_mensualite rows))
                         - capital)) as [C1 C2].
  destruct (round2_near (Qsum (map round2 (map Interets rows)))) as [T1 T2].
  apply Qabs_Qle_condition. split; lra.
Qed.

(** A run of X2. *)
Lemma X2_cost_is_interest_witness :
  exists s,
    tableau_amortissement 1200 1 (35 # 1000) = Ok s /\
    Qabs (cout_total s - total_interets s)
    <= (1 # 100) * inject_Z (12 * 1) + (1 # 100).
Proof.
  destruct (schedule_of_run 1200 1 (35 # 1000)) as [s T];
    [reflexivity | discriminate |].
  exists s. split; [exact T|].
  apply (X2_cost_is_interest 1200 1 (35 # 1000) s T).
Defined.

Lemma Qsum_const (c : Q) (l : list Q) :
  Forall (fun x => x == c) l ->
  Qsum l == inject_Z (Z.of_nat (length l)) * c.
Proof.
  induction 1 as [|x l Hx _ IH].
  - cbn [Qsum length]. change (inject_Z (Z.of_nat 0)) with 0. ring.
  - cbn [Qsum length]. rewrite Nat2Z.inj_succ, <- Z.add_1_r, inject_Z_plus.
    change (inject_Z 1) with 1. rewrite Hx, IH. ring.
Qed.

Lemma body_principal_zero_rate (mens i_m : Q) (N : Z) (months : list Z) :
  i_m == 0 -> ~ In N months ->
  forall crd,
    Forall (fun x => x == mens)
           (map Capital_rembourse (amort_rows mens i_m N months crd)).
Proof.
  intros Z0. induction months as [|m rest IH]; intros NI crd; [constructor|].
  cbn [amort_rows].
  destruct (Z.eqb_spec m N) as [E|E]; [exfalso; apply NI; now left|].
  cbn [map Capital_rembourse]. constructor.
  - rewrite Z0. ring.
  - apply IH. intros I. apply NI. now right.
Qed.

(** X3. At an annual rate of 0 the last payment takes up what the rounded
    payment leaves over: before the display rounding it is the capital
    minus [N - 1] rounded payments, and it differs from the rounded
    payment by at most half a cent per month of the term. *)
Theorem X3_zero_rate_last_payment
  (capital : Q) (duree_annees : Z) (taux_annuel : Q) :
  (0 < duree_annees)%Z -> taux_annuel == 0 ->
  let N := (duree_annees * 12)%Z in
  exists (s : schedule) (fin : row),
    tableau_amortissement capital duree_annees taux_annuel = Ok s /\
    last (df s) (round_row fin) = round_row fin /\
    Valeur_mensualite fin == capital - inject_Z (N - 1) * mensualite s /\
    Qabs (Valeur_mensualite fin - mensualite s) <= (1 # 200) * inject_Z N.
Proof.
  intros Hd Z0 N.
  assert (I0 : taux_annuel / 12 == 0) by (rewrite Z0; reflexivity).
  assert (Raw : raw_mensualite capital N (taux_annuel / 12)
                = Ok (capital / inject_Z N)).
  { unfold raw_mensualite.
    destruct (Qlt_le_dec (Qabs (taux_annuel / 12)) 1e-12) as [_|L].
    - unfold float_div.
      destruct (Qeq_bool (inject_Z N) 0) eqn:E; [|reflexivity].
      apply Qeq_bool_eq in E. exfalso.
      assert (0 < inject_Z N).
      { change 0 with (inject_Z 0). rewrite <- Zlt_Qlt. unfold N. lia. }
      lra.
    - exfalso. rewrite I0 in L. revert L. apply Qlt_not_le. reflexivity. }
  pose proof (tableau_amortissement_run capital duree_annees taux_annuel _
                Hd Raw) as T. cbv zeta in T. fold N in T.
  set (mens := round2 (capital / inject_Z N)) in *.
  destruct (rows_of_split capital N (taux_annuel / 12) mens) as (fin & E & S);
    [unfold N; lia|].
  set (body := amort_rows mens (taux_annuel / 12) N (range 1 N) capital) in *.
  eexists. exists fin. split; [exact T|]. cbn [df mensualite].
  split.
  { rewrite E, map_app. cbn [map]. apply last_last. }
  assert (B : last (map CRD body) capital
              == capital - inject_Z (N - 1) * mens).
  { pose proof (body_sum mens (taux_annuel / 12) N (range 1 N) capital
                  (range_not_In 1 N)) as Sum. fold body in Sum.
    pose proof (Qsum_const mens _
                  (body_principal_zero_rate mens (taux_annuel / 12) N
                     (range 1 N) I0 (range_not_In 1 N) capital)) as Cst.
    rewrite length_map, amort_rows_length, range_length in Cst.
    rewrite Z2Nat.id in Cst by (unfold N; lia).
    fold body in Cst. rewrite Cst in Sum. lra. }
  destruct S as (_ & SI & _ & SV & _).
  assert (V : Valeur_mensualite fin == capital - inject_Z (N - 1) * mens).
  { rewrite SV, SI, I0, B. ring. }
  split; [exact V|].
  rewrite V. unfold Zminus. rewrite inject_Z_plus, inject_Z_opp.
  change (inject_Z 1) with 1.
  assert (P : 0 < inject_Z N).
  { change 0 with (inject_Z 0). rewrite <- Zlt_Qlt. unfold N. lia. }
  destruct (round2_near (capital / inject_Z N)) as [R1 R2]. fold mens in R1, R2.
  assert (C : capital == inject_Z N * (capital / inject_Z N))
    by (field; lra).
  set (n := inject_Z N) in *. set (c := capital / n) in *.
  assert (H1 : 0 <= n * ((1 # 200) - (mens - c)))
    by (apply Qmult_le_0_compat; lra).
  assert (H2 : 0 <= n * ((1 # 200) - (c - mens)))
    by (apply Qmult_le_0_compat; lra).
  apply Qabs_Qle_condition. split; rewrite C; lra.
Qed.

(** A run of X3: 100000 over 10 years at rate 0. *)
Lemma X3_zero_rate_last_payment_witness :
  exists (s : schedule) (fin : row),
    tableau_amortissement 100000 10 0 = Ok s /\
    last (df s) (round_row fin) = round_row fin /\
    Valeur_mensualite fin
    == 100000 - inject_Z (10 * 12 - 1) * mensualite s /\
    Qabs (Valeur_mensualite fin - mensualite s)
    <= (1 # 200) * inject_Z (10 * 12).
Proof.
  apply (X3_zero_rate_last_payment 100000 10 0); reflexivity.
Defined.

Lemma Qpower_even_one (x : Q) (M : Z) :
  (0 < M)%Z -> x ^ (2 * M) == 1 -> x == 1 \/ x == -1.
Proof.
  intros HM H. rewrite Qpower_mult in H.
  assert (Y : x ^ 2 == x * x) by reflexivity.
  assert (Y0 : 0 <= x * x) by nra.
  destruct (Q_dec (x * x) 1) as [[Lt|Gt]|E].
  - exfalso. destruct (Qeq_dec (x * x) 0) as [E0|N0].
    + rewrite Y, E0, Qpower_0 in H by lia. discriminate.
    + assert (P : 0 < x * x) by (apply Qle_lteq in Y0; destruct Y0 as [L|L];
                                  [exact L | exfalso; apply N0; now symmetry]).
      assert (I : 1 < / (x * x)).
      { apply Qlt_shift_inv_l; [exact P | lra]. }
      pose proof (Qpower_1_lt _ M I HM) as G.
      rewrite Qinv_power in G. rewrite <- Y, H in G. revert G.
      apply Qle_not_lt. discriminate.
  - exfalso. pose proof (Qpower_1_lt _ M Gt HM) as G.
    rewrite <- Y, H in G. revert G. apply Qlt_irrefl.
  - assert (F : (x - 1) * (x + 1) == 0) by lra.
    apply Qmult_integral in F. destruct F as [F|F]; [left|right]; lra.
Qed.

(** X4. With a positive term, [tableau_amortissement] raises
    [ZeroDivisionError] at the annual rates -12 and -24, whatever the
    capital, and at no other rate: at -12 the base of the power is 0, at
    -24 the denominator [1 - (1 + i_m) ** (-n_mois)] is 0 (the base is -1
    and the number of months is even).  The only other exception it
    raises is the [OverflowError] of a power out of range. *)
Theorem X4_raises_at_two_rates
  (capital : Q) (duree_annees : Z) (taux_annuel : Q) :
  (0 < duree_annees)%Z ->
  (taux_annuel == -12 \/ taux_annuel == -24 ->
   tableau_amortissement capital duree_annees taux_annuel
   = Err ZeroDivisionError) /\
  (tableau_amortissement capital duree_annees taux_annuel
   = Err ZeroDivisionError ->
   taux_annuel == -12 \/ taux_annuel == -24) /\
  (forall e, tableau_amortissement capital duree_annees taux_annuel = Err e ->
             e = ZeroDivisionError \/ e = OverflowError).
Proof.
  intros Hd.
  set (N := (duree_annees * 12)%Z). set (i_m := taux_annuel / 12).
  assert (HN : N = (2 * (duree_annees * 6))%Z) by (unfold N; lia).
  assert (Run : forall e,
    raw_mensualite capital N i_m = Err e ->
    tableau_amortissement capital duree_annees taux_annuel = Err e).
  { intros e R. unfold tableau_amortissement. fold N i_m.
    destruct (Z.leb_spec N 0) as [L|L]; [unfold N in L; lia|].
    now rewrite R. }
  assert (Inv : forall e,
    tableau_amortissement capital duree_annees taux_annuel = Err e ->
    raw_mensualite capital N i_m = Err e).
  { intros e. unfold tableau_amortissement. fold N i_m.
    destruct (Z.leb_spec N 0) as [L|L]; [unfold N in L; lia|].
    destruct (raw_mensualite capital N i_m) as [raw|e'] eqn:R; cbn [bind];
      [discriminate | intros E; injection E as <-; reflexivity]. }
  assert (Big : taux_annuel == -12 \/ taux_annuel == -24 ->
                exists L, Qlt_le_dec (Qabs i_m) 1e-12 = right L).
  { intros H. destruct (Qlt_le_dec (Qabs i_m) 1e-12) as [S|L]; [|eauto].
    exfalso. apply Qabs_Qlt_condition in S. unfold i_m in S.
    destruct S as [S1 S2].
    assert (- (1e-12) * 12 < taux_annuel) by (apply Qlt_shift_div_r in S1; [exact S1 | reflexivity]).
    assert (E12 : - (1e-12) * 12 == - (12 # 1000000000000)) by reflexivity.
    destruct H as [H|H]; rewrite H, E12 in H0; revert H0;
      apply Qle_not_lt; discriminate. }
  assert (Cases : forall e, raw_mensualite capital N i_m = Err e ->
    (e = ZeroDivisionError /\ (taux_annuel == -12 \/ taux_annuel == -24))
    \/ e = OverflowError).
  { intros e. unfold raw_mensualite.
    destruct (Qlt_le_dec (Qabs i_m) 1e-12) as [S|L].
    - unfold float_div.
      destruct (Qeq_bool (inject_Z N) 0) eqn:E; [|discriminate].
      apply Qeq_bool_eq in E. exfalso.
      assert (0 < inject_Z N).
      { change 0 with (inject_Z 0). rewrite <- Zlt_Qlt. unfold N. lia. }
      lra.
    - unfold float_pow_int.
      destruct (Qeq_bool (1 + i_m) 0) eqn:B.
      { replace (- N <? 0)%Z with true
          by (symmetry; apply Z.ltb_lt; unfold N; lia).
        cbn [andb bind]. intros E. injection E as <-.
        left. split; [reflexivity|]. left.
        apply Qeq_bool_eq in B. unfold i_m in B.
        assert (taux_annuel == (1 + taux_annuel / 12) * 12 - 12) by field.
        rewrite H, B. reflexivity. }
      cbn [andb].
      destruct (Qle_bool overflow_bound (Qabs ((1 + i_m) ^ (- N)))).
      { cbn [bind]. intros E. injection E as <-. now right. }
      cbn [bind]. unfold float_div.
      destruct (Qeq_bool (1 - (1 + i_m) ^ (- N)) 0) eqn:D; [|discriminate].
      cbn [bind]. intros E. injection E as <-.
      left. split; [reflexivity|]. right.
      apply Qeq_bool_eq in D.
      assert (P : (1 + i_m) ^ (- N) == 1) by lra.
      rewrite Qpower_opp in P.
      assert (P' : (1 + i_m) ^ N == 1).
      { rewrite <- (Qinv_involutive ((1 + i_m) ^ N)), P. reflexivity. }
      rewrite HN in P'.
      assert (H6 : (0 < duree_annees * 6)%Z) by lia.
      destruct (Qpower_even_one _ _ H6 P') as [X|X].
      + exfalso. assert (I0 : i_m == 0) by lra.
        pose proof (Qabs_wd _ _ I0) as A. change (Qabs 0) with 0 in A.
        assert (0 < 1e-12) by reflexivity. lra.
      + unfold i_m in X.
        assert (taux_annuel == (1 + taux_annuel / 12) * 12 - 12) by field.
        rewrite H, X. reflexivity. }
  split; [|split].
  - intros H. apply Run. unfold raw_mensualite.
    destruct (Big H) as [L ->]. destruct H as [H|H].
    + assert (B : Qeq_bool (1 + i_m) 0 = true).
      { apply Qeq_eq_bool. unfold i_m. rewrite H. reflexivity. }
      unfold float_pow_int. rewrite B.
      replace (- N <? 0)%Z with true by (symmetry; apply Z.ltb_lt; unfold N; lia).
      reflexivity.
    + assert (X : 1 + i_m == -1) by (unfold i_m; rewrite H; reflexivity).
      assert (P : (1 + i_m) ^ (- N) == 1).
      { rewrite X, Qpower_opp, HN, Qpower_mult.
        assert (S1 : (-1) ^ 2 == 1) by reflexivity.
        rewrite S1, Qpower_1. reflexivity. }
      rewrite float_pow_int_in_range.
      * cbn [bind]. unfold float_div.
        assert (D : Qeq_bool (1 - (1 + i_m) ^ (- N)) 0 = true).
        { apply Qeq_eq_bool. rewrite P. reflexivity. }
        rewrite D. reflexivity.
      * rewrite X. discriminate.
      * pose proof (Qabs_wd _ _ P) as A. change (Qabs 1) with 1 in A.
        pose proof overflow_bound_gt_1. lra.
  - intros T. destruct (Cases _ (Inv _ T)) as [[_ H]|H];
      [exact H | discriminate].
  - intros e T. destruct (Cases _ (Inv _ T)) as [[H _]|H]; [now left|now right].
Qed.

(** A run of X4: one year at the rates -12 and -24. *)
Lemma X4_raises_at_two_rates_witness :
  tableau_amortissement 1000 1 (-12) = Err ZeroDivisionError /\
  tableau_amortissement 1000 1 (-24) = Err ZeroDivisionError.
Proof.
  split.
  - apply (X4_raises_at_two_rates 1000 1 (-12)); [reflexivity|].
    left. reflexivity.
  - apply (X4_raises_at_two_rates 1000 1 (-24)); [reflexivity|].
    right. reflexivity.
Defined.

(** The other exception: at the rate -11.875 over 30 years the power
    [(1 - 95/96) ** (-360)] is [96 ** 360], beyond the doubles. *)
Example overflow_at_minus_11_875 :
  tableau_amortissement 100000 30 (- (11875 # 1000)) = Err OverflowError.
Proof. vm_compute. reflexivity. Qed.

(** X18. In a returned schedule the monthly payment is a whole number of
    cents, there are [12 * duree_annees] rows, and every row before the
    last one carries exactly that payment, after the display rounding
    too: the payment is rounded once, before the loop, and the loop
    never recomputes it. *)
Theorem X18_payment_in_every_row
  (capital : Q) (duree_annees : Z) (taux_annuel : Q) (s : schedule) :
  tableau_amortissement capital duree_annees taux_annuel = Ok s ->
  (exists cents : Z, mensualite s == inject_Z cents / 100) /\
  length (df s) = Z.to_nat (12 * duree_annees) /\
  (forall (k : nat) (r : row),
     (S k < length (df s))%nat -> nth_error (df s) k = Some r ->
     Valeur_mensualite r == mensualite s).
Proof.
  intros T.
  destruct (tableau_amortissement_inv _ _ _ _ T) as (Hd & raw & R & M & D & _).
  split; [|split].
  - exists (rint (raw * 100)). rewrite M. reflexivity.
  - rewrite D, length_map, rows_of_length. f_equal. lia.
  - intros k r Hk Hr.
    destruct (rows_of_split capital (duree_annees * 12) (taux_annuel / 12)
                (round2 raw)) as (fin & E & _); [lia|].
    rewrite D, E, map_app in Hr, Hk. rewrite length_app in Hk.
    cbn [map length] in Hk.
    rewrite nth_error_app1 in Hr by lia.
    rewrite nth_error_map in Hr.
    destruct (nth_error _ k) as [r0|] eqn:N0; [|discriminate].
    injection Hr as <-.
    pose proof (body_payment (round2 raw) (taux_annuel / 12) (duree_annees * 12)
                  (range 1 (duree_annees * 12)) capital
                  (range_not_In 1 (duree_annees * 12))) as F.
    rewrite Forall_forall in F. specialize (F r0 (nth_error_In _ _ N0)).
    cbn [round_row Valeur_mensualite]. rewrite F, M. apply round2_idem.
Qed.

(** A run of X18: 1200 over one year at 3.5 % a year. *)
Lemma X18_payment_in_every_row_witness :
  exists s,
    tableau_amortissement 1200 1 (35 # 1000) = Ok s /\
    (exists cents : Z, mensualite s == inject_Z cents / 100) /\
    length (df s) = Z.to_nat (12 * 1) /\
    (forall (k : nat) (r : row),
       (S k < length (df s))%nat -> nth_error (df s) k = Some r ->
       Valeur_mensualite r == mensualite s).
Proof.
  destruct (schedule_of_run 1200 1 (35 # 1000)) as [s T];
    [reflexivity | discriminate |].
  exists s. split; [exact T|].
  apply (X18_payment_in_every_row 1200 1 (35 # 1000) s T).
Defined.

End LedgerFacts.

(** ** [LoanCoreMonth0.tableau_amortissement], the variant with a month-0 row *)

Section Month0Facts.
Import QFloat LoanCoreMonth0.
Open Scope Q_scope.

Lemma annuity_denominator (i : Q) (N : Z) :
  0 < i -> (0 < N)%Z -> ~ 1 - (1 + i) ^ (- N) == 0.
Proof.
  intros Hi HN E.
  assert (G : 1 < (1 + i) ^ N) by (apply Qpower_1_lt; [lra|exact HN]).
  rewrite Qpower_opp in E.
  assert (I : / (1 + i) ^ N == 1) by lra.
  assert (M : (1 + i) ^ N * / (1 + i) ^ N == 1) by (apply Qmult_inv_r; lra).
  rewrite I in M. lra.
Qed.

Lemma month_rows_spec (mens t : Q) (months : list Z) :
  forall prev : Q,
  exists tl,
    month_rows mens t months prev = Ok tl /\
    map Mensualite tl = months /\
    Forall (fun r => Valeur_mensualite r = mens) tl /\
    Forall (fun r => Valeur_mensualite r
                     == Interets r + Capital_rembourse r) tl /\
    Qsum (map Capital_rembourse tl)
    == prev - last (map Capital_restant_du tl) prev /\
    (t == 0 -> Forall (fun r => Interets r == 0) tl /\
               Forall (fun x => x == mens) (map Capital_rembourse tl)).
Proof.
  induction months as [|m rest IH]; intros prev.
  - exists []. cbn. repeat split; try constructor. ring.
  - cbn [month_rows].
    assert (P : exists part,
      (if Qeq_bool mens 0 then Ok 0
       else q <- float_div (prev * t) mens ;; Ok (round2 (q * 100)))
      = Ok part).
    { destruct (Qeq_bool mens 0) eqn:E; [eauto|].
      unfold float_div. rewrite E. cbn. eauto. }
    destruct P as [part ->]. cbn [bind].
    destruct (IH (prev - (mens - prev * t)))
      as (tl & -> & Hm & Hv & Hb & Hs & Hz).
    cbn [bind]. eexists. split; [reflexivity|].
    cbn [map Mensualite Valeur_mensualite Interets Capital_rembourse
         Capital_restant_du Qsum].
    split; [now rewrite Hm|].
    split; [constructor; [reflexivity|exact Hv]|].
    split; [constructor; [cbn; ring|exact Hb]|].
    split.
    + rewrite last_cons_default, Hs. ring.
    + intros Z0. destruct (Hz Z0) as [Hi Hc].
      split; constructor; try assumption; cbn; rewrite Z0; ring.
Qed.

(** What the function returns once the three checks are passed. *)
Lemma month0_run (capital : Q) (duree_annees : Z) (taux_annuel : Q) :
  0 < capital -> (0 < duree_annees)%Z -> 0 <= taux_annuel ->
  let N := (12 * duree_annees)%Z in
  let t := taux_annuel / 12 in
  exists mens tl,
    month_rows mens t (range 1 (N + 1)) capital = Ok tl /\
    (t == 0 -> mens = round2 (capital / inject_Z N)) /\
    (exists raw, mens = round2 raw) /\
    tableau_amortissement capital duree_annees taux_annuel
    = Ok (mkSchedule mens
            (map round_row (mkRow 0 0 0 0 capital 0 :: tl))
            (round2 (Qsum (map Interets
               (filter (fun r => (0 <? Mensualite r)%Z)
                  (map round_row (mkRow 0 0 0 0 capital 0 :: tl))))))
            (round2 (Qsum (map Valeur_mensualite
               (filter (fun r => (0 <? Mensualite r)%Z)
                  (map round_row (mkRow 0 0 0 0 capital 0 :: tl))))
                     - capital))).
Proof.
  intros Hc Hd Ht N t. unfold tableau_amortissement.
  assert (C : Qle_bool capital 0 = false).
  { destruct (Qle_bool capital 0) eqn:E; [|reflexivity].
    apply Qle_bool_imp_le in E. exfalso. lra. }
  assert (D : (duree_annees <=? 0)%Z = false) by (apply Z.leb_gt; exact Hd).
  assert (T : Qle_bool 0 taux_annuel = true) by (apply Qle_bool_iff; exact Ht).
  rewrite C, D, T. cbn [negb]. fold N t.
  assert (PN : 0 < inject_Z N).
  { change 0 with (inject_Z 0). rewrite <- Zlt_Qlt. unfold N. lia. }
  assert (M : exists mens,
    (if Qeq_bool t 0
     then q <- float_div capital (inject_Z N) ;; Ok (round2 q)
     else p <- float_pow_int (1 + t) (- N) ;;
          d <- float_div t (1 - p) ;; Ok (round2 (capital * d)))
    = Ok mens /\
    (t == 0 -> mens = round2 (capital / inject_Z N)) /\
    (exists raw, mens = round2 raw)).
  { destruct (Qeq_bool t 0) eqn:E.
    - unfold float_div.
      destruct (Qeq_bool (inject_Z N) 0) eqn:E'.
      + apply Qeq_bool_eq in E'. exfalso. lra.
      + cbn. eauto.
    - apply Qeq_bool_neq in E.
      assert (Pt : 0 < t).
      { assert (0 <= t) by (unfold t; apply Qle_shift_div_l; [reflexivity|lra]).
        apply Qle_lteq in H. destruct H as [H|H]; [exact H|].
        exfalso. apply E. now symmetry. }
      rewrite float_pow_int_discount by (lra || (unfold N; lia)).
      cbn [bind]. unfold float_div.
      destruct (Qeq_bool (1 - (1 + t) ^ (- N)) 0) eqn:Dn.
      + apply Qeq_bool_eq in Dn. exfalso.
        apply (annuity_denominator t N Pt); [unfold N; lia | exact Dn].
      + cbn. eexists. split; [reflexivity|].
        split; [intros Z0; contradiction | eauto]. }
  destruct M as (mens & -> & Mz & Mr). cbn [bind].
  destruct (month_rows_spec mens t (range 1 (N + 1)) capital)
    as (tl & R & _).
  exists mens, tl. rewrite R. cbn [bind].
  split; [reflexivity|]. split; [exact Mz|]. split; [exact Mr | reflexivity].
Qed.

(** The rates at which [1 + taux_mensuel] is not absorbed into 1: the
    rate 0, which takes the branch without a power, and the rates from
    [12e-12] on, the threshold of the other generator. *)
Lemma rate_accepted (taux_annuel : Q) :
  taux_annuel == 0 \/ 12e-12 <= taux_annuel -> 0 <= taux_annuel.
Proof.
  intros [E|L]; [rewrite E; discriminate|].
  apply Qle_trans with 12e-12; [discriminate | exact L].
Qed.

(** X5. The month-0 variant checks its three inputs in the order capital,
    term, rate and raises the [ValueError] of the first one that fails;
    when all three pass and the rate is 0 or at least [12e-12], it
    raises nothing and returns [12 * duree_annees + 1] rows, the first
    of which is month 0 with the whole capital as balance. *)
Theorem X5_month0_checks
  (capital : Q) (duree_annees : Z) (taux_annuel : Q) :
  (capital <= 0 ->
   tableau_amortissement capital duree_annees taux_annuel
   = Err (ValueError "Le capital doit être > 0.")) /\
  (0 < capital -> (duree_annees <= 0)%Z ->
   tableau_amortissement capital duree_annees taux_annuel
   = Err (ValueError "La durée doit être > 0.")) /\
  (0 < capital -> (0 < duree_annees)%Z -> taux_annuel < 0 ->
   tableau_amortissement capital duree_annees taux_annuel
   = Err (ValueError "Le taux annuel doit être >= 0.")) /\
  (0 < capital -> (0 < duree_annees)%Z ->
   taux_annuel == 0 \/ 12e-12 <= taux_annuel ->
   exists s,
     tableau_amortissement capital duree_annees taux_annuel = Ok s /\
     length (df s) = S (Z.to_nat (12 * duree_annees)) /\
     hd_error (df s) = Some (round_row (mkRow 0 0 0 0 capital 0))).
Proof.
  assert (Cn : 0 < capital -> Qle_bool capital 0 = false).
  { intros H. destruct (Qle_bool capital 0) eqn:E; [|reflexivity].
    apply Qle_bool_imp_le in E. exfalso. lra. }
  split; [|split; [|split]].
  - intros H. unfold tableau_amortissement.
    apply Qle_bool_iff in H. now rewrite H.
  - intros Hc Hd. unfold tableau_amortissement. rewrite (Cn Hc).
    apply Z.leb_le in Hd. now rewrite Hd.
  - intros Hc Hd Ht. unfold tableau_amortissement. rewrite (Cn Hc).
    apply Z.leb_gt in Hd. rewrite Hd.
    destruct (Qle_bool 0 taux_annuel) eqn:E; [|reflexivity].
    apply Qle_bool_imp_le in E. exfalso. lra.
  - intros Hc Hd Hr. pose proof (rate_accepted _ Hr) as Ht.
    destruct (month0_run capital duree_annees taux_annuel Hc Hd Ht)
      as (mens & tl & R & _ & _ & T).
    eexists. split; [exact T|]. cbn [df].
    split; [|reflexivity].
    rewrite length_map. cbn [length]. f_equal.
    destruct (month_rows_spec mens (taux_annuel / 12)
                (range 1 (12 * duree_annees + 1)) capital)
      as (tl' & R' & Hm & _).
    rewrite R in R'. apply Ok_inj in R'. subst tl'.
    rewrite <- (length_map Mensualite), Hm, range_length. f_equal. lia.
Qed.

(** A run of X5. *)
Lemma X5_month0_checks_witness :
  tableau_amortissement 0 0 (-1)
  = Err (ValueError "Le capital doit être > 0.") /\
  tableau_amortissement 1000 0 (-1)
  = Err (ValueError "La durée doit être > 0.") /\
  tableau_amortissement 1000 1 (-1)
  = Err (ValueError "Le taux annuel doit être >= 0.") /\
  exists s,
    tableau_amortissement 1000 1 (5 # 100) = Ok s /\
    length (df s) = S (Z.to_nat (12 * 1)) /\
    hd_error (df s) = Some (round_row (mkRow 0 0 0 0 1000 0)).
Proof.
  split; [|split; [|split]].
  - apply (X5_month0_checks 0 0 (-1)). discriminate.
  - apply (X5_month0_checks 1000 0 (-1)); [reflexivity | discriminate].
  - apply (X5_month0_checks 1000 1 (-1)); reflexivity.
  - apply (X5_month0_checks 1000 1 (5 # 100));
      [reflexivity | reflexivity | right; discriminate].
Defined.

(** X6. The month-0 variant has no settling row.  For inputs that pass the
    checks, at the rate 0 or a rate of at least [12e-12], before the
    display rounding, every month is paid with the
    rounded payment, payment = interest + principal portion, and the
    principal portions plus the balance left after the last month make up
    the capital.  At an annual rate of 0 that last balance is the capital
    minus N rounded payments, within half a cent per month of 0, and it
    is not forced to 0. *)
Theorem X6_month0_conservation
  (capital : Q) (duree_annees : Z) (taux_annuel : Q) :
  0 < capital -> (0 < duree_annees)%Z ->
  taux_annuel == 0 \/ 12e-12 <= taux_annuel ->
  let N := (12 * duree_annees)%Z in
  exists (s : schedule) (tl : list row),
    tableau_amortissement capital duree_annees taux_annuel = Ok s /\
    month_rows (valeur_mensualite s) (taux_annuel / 12) (range 1 (N + 1))
      capital = Ok tl /\
    df s = map round_row (mkRow 0 0 0 0 capital 0 :: tl) /\
    Forall (fun r => Valeur_mensualite r = valeur_mensualite s /\
                     Valeur_mensualite r
                     == Interets r + Capital_rembourse r) tl /\
    Qsum (map Capital_rembourse tl)
    + last (map Capital_restant_du tl) capital == capital /\
    (taux_annuel == 0 ->
     last (map Capital_restant_du tl) capital
     == capital - inject_Z N * valeur_mensualite s /\
     Qabs (last (map Capital_restant_du tl) capital)
     <= (1 # 200) * inject_Z N).
Proof.
  intros Hc Hd Hr N. pose proof (rate_accepted _ Hr) as Ht.
  destruct (month0_run capital duree_annees taux_annuel Hc Hd Ht)
    as (mens & tl & R & Mz & _ & T). fold N in R, Mz.
  destruct (month_rows_spec mens (taux_annuel / 12) (range 1 (N + 1)) capital)
    as (tl' & R' & Hm & Hv & Hb & Hs & Hz).
  rewrite R in R'. apply Ok_inj in R'. subst tl'.
  eexists. exists tl. split; [exact T|]. cbn [valeur_mensualite df].
  split; [exact R|]. split; [reflexivity|].
  split.
  { rewrite Forall_forall in *. intros r I. split; [now apply Hv | now apply Hb]. }
  split; [rewrite Hs; ring|].
  intros Z0.
  assert (T0 : taux_annuel / 12 == 0) by (rewrite Z0; reflexivity).
  destruct (Hz T0) as [_ Hc'].
  pose proof (Qsum_const mens _ Hc') as Cst.
  rewrite length_map, <- (length_map Mensualite), Hm, range_length in Cst.
  replace (N + 1 - 1)%Z with N in Cst by lia.
  rewrite Z2Nat.id in Cst by (unfold N; lia).
  assert (F : last (map Capital_restant_du tl) capital
              == capital - inject_Z N * mens) by (rewrite Cst in Hs; lra).
  split; [exact F|].
  rewrite F, (Mz T0).
  assert (P : 0 < inject_Z N).
  { change 0 with (inject_Z 0). rewrite <- Zlt_Qlt. unfold N. lia. }
  destruct (round2_near (capital / inject_Z N)) as [R1 R2].
  assert (C : capital == inject_Z N * (capital / inject_Z N)) by (field; lra).
  set (n := inject_Z N) in *. set (c := capital / n) in *.
  assert (H1 : 0 <= n * ((1 # 200) - (round2 c - c)))
    by (apply Qmult_le_0_compat; lra).
  assert (H2 : 0 <= n * ((1 # 200) - (c - round2 c)))
    by (apply Qmult_le_0_compat; lra).
  apply Qabs_Qle_condition. split; rewrite C; lra.
Qed.

(** A run of X6: 100000 over 10 years at rate 0. *)
Lemma X6_month0_conservation_witness :
  exists (s : schedule) (tl : list row),
    tableau_amortissement 100000 10 0 = Ok s /\
    month_rows (valeur_mensualite s) (0 / 12) (range 1 (12 * 10 + 1))
      100000 = Ok tl /\
    Qsum (map Capital_rembourse tl)
    + last (map Capital_restant_du tl) 100000 == 100000 /\
    last (map Capital_restant_du tl) 100000
    == 100000 - inject_Z (12 * 10) * valeur_mensualite s /\
    Qabs (last (map Capital_restant_du tl) 100000)
    <= (1 # 200) * inject_Z (12 * 10).
Proof.
  destruct (X6_month0_conservation 100000 10 0)
    as (s & tl & T & R & _ & _ & Sum & Z0);
    [reflexivity | reflexivity | left; reflexivity |].
  exists s, tl. repeat (split; [assumption|]).
  apply Z0. reflexivity.
Defined.

Lemma filter_paid (tl : list row) :
  Forall (fun m => (0 < m)%Z) (map Mensualite tl) ->
  filter (fun r => (0 <? Mensualite r)%Z) (map round_row tl)
  = map round_row tl.
Proof.
  induction tl as [|r tl IH]; intros F; [reflexivity|].
  inversion F as [|? ? Hr F']; subst. cbn [map filter round_row Mensualite].
  apply Z.ltb_lt in Hr. rewrite Hr. f_equal. now apply IH.
Qed.

(** X7. In the month-0 variant, at the rate 0 or a rate of at least
    [12e-12], all N payments are the rounded payment, so the returned
    total cost of credit is N times the rounded payment
    minus the capital, rounded to 2 decimals; the month-0 row counts for
    nothing in the totals. *)
Theorem X7_month0_cost
  (capital : Q) (duree_annees : Z) (taux_annuel : Q) :
  0 < capital -> (0 < duree_annees)%Z ->
  taux_annuel == 0 \/ 12e-12 <= taux_annuel ->
  exists s,
    tableau_amortissement capital duree_annees taux_annuel = Ok s /\
    cout_total_credit s
    == round2 (inject_Z (12 * duree_annees) * valeur_mensualite s - capital).
Proof.
  intros Hc Hd Hr. pose proof (rate_accepted _ Hr) as Ht.
  destruct (month0_run capital duree_annees taux_annuel Hc Hd Ht)
    as (mens & tl & R & _ & (raw & Mr) & T).
  destruct (month_rows_spec mens (taux_annuel / 12)
              (range 1 (12 * duree_annees + 1)) capital)
    as (tl' & R' & Hm & Hv & _).
  rewrite R in R'. apply Ok_inj in R'. subst tl'.
  eexists. split; [exact T|]. cbn [cout_total_credit valeur_mensualite].
  apply round2_comp.
  change (map round_row (mkRow 0 0 0 0 capital 0 :: tl))
    with (round_row (mkRow 0 0 0 0 capital 0) :: map round_row tl).
  cbn [filter round_row Mensualite Z.ltb Z.compare].
  rewrite filter_paid.
  - assert (V : Forall (fun x => x == mens)
                  (map Valeur_mensualite (map round_row tl))).
    { clear - Hv Mr. induction Hv as [|r l Hr _ IH]; cbn [map]; constructor;
        [|exact IH].
      cbn [round_row Valeur_mensualite]. rewrite Hr, Mr. apply round2_idem. }
    rewrite (Qsum_const mens _ V), !length_map.
    rewrite <- (length_map Mensualite), Hm, range_length.
    replace (12 * duree_annees + 1 - 1)%Z with (12 * duree_annees)%Z by lia.
    rewrite Z2Nat.id by lia. reflexivity.
  - rewrite Hm. apply Forall_forall. intros m I. apply range_In in I. lia.
Qed.

(** A run of X7. *)
Lemma X7_month0_cost_witness :
  exists s,
    tableau_amortissement 1000 1 (5 # 100) = Ok s /\
    cout_total_credit s
    == round2 (inject_Z (12 * 1) * valeur_mensualite s - 1000).
Proof.
  apply (X7_month0_cost 1000 1 (5 # 100));
    [reflexivity | reflexivity | right; discriminate].
Defined.

End Month0Facts.

(** ** More on the mortality conversion *)

Section MortalityMore.
Import App.
Open Scope R_scope.

Lemma total_mass_le (qs : list R) :
  forall S0, Forall (fun q => 0 <= q <= 1) qs -> 0 <= S0 ->
    0 <= spec_year_start_from S0 qs (length qs) /\
    Rsum (spec_monthly_from spec_death_prob S0 qs)
    + spec_year_start_from S0 qs (length qs) <= S0.
Proof.
  induction qs as [|q rest IH]; intros S0 F HS.
  - cbn. lra.
  - inversion F as [|? ? [Hq0 Hq1] F']; subst.
    rewrite spec_monthly_from_cons, Rsum_app, year_mass.
    change (spec_year_start_from S0 (q :: rest) (length (q :: rest)))
      with (spec_year_start_from (S0 * (1 - q)) rest (length rest)).
    assert (HS' : 0 <= S0 * (1 - q)) by (apply Rmult_le_pos; lra).
    destruct (IH (S0 * (1 - q)) F' HS') as [E0 E1].
    split; [exact E0|].
    pose proof (Rmax_r 1e-15 (1 - q)) as Mx.
    assert (S0 * (1 - q) <= S0 * Rmax 1e-15 (1 - q))
      by (apply Rmult_le_compat_l; lra).
    lra.
Qed.

Lemma total_mass_eq (qs : list R) :
  forall S0, Forall (fun q => q <= 1 - 1e-15) qs ->
    Rsum (spec_monthly_from spec_death_prob S0 qs)
    + spec_year_start_from S0 qs (length qs) = S0.
Proof.
  induction qs as [|q rest IH]; intros S0 F.
  - cbn. lra.
  - inversion F as [|? ? Hq F']; subst.
    rewrite spec_monthly_from_cons, Rsum_app, year_mass.
    change (spec_year_start_from S0 (q :: rest) (length (q :: rest)))
      with (spec_year_start_from (S0 * (1 - q)) rest (length rest)).
    pose proof (IH (S0 * (1 - q)) F') as E.
    rewrite Rmax_right by lra. lra.
Qed.

(** X8. When every annual value lies in [0,1], the monthly death
    probabilities over the whole term add up to at most 1 minus the
    survival to the end of the term, hence to at most 1; they add up to
    exactly that when no annual value exceeds 1 - 1e-15. *)
Theorem X8_total_death_mass (q_by_year : list R) :
  Forall (fun q => 0 <= q <= 1) q_by_year ->
  let S_end := spec_year_start q_by_year (length q_by_year) in
  exists deaths,
    monthly_death_probs_from_annual_q q_by_year = Ok deaths /\
    0 <= S_end /\
    Rsum deaths + S_end <= 1 /\
    (Forall (fun q => q <= 1 - 1e-15) q_by_year ->
     Rsum deaths + S_end = 1).
Proof.
  intros F S_end.
  exists (spec_monthly_from spec_death_prob 1 q_by_year).
  split; [apply death_loop_spec|].
  destruct (total_mass_le q_by_year 1 F ltac:(lra)) as [E0 E1].
  split; [exact E0|]. split; [exact E1|].
  intros F'. apply total_mass_eq, F'.
Qed.

(** A run of X8. *)
Lemma X8_total_death_mass_witness :
  exists deaths,
    monthly_death_probs_from_annual_q [1 / 100; 1 / 2] = Ok deaths /\
    Rsum deaths + spec_year_start [1 / 100; 1 / 2] 2 = 1.
Proof.
  destruct (X8_total_death_mass [1 / 100; 1 / 2]) as (d & A & _ & _ & E).
  - repeat constructor; lra.
  - exists d. split; [exact A|]. apply E. repeat constructor; lra.
Defined.

Lemma block_nth (f : nat -> R) (j : nat) (d : R) :
  (j < 12)%nat -> nth j (map f (seq 1 12)) d = f (S j).
Proof.
  intros H. rewrite (nth_indep _ d (f 0%nat))
    by (rewrite length_map, length_seq; exact H).
  rewrite map_nth, seq_nth by exact H. reflexivity.
Qed.

Lemma survival_next_first (S0 : R) (qs : list R) :
  nth 0 (spec_monthly_from spec_survival S0 qs
         ++ [spec_year_start_from S0 qs (length qs)]) 0 = S0.
Proof.
  destruct qs as [|q rest]; [reflexivity|].
  rewrite spec_monthly_from_cons.
  change (seq 1 12) with (1%nat :: seq 2 11). cbn [map app nth].
  apply spec_survival_first.
Qed.

Lemma death_is_drop (qs : list R) :
  forall (S0 : R) (idx : nat),
    Forall (fun q => q <= 1 - 1e-15) qs ->
    (idx < 12 * length qs)%nat ->
    nth idx (spec_monthly_from spec_death_prob S0 qs) 0
    = nth idx (spec_monthly_from spec_survival S0 qs) 0
      - nth (S idx) (spec_monthly_from spec_survival S0 qs
                     ++ [spec_year_start_from S0 qs (length qs)]) 0.
Proof.
  induction qs as [|q rest IH]; intros S0 idx F H; [cbn in H; lia|].
  inversion F as [|? ? Hq F']; subst.
  rewrite !spec_monthly_from_cons.
  change (spec_year_start_from S0 (q :: rest) (length (q :: rest)))
    with (spec_year_start_from (S0 * (1 - q)) rest (length rest)).
  rewrite <- app_assoc.
  assert (LD : length (map (spec_death_prob S0 q) (seq 1 12)) = 12%nat)
    by now rewrite length_map, length_seq.
  assert (LS : length (map (spec_survival S0 q) (seq 1 12)) = 12%nat)
    by now rewrite length_map, length_seq.
  destruct (Nat.lt_ge_cases idx 12) as [Lt|Ge].
  - rewrite !app_nth1 by lia. rewrite !block_nth by exact Lt.
    destruct (Nat.eq_dec idx 11) as [->|Ne].
    + rewrite app_nth2 by lia. rewrite LS.
      change (12 - 12)%nat with 0%nat. rewrite survival_next_first.
      unfold spec_death_prob, spec_survival.
      rewrite INR_IZR_INZ. change (Z.of_nat 12) with 12%Z.
      replace (- spec_mu q * 12 / 12) with (- spec_mu q) by field.
      rewrite exp_spec_mu, Rmax_right by lra. ring.
    + rewrite app_nth1 by lia. rewrite block_nth by lia.
      unfold spec_death_prob, spec_survival.
      rewrite (S_INR (S idx)).
      replace (INR (S idx) + 1 - 1) with (INR (S idx)) by ring. ring.
  - rewrite !app_nth2 by lia. rewrite LD, LS.
    replace (S idx - 12)%nat with (S (idx - 12)) by lia.
    apply IH; [exact F'|]. cbn [length] in H. lia.
Qed.

(** X9. The two converters agree month by month: when no annual value
    exceeds 1 - 1e-15, the probability of dying in a month is the
    survival to the start of that month minus the survival to the start
    of the next one (the survival to the end of the term after the last
    month), year boundaries included. *)
Theorem X9_death_is_survival_drop (q_by_year : list R) (idx : nat) :
  Forall (fun q => q <= 1 - 1e-15) q_by_year ->
  (idx < 12 * length q_by_year)%nat ->
  exists deaths survs,
    monthly_death_probs_from_annual_q q_by_year = Ok deaths /\
    monthly_survival_to_month_start_from_annual_q q_by_year = Ok survs /\
    nth idx deaths 0
    = nth idx survs 0
      - nth (S idx)
          (survs ++ [spec_year_start q_by_year (length q_by_year)]) 0.
Proof.
  intros F H.
  exists (spec_monthly_from spec_death_prob 1 q_by_year),
         (spec_monthly_from spec_survival 1 q_by_year).
  split; [apply death_loop_spec|]. split; [apply survival_loop_spec|].
  now apply death_is_drop.
Qed.

(** A run of X9: the last month of the first of two years. *)
Lemma X9_death_is_survival_drop_witness :
  exists deaths survs,
    monthly_death_probs_from_annual_q [1 / 100; 1 / 2] = Ok deaths /\
    monthly_survival_to_month_start_from_annual_q [1 / 100; 1 / 2]
    = Ok survs /\
    nth 11 deaths 0
    = nth 11 survs 0
      - nth 12 (survs ++ [spec_year_start [1 / 100; 1 / 2] 2]) 0.
Proof.
  apply (X9_death_is_survival_drop [1 / 100; 1 / 2] 11).
  - repeat constructor; lra.
  - cbn [length]. lia.
Defined.

End MortalityMore.

(** ** More on the present values *)

Section PricingMore.
Import App.
Open Scope R_scope.

(** A discount factor with a non-positive exponent decreases with the
    rate. *)
Lemma discount_antitone (x y e : R) :
  0 < x -> x <= y -> e <= 0 -> Rpower y e <= Rpower x e.
Proof.
  intros Hx Hxy He. unfold Rpower. apply exp_le.
  pose proof (ln_le x y Hx Hxy). nra.
Qed.

Lemma month_exponent (m : nat) : - INR m / 12 <= 0.
Proof. pose proof (pos_INR m). lra. Qed.

Lemma sigma_le (k n : nat) (f g : nat -> R) :
  (forall m, (k <= m < k + n)%nat -> f m <= g m) ->
  sigma k n f <= sigma k n g.
Proof.
  revert k. induction n as [|n IH]; intros k H.
  - unfold sigma. cbn. lra.
  - rewrite !sigma_cons.
    assert (f k <= g k) by (apply H; lia).
    assert (sigma (S k) n f <= sigma (S k) n g)
      by (apply IH; intros m Hm; apply H; lia).
    lra.
Qed.

Lemma sigma_const (k n : nat) (c : R) : sigma k n (fun _ => c) = INR n * c.
Proof.
  revert k. induction n as [|n IH]; intros k.
  - unfold sigma. cbn. ring.
  - rewrite sigma_cons, IH, S_INR. ring.
Qed.

Lemma sigma_nonneg (k n : nat) (f : nat -> R) :
  (forall m, 0 <= f m) -> 0 <= sigma k n f.
Proof.
  intros H. revert k. induction n as [|n IH]; intros k.
  - unfold sigma. cbn. lra.
  - rewrite sigma_cons. specialize (H k). specialize (IH (S k)). lra.
Qed.

Lemma sigma_le_const (k n : nat) (f : nat -> R) (c : R) :
  (forall m, f m <= c) -> sigma k n f <= INR n * c.
Proof.
  intros H. rewrite <- (sigma_const k). apply sigma_le. intros m _. apply H.
Qed.

Lemma nth_nonneg (l : list R) (j : nat) :
  Forall (fun x => 0 <= x) l -> 0 <= nth j l 0.
Proof.
  intros F. revert j. induction F as [|x l Hx _ IH]; intros [|j];
    cbn [nth]; auto; lra.
Qed.

Lemma nth_le_1 (l : list R) (j : nat) :
  Forall (fun x => 0 <= x <= 1) l -> nth j l 0 <= 1.
Proof.
  intros F. revert j. induction F as [|x l Hx _ IH]; intros [|j];
    cbn [nth]; auto; lra.
Qed.

Lemma pv_value (survs : list R) (i_annual : R) :
  0 <= i_annual ->
  pv_monthly_premiums_due survs i_annual
  = Ok (spec_annuity_due survs i_annual).
Proof.
  intros Hi. unfold pv_monthly_premiums_due. change 0%Z with (Z.of_nat 0).
  rewrite annuity_loop_spec by exact Hi. unfold spec_annuity_due. f_equal.
  rewrite Rplus_0_l. apply sigma_ext. intros m _. now rewrite Nat.sub_0_r.
Qed.

Lemma premium_value (b p : list R) (i_annual : R) :
  length b = length p -> 0 <= i_annual ->
  single_premium_monthly b p i_annual = Ok (spec_single_premium b p i_annual).
Proof.
  intros L Hi. unfold single_premium_monthly. rewrite L, Nat.eqb_refl.
  change 1%Z with (Z.of_nat 1).
  rewrite premium_loop_spec by (exact Hi || exact L).
  unfold spec_single_premium. f_equal. ring.
Qed.

Lemma annuity_at_least_1 (q_by_year : list R) (i_annual : R) :
  q_by_year <> [] ->
  Forall (fun q => 0 <= q <= 1) q_by_year ->
  -1 < i_annual ->
  1 <= spec_annuity_due (spec_monthly_from spec_survival 1 q_by_year) i_annual.
Proof.
  intros NE F Hi.
  set (survs := spec_monthly_from spec_survival 1 q_by_year).
  pose proof (survivals_range q_by_year 1 F ltac:(lra)) as Rg.
  fold survs in Rg.
  assert (Nn : Forall (fun x => 0 <= x) survs).
  { rewrite Forall_forall in *. intros x I. specialize (Rg x I). lra. }
  destruct q_by_year as [|q rest]; [contradiction|].
  destruct (survivals_head q rest) as [tl E]. fold survs in E.
  unfold spec_annuity_due. rewrite E. cbn [length]. rewrite sigma_cons.
  cbv beta. change (nth 0 (1 :: tl) 0) with 1. change (INR 0) with 0.
  replace (- 0 / 12) with 0 by field.
  rewrite Rpower_O by lra.
  assert (0 <= sigma 1 (length tl)
                 (fun idx => Rpower (1 + i_annual) (- INR idx / 12)
                             * nth idx (1 :: tl) 0)).
  { apply sigma_nonneg. intros m. apply Rmult_le_pos.
    - left. apply discount_pos.
    - apply nth_nonneg. rewrite <- E. exact Nn. }
  lra.
Qed.

(** X10. For a non-empty list of annual values in [0,1] and a technical
    rate of 0 or more, the value of the annuity-due is at least 1 (the
    first premium is certain and not discounted), so it is positive, and
    at most the number of months. *)
Theorem X10_annuity_bounds (q_by_year : list R) (i_annual : R) :
  q_by_year <> [] ->
  Forall (fun q => 0 <= q <= 1) q_by_year ->
  0 <= i_annual ->
  exists survs pv,
    monthly_survival_to_month_start_from_annual_q q_by_year = Ok survs /\
    pv_monthly_premiums_due survs i_annual = Ok pv /\
    1 <= pv <= INR (12 * length q_by_year).
Proof.
  intros NE F Hi.
  set (survs := spec_monthly_from spec_survival 1 q_by_year).
  exists survs, (spec_annuity_due survs i_annual).
  split; [apply survival_loop_spec|]. split; [now apply pv_value|].
  pose proof (survivals_range q_by_year 1 F ltac:(lra)) as Rg.
  fold survs in Rg.
  assert (Nn : Forall (fun x => 0 <= x) survs).
  { rewrite Forall_forall in *. intros x I. specialize (Rg x I). lra. }
  split.
  - apply annuity_at_least_1; [exact NE | exact F | lra].
  - unfold spec_annuity_due.
    assert (L : length survs = (12 * length q_by_year)%nat)
      by apply spec_monthly_from_length.
    rewrite <- L, <- (Rmult_1_r (INR (length survs))).
    apply sigma_le_const. intros m.
    pose proof (discount_le_1 (1 + i_annual) _ ltac:(lra) (month_exponent m)).
    pose proof (discount_pos (1 + i_annual) (- INR m / 12)).
    pose proof (nth_nonneg survs m Nn). pose proof (nth_le_1 survs m Rg).
    nra.
Qed.

(** A run of X10. *)
Lemma X10_annuity_bounds_witness :
  exists survs pv,
    monthly_survival_to_month_start_from_annual_q [1 / 100; 1] = Ok survs /\
    pv_monthly_premiums_due survs (2 / 100) = Ok pv /\
    1 <= pv /\ pv <= INR (12 * length [1 / 100; 1]).
Proof.
  destruct (X10_annuity_bounds [1 / 100; 1] (2 / 100))
    as (s & v & A & B & C & D).
  - discriminate.
  - repeat constructor; lra.
  - lra.
  - exists s, v. repeat (split; [assumption|]). exact D.
Defined.

(** X11. For balances and death probabilities that are non-negative and
    of equal length, the single premium is non-negative and does not
    grow with the technical rate: for rates 0 <= i1 <= i2 the premium at
    i2 is at most the premium at i1.  At rate 0 it is the undiscounted
    expected benefit, the sum of deathProb[m] * balance[m]. *)
Theorem X11_premium_decreases_with_rate
  (crd_end_of_month death_probs_monthly : list R) (i1 i2 : R) :
  length crd_end_of_month = length death_probs_monthly ->
  Forall (fun x => 0 <= x) crd_end_of_month ->
  Forall (fun x => 0 <= x) death_probs_monthly ->
  0 <= i1 -> i1 <= i2 ->
  exists U1 U2,
    single_premium_monthly crd_end_of_month death_probs_monthly i1 = Ok U1 /\
    single_premium_monthly crd_end_of_month death_probs_monthly i2 = Ok U2 /\
    0 <= U2 <= U1 /\
    single_premium_monthly crd_end_of_month death_probs_monthly 0
    = Ok (sigma 1 (length crd_end_of_month)
            (fun m => nth (m - 1) death_probs_monthly 0
                      * nth (m - 1) crd_end_of_month 0)).
Proof.
  intros L Fb Fp H1 H12.
  exists (spec_single_premium crd_end_of_month death_probs_monthly i1),
         (spec_single_premium crd_end_of_month death_probs_monthly i2).
  split; [now apply premium_value|].
  split; [apply premium_value; [exact L|lra]|].
  split; [split|].
  - unfold spec_single_premium.
    apply sigma_nonneg. intros m.
    pose proof (discount_pos (1 + i2) (- INR m / 12)).
    pose proof (nth_nonneg _ (m - 1) Fb). pose proof (nth_nonneg _ (m - 1) Fp).
    apply Rmult_le_pos; [apply Rmult_le_pos|]; lra.
  - unfold spec_single_premium. apply sigma_le. intros m _.
    pose proof (discount_antitone (1 + i1) (1 + i2) _ ltac:(lra) ltac:(lra)
                  (month_exponent m)).
    pose proof (nth_nonneg _ (m - 1) Fb). pose proof (nth_nonneg _ (m - 1) Fp).
    rewrite !Rmult_assoc. apply Rmult_le_compat_r; [|assumption].
    apply Rmult_le_pos; assumption.
  - rewrite premium_value by (exact L || lra). f_equal.
    unfold spec_single_premium. apply sigma_ext. intros m _.
    replace (1 + 0) with 1 by ring.
    unfold Rpower. rewrite ln_1, Rmult_0_r, exp_0. ring.
Qed.

(** A run of X11. *)
Lemma X11_premium_decreases_with_rate_witness :
  exists U1 U2,
    single_premium_monthly [1000; 500] [1 / 1000; 2 / 1000] (1 / 100)
    = Ok U1 /\
    single_premium_monthly [1000; 500] [1 / 1000; 2 / 1000] (2 / 100)
    = Ok U2 /\
    0 <= U2 <= U1.
Proof.
  destruct (X11_premium_decreases_with_rate
              [1000; 500] [1 / 1000; 2 / 1000] (1 / 100) (2 / 100))
    as (U1 & U2 & A & B & C & _).
  - reflexivity.
  - repeat constructor; lra.
  - repeat constructor; lra.
  - lra.
  - lra.
  - exists U1, U2. repeat (split; [assumption|]). exact C.
Defined.

End PricingMore.

(** ** The mortality table *)

Section TableFacts.
Import AppTable.
Open Scope Q_scope.

Variable frame_repr : list (Z * Q) -> string.

Lemma dict_get_set (d : dict) (k a : Z) (v : Q) :
  dict_get (dict_set d k v) a
  = if (k =? a)%Z then Some v else dict_get d a.
Proof.
  induction d as [|[k' v'] t IH]; cbn [dict_set dict_get]; [reflexivity|].
  destruct (Z.eqb_spec k' k) as [E|E]; cbn [dict_get].
  - subst k'. destruct (Z.eqb_spec k a); reflexivity.
  - rewrite IH. destruct (Z.eqb_spec k' a) as [E'|E']; [|reflexivity].
    subst k'. destruct (Z.eqb_spec k a) as [E''|_]; [|reflexivity].
    exfalso. apply E. now symmetry.
Qed.

Lemma dict_get_fold (l : list (Z * Q)) (a : Z) :
  forall d : dict,
    dict_get (fold_left (fun d kv => dict_set d (fst kv) (snd kv)) l d) a
    = fold_left (fun acc r => if (fst r =? a)%Z then Some (snd r) else acc)
                l (dict_get d a).
Proof.
  induction l as [|[k v] l IH]; intros d; [reflexivity|].
  cbn [fold_left fst snd]. rewrite IH, dict_get_set. reflexivity.
Qed.

Lemma combine_fst_snd {A B : Type} (l : list (A * B)) :
  combine (map fst l) (map snd l) = l.
Proof.
  induction l as [|[a b] l IH]; [reflexivity|]. cbn. now rewrite IH.
Qed.

Lemma last_rate_acc (df : list (Z * Q)) (a : Z) :
  forall (acc : option Q) (q : Q),
    fold_left (fun acc r => if (fst r =? a)%Z then Some (snd r) else acc)
              df acc = Some q ->
    In (a, q) df \/ acc = Some q.
Proof.
  induction df as [|[k v] df IH]; intros acc q H; [now right|].
  cbn [fold_left fst snd] in H. apply IH in H. destruct H as [H|H].
  - left. now right.
  - destruct (Z.eqb_spec k a) as [E|E]; [|now right].
    left. left. congruence.
Qed.

Lemma last_rate_found (df : list (Z * Q)) (a : Z) :
  forall acc : option Q,
    In a (map fst df) ->
    exists q,
      fold_left (fun acc r => if (fst r =? a)%Z then Some (snd r) else acc)
                df acc = Some q.
Proof.
  induction df as [|[k v] df IH]; intros acc I; [destruct I|].
  cbn [fold_left fst snd]. cbn [map fst] in I.
  destruct (in_dec Z.eq_dec a (map fst df)) as [I'|N].
  - now apply IH.
  - destruct I as [E|I]; [|contradiction]. subst k. rewrite Z.eqb_refl.
    exists v. clear IH. revert N. generalize (Some v).
    induction df as [|[k' v'] df IH]; intros o N; [reflexivity|].
    cbn [fold_left fst snd]. cbn [map fst] in N.
    destruct (Z.eqb_spec k' a) as [E|E]; [exfalso; apply N; now left|].
    apply IH. intros I. apply N. now right.
Qed.

Lemma fold_max_spec (l : list Z) :
  forall x, let m := fold_left Z.max l x in
            (m = x \/ In m l) /\ (x <= m)%Z /\ Forall (fun y => (y <= m)%Z) l.
Proof.
  induction l as [|y l IH]; intros x; cbn [fold_left].
  - split; [now left|]. split; [lia|constructor].
  - destruct (IH (Z.max x y)) as (A & B & C). split; [|split].
    + destruct A as [A|A]; [|right; now right].
      rewrite A. destruct (Z.max_spec x y) as [[_ E]|[_ E]]; rewrite E.
      * right. now left.
      * now left.
    + lia.
    + constructor; [lia|exact C].
Qed.

Lemma list_max_spec (l : list Z) (m : Z) :
  list_max l = Some m -> In m l /\ Forall (fun y => (y <= m)%Z) l.
Proof.
  destruct l as [|x l]; [discriminate|]. cbn [list_max]. intros H.
  injection H as <-. destruct (fold_max_spec l x) as (A & B & C).
  split; [destruct A as [A|A]; [left; now symmetry | now right]|].
  constructor; assumption.
Qed.

Lemma Qltb_spec (x y : Q) : Qltb x y = true <-> x < y.
Proof.
  unfold Qltb. rewrite Bool.negb_true_iff. split.
  - intros H. apply Qnot_le_lt. intros L. apply Qle_bool_iff in L. congruence.
  - intros H. destruct (Qle_bool y x) eqn:E; [|reflexivity].
    apply Qle_bool_iff in E. exfalso. lra.
Qed.

Lemma existsb_false_forall {A : Type} (f : A -> bool) (l : list A) :
  existsb f l = false -> forall x, In x l -> f x = false.
Proof.
  intros H x I. destruct (f x) eqn:E; [|reflexivity].
  assert (existsb f l = true) by (apply existsb_exists; eauto). congruence.
Qed.

Lemma filter_nil_forall {A : Type} (f : A -> bool) (l : list A) :
  filter f l = [] -> forall x, In x l -> f x = false.
Proof.
  intros H x I. destruct (f x) eqn:E; [|reflexivity].
  assert (In x (filter f l)) by (apply filter_In; auto).
  rewrite H in H0. destruct H0.
Qed.

Lemma accepted_table_inv
  (df : list (Z * Q)) (qx_map : dict) (omega : Z) :
  load_qx_from_tabledeces frame_repr df = Ok (qx_map, omega) ->
  In omega (map fst df) /\
  (forall a q, In (a, q) df ->
     (a <= omega)%Z /\ 0 <= q <= 1 /\ (q == 1 -> a = omega)) /\
  (forall a, dict_get qx_map a = last_rate df a).
Proof.
  unfold load_qx_from_tabledeces.
  destruct (list_max (map fst df)) as [om|] eqn:M; [|discriminate].
  destruct (existsb (fun r => Qltb (snd r) 0) df) eqn:Neg; [discriminate|].
  destruct (existsb (fun r => Qltb 1 (snd r)) df) eqn:Big; [discriminate|].
  destruct (filter _ df) as [|b bad] eqn:One; [|discriminate].
  intros H. injection H as <- <-.
  destruct (list_max_spec _ _ M) as [Im Fm].
  split; [exact Im|]. split.
  - intros a q I.
    pose proof (existsb_false_forall _ _ Neg _ I) as N1.
    pose proof (existsb_false_forall _ _ Big _ I) as N2.
    pose proof (filter_nil_forall _ _ One _ I) as N3.
    cbn [fst snd] in N1, N2, N3.
    split; [|split; [split|]].
    + rewrite Forall_forall in Fm. apply Fm.
      apply in_map_iff. exists (a, q). auto.
    + apply Qnot_lt_le. intros L. apply Qltb_spec in L. congruence.
    + apply Qnot_lt_le. intros L. apply Qltb_spec in L. congruence.
    + intros E. apply Qeq_eq_bool in E. rewrite E in N3. cbn [andb] in N3.
      apply Bool.negb_false_iff, Z.eqb_eq in N3. exact N3.
  - intros a. unfold dict_of_zip, last_rate.
    now rewrite dict_get_fold, combine_fst_snd.
Qed.

Lemma accepted_lookup
  (df : list (Z * Q)) (qx_map : dict) (omega : Z) (a : Z) (q : Q) :
  load_qx_from_tabledeces frame_repr df = Ok (qx_map, omega) ->
  dict_get qx_map a = Some q -> In (a, q) df.
Proof.
  intros H G. destruct (accepted_table_inv _ _ _ H) as (_ & _ & Get).
  rewrite Get in G. unfold last_rate in G.
  apply last_rate_acc in G. destruct G as [G|G]; [exact G|discriminate].
Qed.

(** X12. What an accepted table guarantees.  When the loader returns a
    dictionary and a terminal age, that age is the largest age of the
    frame; every row has its age at most the terminal age and its rate in
    [0,1], with rate 1 at the terminal age only; and looking an age up
    in the dictionary gives the rate of the last row with that age, so
    every rate read from the dictionary is one of the checked rows. *)
Theorem X12_accepted_table
  (df : list (Z * Q)) (qx_map : dict) (omega : Z) :
  load_qx_from_tabledeces frame_repr df = Ok (qx_map, omega) ->
  In omega (map fst df) /\
  (forall a q, In (a, q) df ->
     (a <= omega)%Z /\ 0 <= q <= 1 /\ (q == 1 -> a = omega)) /\
  (forall a, dict_get qx_map a = last_rate df a) /\
  (forall a q, dict_get qx_map a = Some q ->
     In (a, q) df /\ (a <= omega)%Z /\ 0 <= q <= 1 /\ (q == 1 -> a = omega))
  /\
  (forall a, dict_mem qx_map a = true <-> In a (map fst df)).
Proof.
  intros H. destruct (accepted_table_inv _ _ _ H) as (Im & Rows & Get).
  split; [exact Im|]. split; [exact Rows|]. split; [exact Get|]. split.
  - intros a q G. pose proof (accepted_lookup _ _ _ _ _ H G) as I.
    split; [exact I | now apply Rows].
  - intros a. unfold dict_mem. rewrite Get. unfold last_rate. split.
    + intros M.
      destruct (fold_left _ df None) as [q|] eqn:E; [|discriminate].
      apply last_rate_acc in E. destruct E as [E|E]; [|discriminate].
      apply in_map_iff. exists (a, q). auto.
    + intros I. destruct (last_rate_found df a None I) as [q ->]. reflexivity.
Qed.

Lemma existsb_true_of {A : Type} (f : A -> bool) (l : list A) (x : A) :
  In x l -> f x = true -> existsb f l = true.
Proof. intros I E. apply existsb_exists. eauto. Qed.

(** X13. When a table is refused.  A non-empty frame is accepted exactly
    when every row has its rate in [0,1] and carries rate 1 only at the
    largest age.  A negative rate anywhere is what gets reported, with
    the first ten offending rows, whatever else is wrong with the
    frame. *)
Theorem X13_table_refused (df : list (Z * Q)) :
  df <> [] ->
  ((exists res, load_qx_from_tabledeces frame_repr df = Ok res) <->
   Forall (fun r => 0 <= snd r <= 1 /\
                    (snd r == 1 -> list_max (map fst df) = Some (fst r))) df)
  /\
  ((exists r, In r df /\ snd r < 0) ->
   load_qx_from_tabledeces frame_repr df
   = Err (ValueError
            ("Table décès: qx < 0. Exemples:" ++ newline
             ++ frame_repr
                  (firstn 10 (filter (fun r => Qltb (snd r) 0) df))))).
Proof.
  intros NE.
  assert (M : exists om, list_max (map fst df) = Some om).
  { destruct df as [|r df]; [contradiction|]. cbn. eauto. }
  destruct M as [om M].
  split; [split|].
  - intros [[m w] H]. pose proof (accepted_table_inv _ _ _ H) as (_ & Rows & _).
    assert (w = om).
    { unfold load_qx_from_tabledeces in H. rewrite M in H.
      destruct (existsb _ df); [discriminate|].
      destruct (existsb _ df); [discriminate|].
      destruct (filter _ df); [|discriminate]. congruence. }
    subst w. apply Forall_forall. intros [a q] I.
    destruct (Rows a q I) as (_ & Rg & One). cbn [fst snd].
    split; [exact Rg|]. intros E. rewrite M. f_equal. symmetry. now apply One.
  - intros F. rewrite Forall_forall in F.
    unfold load_qx_from_tabledeces. rewrite M.
    assert (Neg : existsb (fun r => Qltb (snd r) 0) df = false).
    { destruct (existsb (fun r => Qltb (snd r) 0) df) eqn:E; [|reflexivity].
      apply existsb_exists in E. destruct E as (r & I & L).
      apply Qltb_spec in L. destruct (F r I) as [[L' _] _]. exfalso. lra. }
    assert (Big : existsb (fun r => Qltb 1 (snd r)) df = false).
    { destruct (existsb (fun r => Qltb 1 (snd r)) df) eqn:E; [|reflexivity].
      apply existsb_exists in E. destruct E as (r & I & L).
      apply Qltb_spec in L. destruct (F r I) as [[_ L'] _]. exfalso. lra. }
    rewrite Neg, Big.
    destruct (filter _ df) as [|b bad] eqn:One; [eauto|].
    exfalso.
    assert (I : In b (filter
                        (fun r => Qeq_bool (snd r) 1 && negb (fst r =? om)%Z)
                        df)) by (rewrite One; now left).
    apply filter_In in I. destruct I as [I E].
    apply andb_prop in E. destruct E as [E1 E2].
    apply Qeq_bool_eq in E1. destruct (F b I) as [_ O].
    specialize (O E1). rewrite M in O. injection O as O.
    rewrite O, Z.eqb_refl in E2. discriminate.
  - intros (r & I & L). unfold load_qx_from_tabledeces. rewrite M.
    rewrite (existsb_true_of _ df r I) by now apply Qltb_spec.
    reflexivity.
Qed.

End TableFacts.

(** A run of X12: a table of three ages with rate 1 at the last one. *)
Lemma X12_accepted_table_witness :
  AppTable.load_qx_from_tabledeces (fun _ => EmptyString)
    [(50%Z, 1 # 100); (51%Z, 2 # 100); (52%Z, 1%Q)]
  = Ok ([(50%Z, 1 # 100); (51%Z, 2 # 100); (52%Z, 1%Q)], 52%Z) /\
  AppTable.dict_get [(50%Z, 1 # 100); (51%Z, 2 # 100); (52%Z, 1%Q)] 51
  = AppTable.last_rate [(50%Z, 1 # 100); (51%Z, 2 # 100); (52%Z, 1%Q)] 51.
Proof.
  assert (L : AppTable.load_qx_from_tabledeces (fun _ => EmptyString)
                [(50%Z, 1 # 100); (51%Z, 2 # 100); (52%Z, 1%Q)]
              = Ok ([(50%Z, 1 # 100); (51%Z, 2 # 100); (52%Z, 1%Q)], 52%Z))
    by reflexivity.
  split; [exact L|].
  apply (X12_accepted_table _ _ _ _ L).
Defined.

(** A run of X13: a frame with a rate of 2 and a rate of -1. *)
Lemma X13_table_refused_witness :
  AppTable.load_qx_from_tabledeces (fun _ => EmptyString)
    [(50%Z, 2%Q); (51%Z, (-1)%Q)]
  = Err (ValueError
           ("Table décès: qx < 0. Exemples:" ++ AppTable.newline
            ++ EmptyString)).
Proof.
  apply (X13_table_refused (fun _ => EmptyString)
           [(50%Z, 2%Q); (51%Z, (-1)%Q)]).
  - discriminate.
  - exists (51%Z, (-1)%Q). split; [right; now left | reflexivity].
Defined.

(** ** The computation behind the button *)

Section CalculFacts.
Import AppTable AppCalcul.

Lemma range_In_iff (lo hi m : Z) : In m (range lo hi) <-> (lo <= m < hi)%Z.
Proof.
  split; [apply range_In|]. intros H. unfold range. apply in_map_iff.
  exists (Z.to_nat (m - lo)). split; [lia|]. apply in_seq. lia.
Qed.

Lemma list_max_range (a n : Z) :
  (0 < n)%Z -> list_max (range a (a + n)) = Some (a + n - 1)%Z.
Proof.
  intros H. destruct (list_max (range a (a + n))) as [m|] eqn:E.
  - destruct (list_max_spec _ _ E) as [I F]. apply range_In in I.
    rewrite Forall_forall in F.
    assert (a + n - 1 <= m)%Z by (apply F, range_In_iff; lia).
    f_equal. lia.
  - exfalso. rewrite (range_cons a (a + n)) in E by lia. discriminate.
Qed.

Lemma lookup_all_ok (qx_map : dict) (ages : list Z) :
  forall qs, lookup_all qx_map ages = AOk qs ->
             map (dict_get qx_map) ages = map Some qs.
Proof.
  induction ages as [|a rest IH]; intros qs H.
  - injection H as <-. reflexivity.
  - cbn [lookup_all] in H.
    destruct (dict_get qx_map a) as [q|] eqn:G; [|discriminate].
    destruct (lookup_all qx_map rest) as [tl|e]; [|discriminate].
    cbn [abind] in H. injection H as <-. cbn [map].
    rewrite G. f_equal. now apply IH.
Qed.

Lemma lookup_all_key (qx_map : dict) (ages : list Z) (k : Z) :
  lookup_all qx_map ages = AErr (KeyError k) ->
  In k ages /\ dict_mem qx_map k = false.
Proof.
  induction ages as [|a rest IH]; intros H; [discriminate|].
  cbn [lookup_all] in H.
  destruct (dict_get qx_map a) as [q|] eqn:G.
  - destruct (lookup_all qx_map rest) as [tl|e]; [discriminate|].
    cbn [abind] in H. destruct (IH H) as [I M]. split; [now right|exact M].
  - injection H as <-. split; [now left|]. unfold dict_mem. now rewrite G.
Qed.

Lemma lookup_all_total (qx_map : dict) (ages : list Z) :
  (forall a, In a ages -> dict_mem qx_map a = true) ->
  exists qs, lookup_all qx_map ages = AOk qs.
Proof.
  induction ages as [|a rest IH]; intros All; [exists []; reflexivity|].
  cbn [lookup_all].
  pose proof (All a ltac:(now left)) as M. unfold dict_mem in M.
  destruct (dict_get qx_map a) as [q|]; [|discriminate].
  destruct IH as [tl ->]; [intros a' I; apply All; now right|].
  cbn [abind]. eauto.
Qed.

Lemma q_by_year_of_eq (qx_map : dict) (omega age_x n_years : Z) :
  (0 < n_years)%Z ->
  q_by_year_of qx_map omega age_x n_years
  = if (omega <? age_x + n_years - 1)%Z then
      AErr (Raised (ValueError
        ("Durée trop longue: table dispo jusqu'à " ++ str_int omega
         ++ ", mais tu demandes " ++ str_int (age_x + n_years - 1) ++ ".")))
    else
      match filter (fun a => negb (dict_mem qx_map a))
                   (range age_x (age_x + n_years)) with
      | _ :: _ =>
          AErr (Raised (ValueError
            ("Âges manquants dans la table décès: "
             ++ str_list
                  (firstn 10 (filter (fun a => negb (dict_mem qx_map a))
                                (range age_x (age_x + n_years))))
             ++ " (et peut-être plus).")))
      | [] => lookup_all qx_map (range age_x (age_x + n_years))
      end.
Proof.
  intros Hn. unfold q_by_year_of, py_max.
  rewrite (list_max_range age_x n_years Hn). reflexivity.
Qed.

(** X14. The annual rates of the policy years.  For a positive number of
    years, the selection raises "Durée trop longue" when the last age
    x + n - 1 is above the terminal age, "Âges manquants" when an age of
    the range is not in the dictionary, and otherwise returns the n rates
    of the ages x, x + 1, ..., x + n - 1 in that order; the lookups
    themselves never raise [KeyError]. *)
Theorem X14_rates_of_the_years (qx_map : dict) (omega age_x n_years : Z) :
  (0 < n_years)%Z ->
  let ages := range age_x (age_x + n_years) in
  ((omega < age_x + n_years - 1)%Z ->
   q_by_year_of qx_map omega age_x n_years
   = AErr (Raised (ValueError
       ("Durée trop longue: table dispo jusqu'à " ++ str_int omega
        ++ ", mais tu demandes " ++ str_int (age_x + n_years - 1) ++ "."))))
  /\
  ((age_x + n_years - 1 <= omega)%Z ->
   (exists a, In a ages /\ dict_mem qx_map a = false) ->
   q_by_year_of qx_map omega age_x n_years
   = AErr (Raised (ValueError
       ("Âges manquants dans la table décès: "
        ++ str_list
             (firstn 10 (filter (fun a => negb (dict_mem qx_map a)) ages))
        ++ " (et peut-être plus)."))))
  /\
  ((age_x + n_years - 1 <= omega)%Z ->
   (forall a, In a ages -> dict_mem qx_map a = true) ->
   exists qs,
     q_by_year_of qx_map omega age_x n_years = AOk qs /\
     map (dict_get qx_map) ages = map Some qs /\
     length qs = Z.to_nat n_years)
  /\
  (forall k, q_by_year_of qx_map omega age_x n_years <> AErr (KeyError k)).
Proof.
  intros Hn ages. rewrite (q_by_year_of_eq qx_map omega age_x n_years Hn).
  fold ages.
  split; [|split; [|split]].
  - intros H. apply Z.ltb_lt in H. now rewrite H.
  - intros H (a & I & M). apply Z.ltb_ge in H. rewrite H.
    destruct (filter (fun a => negb (dict_mem qx_map a)) ages) as [|b l] eqn:E;
      [|reflexivity].
    pose proof (filter_nil_forall _ _ E a I) as N. cbn in N.
    rewrite M in N. discriminate.
  - intros H All. apply Z.ltb_ge in H. rewrite H.
    destruct (filter (fun a => negb (dict_mem qx_map a)) ages) as [|b l] eqn:E.
    + destruct (lookup_all_total qx_map ages All) as [qs Hq].
      exists qs. split; [exact Hq|].
      pose proof (lookup_all_ok _ _ _ Hq) as Mp. split; [exact Mp|].
      apply (f_equal (@length _)) in Mp. rewrite !length_map in Mp.
      rewrite <- Mp. unfold ages. rewrite range_length. f_equal. lia.
    + exfalso. assert (I : In b (filter (fun a => negb (dict_mem qx_map a)) ages))
        by (rewrite E; now left).
      apply filter_In in I. destruct I as [I N]. rewrite (All b I) in N.
      discriminate.
  - intros k. destruct (omega <? age_x + n_years - 1)%Z; [discriminate|].
    destruct (filter (fun a => negb (dict_mem qx_map a)) ages) as [|b l] eqn:E;
      [|discriminate].
    intros H. destruct (lookup_all_key _ _ _ H) as [I M].
    pose proof (filter_nil_forall _ _ E k I) as N. cbn in N.
    rewrite M in N. discriminate.
Qed.

Lemma Q2R_unit_interval (q : Q) :
  (0 <= q <= 1)%Q -> (0 <= Q2R q <= 1)%R.
Proof.
  intros [L U]. apply Qle_Rle in L, U.
  rewrite RMicromega.Q2R_0 in L. rewrite RMicromega.Q2R_1 in U. lra.
Qed.

Lemma technical_rate (taux_ass : Q) :
  (0 <= taux_ass)%Q -> (0 <= Q2R (taux_ass / 100))%R.
Proof.
  intros H.
  assert (L : (0 <= taux_ass / 100)%Q)
    by (apply Qle_shift_div_l; [reflexivity | lra]).
  apply Qle_Rle in L.
  replace (Q2R 0) with 0%R in L; [exact L|].
  unfold Q2R. cbn. lra.
Qed.

(** X15. Once the table is accepted, the schedule computed and the rates
    of the years selected, the pricing cannot fail for an insurance rate
    of 0 % or more: the dimension check of [single_premium_monthly] passes
    (both sequences have [12 * duree] elements), no power raises, the
    value of the annuity is at least 1, so the level premium is the
    quotient U / pv and never the not-a-number, and it is at most the
    single premium in absolute value. *)
Theorem X15_pricing_never_fails
  (frame_repr : list (Z * Q) -> string) (table : list (Z * Q))
  (capital : Q) (duree : Z) (taux : Q) (age_x : Z) (taux_ass : Q)
  (qx_map : dict) (omega : Z) (s : LoanCore.schedule) (q_by_year : list Q) :
  load_qx_from_tabledeces frame_repr table = Ok (qx_map, omega) ->
  LoanCore.tableau_amortissement capital duree (taux / 100) = Ok s ->
  q_by_year_of qx_map omega age_x duree = AOk q_by_year ->
  (0 <= taux_ass)%Q ->
  exists (U pv p : R),
    calculer frame_repr table capital duree taux age_x taux_ass
    = AOk (mkOutcome (LoanCore.mensualite s) (LoanCore.df s)
             (LoanCore.total_interets s) (LoanCore.cout_total s)
             U pv (Some p)) /\
    (1 <= pv)%R /\ p = (U / pv)%R /\ (Rabs p <= Rabs U)%R.
Proof.
  intros HL HT HQ Hr.
  destruct (tableau_amortissement_inv _ _ _ _ HT) as (Hd & raw & _ & _ & D & _).
  pose proof (accepted_table_inv frame_repr _ _ _ HL) as (_ & Rows & _).
  pose proof (fun a q => accepted_lookup frame_repr _ _ _ a q HL) as Got.
  assert (Mp : map (dict_get qx_map) (range age_x (age_x + duree))
               = map Some q_by_year).
  { pose proof HQ as HQ'.
    rewrite (q_by_year_of_eq qx_map omega age_x duree Hd) in HQ'.
    destruct (omega <? age_x + duree - 1)%Z; [discriminate|].
    destruct (filter _ (range age_x (age_x + duree))); [|discriminate].
    exact (lookup_all_ok _ _ _ HQ'). }
  assert (Len : length q_by_year = Z.to_nat duree).
  { apply (f_equal (@length _)) in Mp. rewrite !length_map in Mp.
    rewrite <- Mp, range_length. f_equal. lia. }
  set (qs := map Q2R q_by_year).
  assert (F : Forall (fun q => 0 <= q <= 1)%R qs).
  { apply Forall_forall. intros x I. apply in_map_iff in I.
    destruct I as (q & <- & I). apply Q2R_unit_interval.
    assert (I' : In (Some q) (map (dict_get qx_map)
                                (range age_x (age_x + duree))))
      by (rewrite Mp; now apply in_map).
    apply in_map_iff in I'. destruct I' as (a & G & _).
    apply Got in G. now destruct (Rows a q G) as (_ & Rg & _). }
  assert (NE : qs <> []).
  { intros E. apply (f_equal (@length _)) in E. unfold qs in E.
    rewrite length_map, Len in E. cbn in E. lia. }
  pose proof (technical_rate taux_ass Hr) as Hi.
  set (i_ass := Q2R (taux_ass / 100)) in *.
  set (deaths := App.spec_monthly_from App.spec_death_prob 1 qs).
  set (survs := App.spec_monthly_from App.spec_survival 1 qs).
  set (crd := map Q2R (firstn (Z.to_nat (12 * duree))
                         (map LoanCore.CRD (LoanCore.df s)))).
  assert (LC : length crd = length deaths).
  { unfold crd, deaths. rewrite length_map, length_firstn, length_map, D.
    rewrite length_map, rows_of_length, spec_monthly_from_length.
    unfold qs. rewrite length_map, Len. lia. }
  pose proof (premium_value crd deaths i_ass LC Hi) as HU.
  pose proof (pv_value survs i_ass Hi) as HP.
  pose proof (annuity_at_least_1 qs i_ass NE F ltac:(lra)) as H1.
  fold survs in H1.
  set (U := App.spec_single_premium crd deaths i_ass) in *.
  set (pv := App.spec_annuity_due survs i_ass) in *.
  exists U, pv, (U / pv)%R.
  split; [|split; [exact H1|split; [reflexivity|]]].
  - unfold calculer. rewrite HL, HT. cbn [lift abind fst snd]. cbv zeta.
    rewrite HQ. cbn [abind].
    unfold App.monthly_death_probs_from_annual_q,
      App.monthly_survival_to_month_start_from_annual_q.
    rewrite death_loop_spec, survival_loop_spec. cbn [lift abind].
    fold qs. fold deaths survs crd i_ass.
    rewrite HU, HP. cbn [lift abind].
    unfold level_premium. destruct (Rlt_dec 0 pv) as [_|N]; [reflexivity|].
    exfalso. apply N. lra.
  - unfold Rdiv. rewrite Rabs_mult, Rabs_inv, (Rabs_right pv) by lra.
    assert (/ pv <= 1)%R.
    { rewrite <- Rinv_1. apply Rinv_le_contravar; lra. }
    pose proof (Rabs_pos U). nra.
Qed.

Lemma map_removelast {A B : Type} (f : A -> B) (l : list A) :
  map f (removelast l) = removelast (map f l).
Proof.
  induction l as [|x l IH]; [reflexivity|].
  destruct l as [|y l]; [reflexivity|].
  change (f x :: map f (removelast (y :: l))
          = f x :: removelast (map f (y :: l))).
  now rewrite IH.
Qed.

Lemma removelast_range (a n : Z) :
  (0 < n)%Z -> removelast (range a (a + n)) = range a (a + n - 1).
Proof.
  intros H. replace (a + n)%Z with (a + n - 1 + 1)%Z by lia.
  rewrite range_snoc by lia. rewrite removelast_last. f_equal. lia.
Qed.

Lemma map_Some_inj {A : Type} (l l' : list A) :
  map Some l = map Some l' -> l = l'.
Proof.
  revert l'. induction l as [|x l IH]; intros [|y l'] H;
    try discriminate; [reflexivity|].
  cbn [map] in H. injection H as -> H. f_equal. now apply IH.
Qed.

(** X16. For an accepted table and an accepted range of ages, only the
    last policy year can carry the rate 1 (rate 1 sits at the terminal
    age, and the earlier ages of the range are below it); every survival
    to the start of a month is therefore positive and at most 1. *)
Theorem X16_survivals_positive
  (frame_repr : list (Z * Q) -> string) (table : list (Z * Q))
  (qx_map : dict) (omega age_x n_years : Z) (q_by_year : list Q) :
  (0 < n_years)%Z ->
  load_qx_from_tabledeces frame_repr table = Ok (qx_map, omega) ->
  q_by_year_of qx_map omega age_x n_years = AOk q_by_year ->
  Forall (fun q => (0 <= q <= 1)%Q) q_by_year /\
  Forall (fun q => (q < 1)%Q) (removelast q_by_year) /\
  exists survs,
    App.monthly_survival_to_month_start_from_annual_q (map Q2R q_by_year)
    = Ok survs /\
    Forall (fun x => 0 < x <= 1)%R survs.
Proof.
  intros Hn HL HQ.
  pose proof (accepted_table_inv frame_repr _ _ _ HL) as (_ & Rows & _).
  pose proof (fun a q => accepted_lookup frame_repr _ _ _ a q HL) as Got.
  rewrite (q_by_year_of_eq qx_map omega age_x n_years Hn) in HQ.
  destruct (Z.ltb_spec omega (age_x + n_years - 1)) as [_|Hom];
    [discriminate|].
  destruct (filter _ (range age_x (age_x + n_years))); [|discriminate].
  pose proof (lookup_all_ok _ _ _ HQ) as Mp.
  assert (Rg : Forall (fun q => (0 <= q <= 1)%Q) q_by_year).
  { apply Forall_forall. intros q I.
    assert (I' : In (Some q) (map (dict_get qx_map)
                                (range age_x (age_x + n_years))))
      by (rewrite Mp; now apply in_map).
    apply in_map_iff in I'. destruct I' as (a & G & _).
    apply Got in G. now destruct (Rows a q G) as (_ & R1 & _). }
  assert (Lt : Forall (fun q => (q < 1)%Q) (removelast q_by_year)).
  { apply Forall_forall. intros q I.
    assert (Mp' : map (dict_get qx_map) (range age_x (age_x + n_years - 1))
                  = map Some (removelast q_by_year)).
    { rewrite <- removelast_range by exact Hn.
      now rewrite !map_removelast, Mp. }
    assert (I' : In (Some q) (map (dict_get qx_map)
                                (range age_x (age_x + n_years - 1))))
      by (rewrite Mp'; now apply in_map).
    apply in_map_iff in I'. destruct I' as (a & G & Ia).
    apply range_In in Ia. apply Got in G.
    destruct (Rows a q G) as (_ & [_ R1] & One).
    apply Qle_lteq in R1. destruct R1 as [R1|R1]; [exact R1|].
    specialize (One R1). lia. }
  split; [exact Rg|]. split; [exact Lt|].
  exists (App.spec_monthly_from App.spec_survival 1 (map Q2R q_by_year)).
  split; [apply survival_loop_spec|].
  assert (F : Forall (fun q => 0 <= q <= 1)%R (map Q2R q_by_year)).
  { apply Forall_forall. intros x I. apply in_map_iff in I.
    destruct I as (q & <- & I). apply Q2R_unit_interval.
    rewrite Forall_forall in Rg. now apply Rg. }
  assert (L : Forall (fun q => q < 1)%R (removelast (map Q2R q_by_year))).
  { rewrite <- map_removelast. apply Forall_forall. intros x I.
    apply in_map_iff in I. destruct I as (q & <- & I).
    rewrite Forall_forall in Lt. specialize (Lt q I).
    apply Qlt_Rlt in Lt. now rewrite RMicromega.Q2R_1 in Lt. }
  pose proof (survivals_positive _ 1%R F L ltac:(lra)) as Pos.
  pose proof (survivals_range _ 1%R F ltac:(lra)) as Rng.
  rewrite Forall_forall in *. intros x I.
  specialize (Pos x I). specialize (Rng x I). lra.
Qed.

End CalculFacts.

(** A run of X14, with the message of the first check spelled out. *)
Lemma X14_rates_of_the_years_witness :
  AppCalcul.q_by_year_of [(50%Z, 1 # 100); (51%Z, 1%Q)] 51 51 2
  = AppCalcul.AErr (AppCalcul.Raised (ValueError
      "Durée trop longue: table dispo jusqu'à 51, mais tu demandes 52.")) /\
  exists qs,
    AppCalcul.q_by_year_of [(50%Z, 1 # 100); (51%Z, 1%Q)] 51 50 2
    = AppCalcul.AOk qs /\
    map (AppTable.dict_get [(50%Z, 1 # 100); (51%Z, 1%Q)]) (range 50 (50 + 2))
    = map Some qs /\
    length qs = Z.to_nat 2.
Proof.
  split.
  - apply (X14_rates_of_the_years [(50%Z, 1 # 100); (51%Z, 1%Q)] 51 51 2);
      reflexivity.
  - apply (X14_rates_of_the_years [(50%Z, 1 # 100); (51%Z, 1%Q)] 51 50 2).
    + reflexivity.
    + discriminate.
    + intros a I. apply range_In in I.
      assert (E : a = 50%Z \/ a = 51%Z) by lia.
      destruct E as [-> | ->]; reflexivity.
Defined.

(** A run of X15: a two-age table, 1200 over one year at 0 %, insured from
    age 50 at a technical rate of 2 %. *)
Lemma X15_pricing_never_fails_witness :
  exists (s : LoanCore.schedule) (U pv p : R),
    AppCalcul.calculer (fun _ => EmptyString)
      [(50%Z, 1 # 100); (51%Z, 1%Q)] 1200 1 0 50 2
    = AppCalcul.AOk
        (AppCalcul.mkOutcome (LoanCore.mensualite s) (LoanCore.df s)
           (LoanCore.total_interets s) (LoanCore.cout_total s)
           U pv (Some p)) /\
    (1 <= pv)%R /\ p = (U / pv)%R /\ (Rabs p <= Rabs U)%R.
Proof.
  destruct (schedule_of_run 1200 1 (0 / 100)) as [s T];
    [reflexivity | discriminate |].
  exists s.
  apply (X15_pricing_never_fails (fun _ => EmptyString)
           [(50%Z, 1 # 100); (51%Z, 1%Q)] 1200 1 0 50 2
           [(50%Z, 1 # 100); (51%Z, 1%Q)] 51 s [1 # 100]);
    [reflexivity | exact T | reflexivity | discriminate].
Defined.

(** A run of X16: the two-age table, both ages used. *)
Lemma X16_survivals_positive_witness :
  Forall (fun q => (q < 1)%Q) (removelast [1 # 100; 1%Q]) /\
  exists survs,
    App.monthly_survival_to_month_start_from_annual_q
      (map Q2R [1 # 100; 1%Q]) = Ok survs /\
    Forall (fun x => 0 < x <= 1)%R survs.
Proof.
  apply (X16_survivals_positive (fun _ => EmptyString)
           [(50%Z, 1 # 100); (51%Z, 1%Q)]
           [(50%Z, 1 # 100); (51%Z, 1%Q)] 51 50 2 [1 # 100; 1%Q]);
    reflexivity.
Defined.

(** ** The two schedule generators side by side *)

Section TwoGenerators.
Import QFloat.
Open Scope Q_scope.

(** The four money columns of a row of either generator. *)
Lemma generators_agree_rows (mens t : Q) (N : Z) (months : list Z) :
  forall (prev : Q) (tl : list LoanCoreMonth0.row),
    ~ In N months ->
    LoanCoreMonth0.month_rows mens t months prev = Ok tl ->
    map (fun r => (LoanCore.Interets r, LoanCore.Capital_rembourse r,
                   LoanCore.Valeur_mensualite r, LoanCore.CRD r))
        (LoanCore.amort_rows mens t N months prev)
    = map (fun r => (LoanCoreMonth0.Interets r,
                     LoanCoreMonth0.Capital_rembourse r,
                     LoanCoreMonth0.Valeur_mensualite r,
                     LoanCoreMonth0.Capital_restant_du r)) tl.
Proof.
  induction months as [|m rest IH]; intros prev tl NI H.
  - cbn in H. apply Ok_inj in H. subst tl. reflexivity.
  - cbn [LoanCoreMonth0.month_rows] in H.
    destruct (if Qeq_bool mens 0 then Ok 0
              else q <- float_div (prev * t) mens ;; Ok (round2 (q * 100)))
      as [part|e]; [|discriminate].
    cbn [bind] in H.
    destruct (LoanCoreMonth0.month_rows mens t rest
                (prev - (mens - prev * t))) as [tl'|e] eqn:R; [|discriminate].
    cbn [bind] in H. apply Ok_inj in H. subst tl.
    cbn [LoanCore.amort_rows].
    destruct (Z.eqb_spec m N) as [E|E]; [exfalso; apply NI; now left|].
    cbn [map]. f_equal.
    apply IH; [intros I; apply NI; now right | exact R].
Qed.

Lemma month_rows_app (mens t : Q) (months1 months2 : list Z) :
  forall (prev : Q) (tl : list LoanCoreMonth0.row),
    LoanCoreMonth0.month_rows mens t (months1 ++ months2) prev = Ok tl ->
    exists tl1 tl2,
      LoanCoreMonth0.month_rows mens t months1 prev = Ok tl1 /\
      tl = tl1 ++ tl2 /\ length tl2 = length months2.
Proof.
  induction months1 as [|m rest IH]; intros prev tl H.
  - exists [], tl. cbn [app] in *. split; [reflexivity|]. split; [reflexivity|].
    destruct (month_rows_spec mens t months2 prev) as (tl' & R & Hm & _).
    rewrite H in R. apply Ok_inj in R. subst tl'.
    now rewrite <- Hm, length_map.
  - cbn [app LoanCoreMonth0.month_rows] in H |- *.
    destruct (if Qeq_bool mens 0 then Ok 0
              else q <- float_div (prev * t) mens ;; Ok (round2 (q * 100)))
      as [part|e]; [|discriminate].
    cbn [bind] in H |- *.
    destruct (LoanCoreMonth0.month_rows mens t (rest ++ months2)
                (prev - (mens - prev * t))) as [tl'|e] eqn:R; [|discriminate].
    cbn [bind] in H. apply Ok_inj in H. subst tl.
    destruct (IH _ _ R) as (tl1 & tl2 & R1 & E & L).
    rewrite R1. cbn [bind]. eexists. exists tl2.
    split; [reflexivity|]. split; [now rewrite E | exact L].
Qed.

(** X17. The two generators side by side.  For a positive capital and
    term and an annual rate that is 0 or at least 12e-12, the variant
    with the settling last row and the month-0 variant return the same
    rounded payment, and before the display rounding they book the same
    interest, principal portion, payment and balance in every month but
    the last one. *)
Theorem X17_generators_agree
  (capital : Q) (duree_annees : Z) (taux_annuel : Q) :
  0 < capital -> (0 < duree_annees)%Z ->
  taux_annuel == 0 \/ 12e-12 <= taux_annuel ->
  let N := (duree_annees * 12)%Z in
  let t := taux_annuel / 12 in
  exists (s : LoanCore.schedule) (s0 : LoanCoreMonth0.schedule)
         (tl : list LoanCoreMonth0.row),
    LoanCore.tableau_amortissement capital duree_annees taux_annuel = Ok s /\
    LoanCoreMonth0.tableau_amortissement capital duree_annees taux_annuel
    = Ok s0 /\
    LoanCore.mensualite s = LoanCoreMonth0.valeur_mensualite s0 /\
    LoanCoreMonth0.month_rows (LoanCore.mensualite s) t (range 1 (N + 1))
      capital = Ok tl /\
    map (fun r => (LoanCore.Interets r, LoanCore.Capital_rembourse r,
                   LoanCore.Valeur_mensualite r, LoanCore.CRD r))
        (removelast (LoanCore.rows_of capital N t (LoanCore.mensualite s)))
    = map (fun r => (LoanCoreMonth0.Interets r,
                     LoanCoreMonth0.Capital_rembourse r,
                     LoanCoreMonth0.Valeur_mensualite r,
                     LoanCoreMonth0.Capital_restant_du r))
          (removelast tl).
Proof.
  intros Hc Hd Hr N t.
  assert (Ht : 0 <= taux_annuel).
  { destruct Hr as [E|L]; [rewrite E; discriminate|].
    apply Qle_trans with 12e-12; [discriminate | exact L]. }
  assert (PN : 0 < inject_Z N).
  { change 0 with (inject_Z 0). rewrite <- Zlt_Qlt. unfold N. lia. }
  assert (NZ : Qeq_bool (inject_Z N) 0 = false).
  { destruct (Qeq_bool (inject_Z N) 0) eqn:E; [|reflexivity].
    apply Qeq_bool_eq in E. exfalso. lra. }
  (* the payment of the month-0 variant *)
  assert (C0 : Qle_bool capital 0 = false).
  { destruct (Qle_bool capital 0) eqn:E; [|reflexivity].
    apply Qle_bool_imp_le in E. exfalso. lra. }
  assert (D0 : (duree_annees <=? 0)%Z = false) by (apply Z.leb_gt; exact Hd).
  assert (T0 : Qle_bool 0 taux_annuel = true) by (apply Qle_bool_iff; exact Ht).
  assert (N12 : (12 * duree_annees)%Z = N) by (unfold N; lia).
  (* the payment before rounding, the same in both *)
  assert (Raw : exists raw,
    LoanCore.raw_mensualite capital N t = Ok raw /\
    (if Qeq_bool t 0
     then q <- float_div capital (inject_Z N) ;; Ok (round2 q)
     else p <- float_pow_int (1 + t) (- N) ;;
          d <- float_div t (1 - p) ;; Ok (round2 (capital * d)))
    = Ok (round2 raw)).
  { unfold LoanCore.raw_mensualite.
    destruct Hr as [E|L].
    - assert (I0 : t == 0) by (unfold t; rewrite E; reflexivity).
      rewrite (Qeq_eq_bool _ _ I0).
      destruct (Qlt_le_dec (Qabs t) 1e-12) as [_|B].
      + unfold float_div. rewrite NZ. cbn [bind]. eauto.
      + exfalso. pose proof (Qabs_wd _ _ I0) as A.
        change (Qabs 0) with 0 in A.
        assert (0 < 1e-12) by reflexivity. lra.
    - assert (Lt : 1e-12 <= t).
      { unfold t. apply Qle_shift_div_l; [reflexivity|].
        assert (E12 : 1e-12 * 12 == 12e-12) by reflexivity.
        rewrite E12. exact L. }
      assert (P0 : 0 < 1e-12) by reflexivity.
      assert (Tn : Qeq_bool t 0 = false).
      { destruct (Qeq_bool t 0) eqn:E; [|reflexivity].
        apply Qeq_bool_eq in E. exfalso. lra. }
      rewrite Tn.
      destruct (Qlt_le_dec (Qabs t) 1e-12) as [S|_].
      + exfalso. rewrite Qabs_pos in S by lra. lra.
      + rewrite float_pow_int_discount by (lra || (unfold N; lia)).
        cbn [bind]. unfold float_div.
        destruct (Qeq_bool (1 - (1 + t) ^ (- N)) 0) eqn:Dn.
        * apply Qeq_bool_eq in Dn. exfalso.
          apply (annuity_denominator t N); [lra | unfold N; lia | exact Dn].
        * cbn [bind]. eauto. }
  destruct Raw as (raw & R & R0).
  pose proof (tableau_amortissement_run capital duree_annees taux_annuel raw
                Hd R) as T. cbv zeta in T. fold N t in T.
  destruct (month_rows_spec (round2 raw) t (range 1 (N + 1)) capital)
    as (tl & Rt & _).
  eexists. eexists. exists tl. split; [exact T|].
  cbn [LoanCore.mensualite].
  split.
  { unfold LoanCoreMonth0.tableau_amortissement.
    rewrite C0, D0, T0. cbn [negb]. rewrite N12. fold t.
    rewrite R0. cbn [bind]. rewrite Rt. cbn [bind]. reflexivity. }
  cbn [LoanCoreMonth0.valeur_mensualite].
  split; [reflexivity|]. split; [exact Rt|].
  destruct (rows_of_split capital N t (round2 raw)) as (fin & E & _);
    [unfold N; lia|].
  rewrite E, removelast_last.
  rewrite range_snoc in Rt by (unfold N; lia).
  destruct (month_rows_app _ _ _ _ _ _ Rt) as (tl1 & tl2 & R1 & Etl & L2).
  destruct tl2 as [|r2 [|r3 tl2]]; cbn in L2; try lia.
  rewrite Etl, removelast_last.
  apply (generators_agree_rows _ _ N); [apply range_not_In | exact R1].
Qed.

(** A run of X17. *)
Lemma X17_generators_agree_witness :
  exists (s : LoanCore.schedule) (s0 : LoanCoreMonth0.schedule),
    LoanCore.tableau_amortissement 1200 1 (35 # 1000) = Ok s /\
    LoanCoreMonth0.tableau_amortissement 1200 1 (35 # 1000) = Ok s0 /\
    LoanCore.mensualite s = LoanCoreMonth0.valeur_mensualite s0.
Proof.
  destruct (X17_generators_agree 1200 1 (35 # 1000))
    as (s & s0 & tl & A & B & C & _).
  - reflexivity.
  - reflexivity.
  - right. discriminate.
  - exists s, s0. repeat (split; [assumption|]). exact C.
Defined.

End TwoGenerators.
